(** * WrappedFilesys: the in-memory file tree of [wrapped_filesys.hpp]

    A shallow embedding of the classes [wfs::File] and [wfs::Dir] and of the
    helpers they call, followed by the properties of the tree model.

    Conventions of the embedding.
    - [std::string] is [string]; a byte payload is a [string] as well.
    - [size_t] is [N] with the wrap-around modulo [2^64] written out
      ([size_t_add]); the sentinels [String::npos] and [Dir::NOF_] (both
      [size_t(-1)]) are [None].
    - An owning pointer that may be [nullptr] ([File::data_],
      [Dir::subFiles_], [Dir::subDirs_]) is an [option]; [None] is [nullptr].
    - A member function that mutates [*this] returns the new value of
      [*this]; one that also mutates an argument passed by reference returns
      both.  Where a claim depends on two references naming the same object
      the operator is also given over a store of objects.
    - A function that may throw returns a [Result]; a function that talks to
      the file system is a state-and-exception computation [IO] over a
      [World]: the disk, the order in which the platform lists a directory,
      and the journal of the requests made to the disk.
    - The build modelled is the POSIX one: [PREFERRED_PATH_SEPARATOR] is
      [LINUX_PATH_SEPARATOR], a path is resolved component by component
      along the directories of the disk, a name holds at most [NAME_MAX]
      bytes and a path fewer than [PATH_MAX], and the standard library is
      the one of GCC. *)

From Stdlib Require Import String Ascii List NArith Lia Permutation.
From stdpp Require Import base option list strings gmap.

Set Warnings "-register-all,-clear-no-such-hyp".
Local Open Scope string_scope.

(** ** Type aliases, enum and constants *)

Definition _BUFFER_SIZE : nat := 4096.

Definition WIN_PATH_SEPARATOR : ascii := "\"%char.
Definition LINUX_PATH_SEPARATOR : ascii := "/"%char.
Definition PREFERRED_PATH_SEPARATOR : ascii := LINUX_PATH_SEPARATOR.

(** The double quote has code 34. *)
Definition dquote : ascii := "034"%char.

(** [FILENAME_INVALID_CHARS]: backslash, slash, colon, star, question mark,
    double quote, less-than, greater-than, bar. *)
Definition FILENAME_INVALID_CHARS : string :=
  "\/:*?" +:+ String dquote "<>|".

(** ** [size_t] *)

Definition SIZE_MAX_succ : N := (2 ^ 64)%N.

Definition size_t_add (a b : N) : N := ((a + b) mod SIZE_MAX_succ)%N.

(** [std::vector::size()] and [std::string::size()]. *)
Definition vec_size {A} (v : list A) : N := N.of_nat (length v).
Definition str_size (s : string) : N := N.of_nat (String.length s).

(** ** [std::string] operations used by the source *)

Fixpoint str_mem (c : ascii) (chars : string) : bool :=
  match chars with
  | EmptyString => false
  | String c' rest => if Ascii.eqb c c' then true else str_mem c rest
  end.

(** [s.find_first_of(chars)] searched from position [pos] of the original
    string; [None] is [String::npos]. *)
Fixpoint find_first_of_from (pos : nat) (s chars : string) : option nat :=
  match s with
  | EmptyString => None
  | String c rest =>
      if str_mem c chars then Some pos
      else find_first_of_from (S pos) rest chars
  end.

Definition find_first_of (s chars : string) : option nat :=
  find_first_of_from 0 s chars.

Fixpoint str_take (n : nat) (s : string) : string :=
  match n, s with
  | S n', String c rest => String c (str_take n' rest)
  | _, _ => EmptyString
  end.

Fixpoint str_drop (n : nat) (s : string) : string :=
  match n, s with
  | S n', String _ rest => str_drop n' rest
  | _, _ => s
  end.

(** ** Utility functions with not filesystem *)

(** [pathcat(path1, path2)]. *)
Definition pathcat (path1 path2 : string) : string :=
  path1 +:+ String PREFERRED_PATH_SEPARATOR path2.

(** [isValidFilename(filename)]. *)
Definition isValidFilename (filename : string) : bool :=
  if String.eqb filename "" then false
  else if String.eqb filename "." || String.eqb filename ".." then false
  else if find_first_of filename FILENAME_INVALID_CHARS is Some _ then false
  else true.

(** [pathcat(path1, path2, paths...)], the variadic template, its pack
    given as a list. *)
Fixpoint pathcat_pack (path1 path2 : string) (paths : list string) : string :=
  match paths with
  | [] => pathcat path1 path2
  | path3 :: paths' => pathcat_pack (pathcat path1 path2) path3 paths'
  end.

(** [fmt[i]]. *)
Definition str_at (s : string) (i : nat) : ascii :=
  default "000"%char (String.get i s).

(** The loop of [_fmt], entered at index [i] with [ss] in the stream;
    [fuel] bounds the number of iterations.  It runs only on a format of
    four bytes or more, so [fmt.size() - 3] does not wrap.  [tail] is what
    the template makes of [fmt.substr(i + 2)] once [arg] is in the stream. *)
Fixpoint _fmt_loop (fuel : nat) (fmt arg : string) (tail : string -> string)
    (i : nat) (ss : string) : string :=
  match fuel with
  | O => ss
  | S fuel' =>
      if Nat.ltb i (String.length fmt) then
        let window0 := str_at fmt i in
        let window1 :=
          if Nat.ltb i (String.length fmt - 1) then str_at fmt (i + 1) else "000"%char in
        let window2 :=
          if Nat.ltb i (String.length fmt - 2) then str_at fmt (i + 2) else "000"%char in
        let window3 :=
          if Nat.ltb i (String.length fmt - 3) then str_at fmt (i + 3) else "000"%char in
        let window :=
          String window0 (String window1 (String window2 (String window3 ""))) in
        if String.eqb window "{{}}" then
          _fmt_loop fuel' fmt arg tail (i + 4) (ss +:+ "{}")
        else if Ascii.eqb window0 "{" && Ascii.eqb window1 "}" then
          (ss +:+ arg) +:+ tail (str_drop (i + 2) fmt)
        else
          _fmt_loop fuel' fmt arg tail (i + 1) (ss +:+ String window0 "")
      else ss
  end.

(** [_fmt(fmt, arg)] and [_fmt(fmt, arg, args...)], every argument a
    [String] as in the calls of the source, the pack given as a list.  The
    two templates differ in one place: with an empty pack what follows the
    argument is [fmt.substr(i + 2)] as it stands, otherwise it is
    [_fmt(fmt.substr(i + 2), args...)].  One iteration of the loop advances
    [i], so [fmt.size()] iterations are enough. *)
Fixpoint _fmt (fmt arg : string) (args : list string) : string :=
  let tail (rest : string) : string :=
    match args with
    | [] => rest
    | arg' :: args' => _fmt rest arg' args'
    end in
  if Nat.ltb (String.length fmt) 4 then
    match String.index 0 "{}" fmt with
    | None => fmt
    | Some pos => (str_take pos fmt +:+ arg) +:+ str_drop (pos + 2) fmt
    end
  else _fmt_loop (String.length fmt) fmt arg tail 0 "".

(** ** Exceptions

    The source throws [wfs::Exception] (a [std::runtime_error]) with four
    message formats; the [fs::] calls throw [fs::filesystem_error], and
    [std::string::reserve] throws [std::length_error]. *)

Inductive Exception : Type :=
  | Invalid_file_name (name : string)
      (* Exception: Invalid file name: {} *)
  | Failed_to_open_the_file (path : string)
      (* Exception: Failed to open the file: {} *)
  | Not_directory_or_not_exists (path : string)
      (* Exception: The specified path is not directory or not exists. {} *)
  | filesystem_error (path : string)
      (* thrown by the fs:: calls themselves *)
  | The_specified_path_not_exists (path : string)
      (* Exception: The specified path not exists. {} *)
  | length_error.
      (* thrown by std::string::reserve *)

(** [what()] of an exception of the source: the message [_fmt] makes of the
    format and the argument at the throw site.  The text of an exception of
    the standard library is left to the platform. *)
Definition quoted_placeholder : string := String dquote ("{}" +:+ String dquote "").

Definition what (e : Exception) : option string :=
  match e with
  | Invalid_file_name name =>
      Some (_fmt ("Invalid file name: " +:+ quoted_placeholder) name [])
  | Failed_to_open_the_file path =>
      Some (_fmt ("Failed to open the file: " +:+ quoted_placeholder) path [])
  | Not_directory_or_not_exists path =>
      Some (_fmt ("The specified path is not directory or not exists. " +:+
                  quoted_placeholder) path [])
  | The_specified_path_not_exists path =>
      Some (_fmt ("The specified path not exists. " +:+ quoted_placeholder) path [])
  | filesystem_error _ | length_error => None
  end.

(** The outcome of a call: a value, an exception, or, for the one function
    whose recursion follows the disk and is bounded here by a fuel, the
    report that the bound was reached. *)
Inductive Result (A : Type) : Type :=
  | Ok (a : A)
  | Throw (e : Exception)
  | OutOfFuel.
Arguments Ok {A} a.
Arguments Throw {A} e.
Arguments OutOfFuel {A}.

(** ** The file system behind [namespace fs]

    [std::filesystem] is a collaborator of the tree code.  It is modelled as
    a tree of directories and regular files under one root, which is also
    the working directory.  There are no links, permissions or quotas, and
    names are compared byte for byte.  Every path reaches the operating
    system as a C string, so it ends at its first NUL byte, and is resolved
    there component by component: a component is looked for in a directory
    that exists, [.] and the empty component stay in it and [..] goes to
    its parent. *)

Module FS.

Inductive Node : Type :=
  | RegularFile (bytes : string)
  | Directory (entries : list (string * Node)).

Fixpoint find_entry (c : string) (es : list (string * Node)) : option Node :=
  match es with
  | [] => None
  | (c', n) :: es' => if String.eqb c c' then Some n else find_entry c es'
  end.

(** Replace the first entry named [c], or add it as a new last entry. *)
Fixpoint set_entry (c : string) (new : Node) (es : list (string * Node))
  : list (string * Node) :=
  match es with
  | [] => [(c, new)]
  | (c', n) :: es' =>
      if String.eqb c c' then (c', new) :: es' else (c', n) :: set_entry c new es'
  end.

Fixpoint lookup (q : list string) (n : Node) : option Node :=
  match q with
  | [] => Some n
  | c :: q' =>
      match n with
      | Directory es =>
          match find_entry c es with
          | Some child => lookup q' child
          | None => None
          end
      | RegularFile _ => None
      end
  end.

(** Store [new] at [q]; nothing changes when the parent of [q] is missing. *)
Fixpoint put (q : list string) (new : Node) (n : Node) : Node :=
  match q with
  | [] => new
  | c :: q' =>
      match n with
      | Directory es =>
          match find_entry c es, q' with
          | Some child, _ => Directory (set_entry c (put q' new child) es)
          | None, [] => Directory (set_entry c new es)
          | None, _ :: _ => n
          end
      | RegularFile _ => n
      end
  end.

(** *** Paths *)

Definition NUL : ascii := "000"%char.

(** The C string a [std::string] denotes. *)
Fixpoint c_str (s : string) : string :=
  match s with
  | EmptyString => EmptyString
  | String c rest => if Ascii.eqb c NUL then EmptyString else String c (c_str rest)
  end.

(** The components between separators, empty ones included. *)
Fixpoint split (s : string) : list string :=
  match s with
  | EmptyString => [EmptyString]
  | String c rest =>
      if Ascii.eqb c PREFERRED_PATH_SEPARATOR then EmptyString :: split rest
      else match split rest with
           | w :: ws => String c w :: ws
           | [] => [String c EmptyString]
           end
  end.

(** The limits of the system: a component of more than [NAME_MAX] bytes
    and a path of [PATH_MAX] bytes or more are refused. *)
Definition NAME_MAX : nat := 255.
Definition PATH_MAX : nat := 4096.

(** Where the resolution of a path ends: at a place of the disk, given by
    the names that lead to it from the root (the last of them may name
    nothing yet); at a component that is missing or no directory and has
    components after it ([ENOENT], [ENOTDIR]); or at a name that is too
    long ([ENAMETOOLONG]). *)
Inductive Resolved : Type :=
  | At (q : list string)
  | NoEntry
  | NameTooLong.

(** The walk along the components [cs] from the place [cur].  Each
    component is taken in a directory that exists. *)
Fixpoint walk (root : Node) (cs : list string) (cur : list string) : Resolved :=
  match cs with
  | [] => At cur
  | c :: cs' =>
      match lookup cur root with
      | Some (Directory _) =>
          if String.eqb c "" || String.eqb c "." then walk root cs' cur
          else if String.eqb c ".." then walk root cs' (removelast cur)
          else if Nat.ltb NAME_MAX (String.length c) then NameTooLong
          else walk root cs' (cur ++ [c])
      | _ => NoEntry
      end
  end.

Definition resolve (path : string) (root : Node) : Resolved :=
  if Nat.leb PATH_MAX (String.length (c_str path)) then NameTooLong
  else walk root (split (c_str path)) [].

(** The components without the empty ones at the end, which separators at
    the end of a path give. *)
Fixpoint drop_trailing_empty (cs : list string) : list string :=
  match cs with
  | [] => []
  | c :: cs' =>
      match drop_trailing_empty cs' with
      | [] => if String.eqb c "" then [] else [c]
      | l => c :: l
      end
  end.

(** The resolution for the creation of a directory, which accepts
    separators after the name of the directory to create. *)
Definition resolve_new (path : string) (root : Node) : Resolved :=
  if Nat.leb PATH_MAX (String.length (c_str path)) then NameTooLong
  else walk root (drop_trailing_empty (split (c_str path))) [].

Definition ends_with_separator (path : string) : bool :=
  match last (split path) with
  | Some EmptyString => match path with EmptyString => false | _ => true end
  | _ => false
  end.

(** The node the components of a path lead to; those of the empty path
    lead nowhere, so to the working directory. *)
Definition reach (path : string) (root : Node) : option Node :=
  match resolve path root with
  | At q => lookup q root
  | _ => None
  end.

(** The node a path names; the empty path names nothing. *)
Definition locate (path : string) (root : Node) : option Node :=
  if String.eqb (c_str path) "" then None else reach path root.

(** [fs::path(p).filename()]: what follows the last separator. *)
Definition filename (path : string) : string :=
  default EmptyString (last (split path)).

(** [fs::path(p) / c]. *)
Definition path_slash (p c : string) : string :=
  if String.eqb p "" || ends_with_separator p then p +:+ c else pathcat p c.

(** *** The world: the disk, the order in which the platform enumerates a
    directory, and the journal of the requests that change the disk. *)

Inductive Event : Type :=
  | EvCreateDirectory (path : string)
  | EvOpenForWriting (path : string)
  | EvWrite (path : string) (bytes : string).

Record World : Type := mkWorld {
  disk : Node;
  readdir_order : list (string * Node) -> list (string * Node);
  journal : list Event
}.

Definition record (e : Event) (w : World) : World :=
  mkWorld (disk w) (readdir_order w) ((journal w ++ [e])%list).

Definition set_disk (d : Node) (w : World) : World :=
  mkWorld d (readdir_order w) (journal w).

(** *** Status queries *)

Definition exists_ (path : string) (w : World) : bool :=
  if locate path (disk w) is Some _ then true else false.

Definition is_regular_file (path : string) (w : World) : bool :=
  if locate path (disk w) is Some (RegularFile _) then true else false.

Definition is_directory (path : string) (w : World) : bool :=
  if locate path (disk w) is Some (Directory _) then true else false.

(** Whether the system refuses to report on the path, as it does for a
    name that is too long, which is more than reporting that nothing is
    there. *)
Definition status_error (path : string) (w : World) : bool :=
  if resolve path (disk w) is NameTooLong then true else false.

End FS.

(** ** Computations over the world *)

Definition IO (A : Type) : Type := FS.World -> Result A * FS.World.

#[global] Instance IO_ret : MRet IO := fun A a w => (Ok a, w).

#[global] Instance IO_bind : MBind IO := fun A B k m w =>
  match m w with
  | (Ok a, w') => k a w'
  | (Throw e, w') => (Throw e, w')
  | (OutOfFuel, w') => (OutOfFuel, w')
  end.

Definition throw {A} (e : Exception) : IO A := fun w => (Throw e, w).

(** Read the world without changing it. *)
Definition observe {A} (f : FS.World -> A) : IO A := fun w => (Ok (f w), w).

(** A range-based [for] whose body has effects only. *)
Definition for_each {A} (body : A -> IO unit) : list A -> IO unit :=
  fix go (l : list A) : IO unit :=
    match l with
    | [] => mret tt
    | var :: l' => body var ;; go l'
    end.

(** A range-based [for] whose body updates a local object [s]. *)
Definition for_fold {A S} (body : S -> A -> IO S) : list A -> S -> IO S :=
  fix go (l : list A) (s : S) : IO S :=
    match l with
    | [] => mret s
    | var :: l' => s' ← body s var; go l' s'
    end.

(** Exceptions without the world, for the code that touches no file. *)
#[global] Instance Result_ret : MRet Result := fun A a => Ok a.

#[global] Instance Result_bind : MBind Result := fun A B k m =>
  match m with
  | Ok a => k a
  | Throw e => Throw e
  | OutOfFuel => OutOfFuel
  end.

(** ** The [fs::] calls and the file streams *)

(** [fs::create_directory(path)]: [true] when the directory was created,
    [false] when it already was a directory; an error otherwise. *)
Definition fs_create_directory (path : string) : IO bool := fun w =>
  let w := FS.record (FS.EvCreateDirectory path) w in
  if String.eqb (FS.c_str path) "" then (Throw (filesystem_error path), w)
  else
    match FS.resolve_new path (FS.disk w) with
    | FS.At q =>
        match FS.lookup q (FS.disk w) with
        | Some (FS.Directory _) => (Ok false, w)
        | Some (FS.RegularFile _) => (Throw (filesystem_error path), w)
        | None =>
            match FS.lookup (removelast q) (FS.disk w) with
            | Some (FS.Directory _) =>
                (Ok true, FS.set_disk (FS.put q (FS.Directory []) (FS.disk w)) w)
            | _ => (Throw (filesystem_error path), w)
            end
        end
    | _ => (Throw (filesystem_error path), w)
    end.

(** [fs::directory_iterator(path)]: the entries of the directory, each with
    its path [path / name], in the order of the platform. *)
Definition fs_directory_iterator (path : string) : IO (list (string * FS.Node)) :=
  fun w =>
    match FS.locate path (FS.disk w) with
    | Some (FS.Directory es) =>
        (Ok (map (fun e => (FS.path_slash path (fst e), snd e))
                 (FS.readdir_order w es)), w)
    | _ => (Throw (filesystem_error path), w)
    end.

(** [std::ofstream ofs(path, std::ios_base::binary)] followed by
    [ofs.is_open()]: the file is created or truncated. *)
Definition ofstream_open (path : string) : IO bool := fun w =>
  let w := FS.record (FS.EvOpenForWriting path) w in
  if String.eqb (FS.c_str path) "" || FS.ends_with_separator (FS.c_str path)
  then (Ok false, w)
  else
    match FS.resolve path (FS.disk w) with
    | FS.At q =>
        match FS.lookup q (FS.disk w) with
        | Some (FS.Directory _) => (Ok false, w)
        | Some (FS.RegularFile _) =>
            (Ok true, FS.set_disk (FS.put q (FS.RegularFile "") (FS.disk w)) w)
        | None =>
            match FS.lookup (removelast q) (FS.disk w) with
            | Some (FS.Directory _) =>
                (Ok true, FS.set_disk (FS.put q (FS.RegularFile "") (FS.disk w)) w)
            | _ => (Ok false, w)
            end
        end
    | _ => (Ok false, w)
    end.

(** What an open [ofstream] on [path] does with the bytes sent to it. *)
Definition ofstream_write (path : string) (bytes : string) : IO unit := fun w =>
  let w := FS.record (FS.EvWrite path bytes) w in
  match FS.resolve path (FS.disk w) with
  | FS.At q =>
      match FS.lookup q (FS.disk w) with
      | Some (FS.RegularFile old) =>
          (Ok tt, FS.set_disk (FS.put q (FS.RegularFile (old +:+ bytes)) (FS.disk w)) w)
      | _ => (Ok tt, w)
      end
  | _ => (Ok tt, w)
  end.

(** ** [std::istream]

    A stream as [File::operator<<(IStream&)] uses it: positioned at its
    end, asked for that position, positioned at its start, and read in
    chunks.  A stream over a file or a string can be positioned.  One over
    a pipe or a terminal cannot: positioning it fails and sets [failbit].
    A directory opened as a file can be positioned, its end being reported
    as the largest offset, and no byte can be read from it. *)

Inductive stream_kind : Type :=
  | Positionable
  | Sequential
  | OfDirectory.

Record istream : Type := mk_istream {
  is_kind : stream_kind;
  is_seq : string;     (* the bytes of the sequence behind the stream *)
  is_gpos : N;         (* the get position *)
  is_fail : bool       (* failbit or badbit is set *)
}.

Definition streamoff_max : N := (2 ^ 63 - 1)%N.

(** [std::string::max_size()]. *)
Definition String_max_size : N := (2 ^ 62 - 1)%N.

(** [rdbuf()->pubseekoff(0, std::ios_base::end, std::ios_base::in)] and
    [rdbuf()->pubseekoff(0, std::ios_base::beg, std::ios_base::in)]: the
    new position, [None] for [pos_type(-1)]. *)
Definition seekoff_end (stm : istream) : option N :=
  match is_kind stm with
  | Positionable => Some (str_size (is_seq stm))
  | Sequential => None
  | OfDirectory => Some streamoff_max
  end.

Definition seekoff_beg (stm : istream) : option N :=
  match is_kind stm with
  | Sequential => None
  | _ => Some 0%N
  end.

(** [is.seekg(0, dir)], [seekoff] being the positioning of the buffer for
    [dir]: nothing happens on a stream that has failed, and a stream that
    cannot be positioned fails. *)
Definition seekg (seekoff : istream -> option N) (stm : istream) : istream :=
  if is_fail stm then stm
  else match seekoff stm with
       | Some p => mk_istream (is_kind stm) (is_seq stm) p false
       | None => mk_istream (is_kind stm) (is_seq stm) (is_gpos stm) true
       end.

(** [size_t(is.tellg())]: [pos_type(-1)], so [SIZE_MAX], on a stream that
    has failed or cannot tell its position. *)
Definition tellg (stm : istream) : N :=
  if is_fail stm then (SIZE_MAX_succ - 1)%N
  else match is_kind stm with
       | Sequential => (SIZE_MAX_succ - 1)%N
       | _ => is_gpos stm
       end.

(** The bytes a stream that has not failed still delivers. *)
Definition bytes_left (stm : istream) : string :=
  match is_kind stm with
  | OfDirectory => ""
  | _ =>
      if N.leb (str_size (is_seq stm)) (is_gpos stm) then ""
      else str_drop (N.to_nat (is_gpos stm)) (is_seq stm)
  end.

(** [IFStream ifs(path, std::ios_base::binary)]: the stream when
    [ifs.is_open()], [None] otherwise.  A directory can be opened for
    reading. *)
Definition ifstream_open (path : string) : IO (option istream) :=
  observe (fun w =>
    match FS.locate path (FS.disk w) with
    | Some (FS.RegularFile bytes) => Some (mk_istream Positionable bytes 0 false)
    | Some (FS.Directory _) => Some (mk_istream OfDirectory "" 0 false)
    | None => None
    end).

(** ** Utility functions with filesystem *)

Definition filenameEx (path : string) : string := FS.filename path.

(** [fs::exists(path)], [fs::is_regular_file(path)] and
    [fs::is_directory(path)]: each asks the system for the status of the
    path and throws when the system refuses the path. *)
Definition fs_status_query (answer : string -> FS.World -> bool) (path : string)
  : IO bool :=
  fun w =>
    if FS.status_error path w then (Throw (filesystem_error path), w)
    else (Ok (answer path w), w).

Definition fs_exists : string -> IO bool := fs_status_query FS.exists_.
Definition fs_is_regular_file : string -> IO bool := fs_status_query FS.is_regular_file.
Definition fs_is_directory : string -> IO bool := fs_status_query FS.is_directory.

Definition isExists (path : string) : IO bool := fs_exists path.

Definition isFile (path : string) : IO bool :=
  e ← fs_exists path;
  if (e : bool) then fs_is_regular_file path else mret false.

Definition isDirectory (path : string) : IO bool :=
  e ← fs_exists path;
  if (e : bool) then fs_is_directory path else mret false.

Definition createDirectory (path : string) : IO bool := fs_create_directory path.

Definition node_is_regular_file (n : FS.Node) : bool :=
  if n is FS.RegularFile _ then true else false.

Definition node_is_directory (n : FS.Node) : bool :=
  if n is FS.Directory _ then true else false.

(** [getAllFiles(path, false)]: the branch for [isRecursive == false] with
    no filter, the only one the classes use. *)
Definition getAllFiles (path : string) : IO (list string) :=
  b ← isDirectory path;
  if negb b then throw (Not_directory_or_not_exists path)
  else
    entries ← fs_directory_iterator path;
    mret (map fst (filter (fun var => node_is_regular_file (snd var)) entries)).

(** [getAllDirectorys(path, false)], likewise. *)
Definition getAllDirectorys (path : string) : IO (list string) :=
  b ← isDirectory path;
  if negb b then throw (Not_directory_or_not_exists path)
  else
    entries ← fs_directory_iterator path;
    mret (map fst (filter (fun var => node_is_directory (snd var)) entries)).

(** [fs::recursive_directory_iterator(path)] on the entries [es] of the
    directory [path]: every entry below it, a directory before what it
    holds, the entries of one directory in the order of the platform.  The
    recursion follows the directories of the disk; [fuel] bounds its depth. *)
Fixpoint fs_recursive_entries (fuel : nat)
    (order : list (string * FS.Node) -> list (string * FS.Node))
    (path : string) (es : list (string * FS.Node))
  : Result (list (string * FS.Node)) :=
  match fuel with
  | O => OutOfFuel
  | S fuel' =>
      (fix go (l : list (string * FS.Node)) : Result (list (string * FS.Node)) :=
         match l with
         | [] => Ok []
         | e :: l' =>
             let p := FS.path_slash path (fst e) in
             below ← match snd e with
                     | FS.Directory sub => fs_recursive_entries fuel' order p sub
                     | FS.RegularFile _ => Ok []
                     end;
             rest ← go l';
             Ok ((p, snd e) :: below ++ rest)%list
         end) (order es)
  end.

Definition fs_recursive_directory_iterator (fuel : nat) (path : string)
  : IO (list (string * FS.Node)) :=
  fun w =>
    match FS.locate path (FS.disk w) with
    | Some (FS.Directory es) =>
        (fs_recursive_entries fuel (FS.readdir_order w) path es, w)
    | _ => (Throw (filesystem_error path), w)
    end.

(** The three listings with all their parameters.  [filter] is a pointer to
    a function, taken to be a pure one, [None] when it is [nullptr]; [fuel]
    is used by the recursive listing only. *)
Module Listing.

(** [!filter || filter(_path)]. *)
Definition passes (filter : option (string -> bool)) (_path : string) : bool :=
  match filter with
  | None => true
  | Some f => f _path
  end.

Definition iterate (fuel : nat) (path : string) (isRecursive : bool)
  : IO (list (string * FS.Node)) :=
  if isRecursive then fs_recursive_directory_iterator fuel path
  else fs_directory_iterator path.

(** [getAlls(path, isRecursive, filter)]: the files, then the directories. *)
Definition getAlls (fuel : nat) (path : string) (isRecursive : bool)
    (filter : option (string -> bool)) : IO (list string * list string) :=
  b ← isDirectory path;
  if negb b then throw (Not_directory_or_not_exists path)
  else
    entries ← iterate fuel path isRecursive;
    mret (fold_left
            (fun '(files, dirs) var =>
               let _path := fst var in
               let files :=
                 if node_is_regular_file (snd var) && passes filter _path
                 then (files ++ [_path])%list else files in
               let dirs :=
                 if node_is_directory (snd var) && passes filter _path
                 then (dirs ++ [_path])%list else dirs in
               (files, dirs))
            entries ([], [])).

(** [getAllFiles(path, isRecursive, filter)]. *)
Definition getAllFiles (fuel : nat) (path : string) (isRecursive : bool)
    (filter : option (string -> bool)) : IO (list string) :=
  b ← isDirectory path;
  if negb b then throw (Not_directory_or_not_exists path)
  else
    entries ← iterate fuel path isRecursive;
    mret (fold_left
            (fun files var =>
               let _path := fst var in
               if node_is_regular_file (snd var) && passes filter _path
               then (files ++ [_path])%list else files)
            entries []).

(** [getAllDirectorys(path, isRecursive, filter)]. *)
Definition getAllDirectorys (fuel : nat) (path : string) (isRecursive : bool)
    (filter : option (string -> bool)) : IO (list string) :=
  b ← isDirectory path;
  if negb b then throw (Not_directory_or_not_exists path)
  else
    entries ← iterate fuel path isRecursive;
    mret (fold_left
            (fun dirs var =>
               let _path := fst var in
               if node_is_directory (snd var) && passes filter _path
               then (dirs ++ [_path])%list else dirs)
            entries []).

End Listing.

(** [var.file_size()] where [var.is_regular_file()], and [0] elsewhere. *)
Definition entry_file_size (var : string * FS.Node) : N :=
  match snd var with
  | FS.RegularFile bytes => str_size bytes
  | FS.Directory _ => 0%N
  end.

(** [fs::file_size(path)]: the number of bytes of a regular file, an error
    otherwise. *)
Definition fs_file_size (path : string) : IO N := fun w =>
  match FS.locate path (FS.disk w) with
  | Some (FS.RegularFile bytes) => (Ok (str_size bytes), w)
  | _ => (Throw (filesystem_error path), w)
  end.

(** [sizes(path)]. *)
Definition sizes (fuel : nat) (path : string) : IO N :=
  is_file ← isFile path;
  if (is_file : bool) then fs_file_size path
  else
    is_dir ← isDirectory path;
    if (is_dir : bool) then
      entries ← fs_recursive_directory_iterator fuel path;
      mret (fold_left (fun rslt var => size_t_add rslt (entry_file_size var))
                      entries 0%N)
    else throw (The_specified_path_not_exists path).

(** Run a computation that cannot touch the disk inside [IO]. *)
Definition lift {A} (r : Result A) : IO A := fun w => (r, w).

(** ** [class File] *)

Module File.

Record t : Type := mk { name_ : string; data_ : option string }.

(** [File() = default]. *)
Definition default_ctor : t := mk "" None.

(** [void setName(const String& name) { name_ = name; }] *)
Definition setName (this : t) (name : string) : t := mk name (data_ this).

(** [explicit File(const String& name)]. *)
Definition ctor (name : string) : t := setName default_ctor name.

(** [File(const File& other)]. *)
Definition copy_ctor (other : t) : t :=
  let this := mk (name_ other) None in
  match data_ other with
  | Some s => mk (name_ this) (Some s)
  | None => this
  end.

(** [File(File&& other)]: the new object, and [other] as it is left. *)
Definition move_ctor (other : t) : t * t :=
  (mk (name_ other) (data_ other), mk (name_ other) None).

Definition copy (this : t) : t := copy_ctor this.

Definition name (this : t) : string := name_ this.

Definition data (this : t) : string :=
  match data_ this with Some s => s | None => "" end.

Definition size (this : t) : N :=
  match data_ this with Some s => str_size s | None => 0%N end.

Definition empty (this : t) : bool := N.eqb (size this) 0.

Definition releaseData (this : t) : t :=
  match data_ this with
  | Some _ => mk (name_ this) None
  | None => this
  end.

(** [void write(OStream& os) const]; the stream is given by what [os << s]
    does. *)
Definition write_os {M : Type -> Type} `{MRet M} (put : string -> M unit)
    (this : t) : M unit :=
  match data_ this with
  | Some s => put s
  | None => mret tt
  end.

(** [void write(const String& path, bool isOverwrite)], the open mode left
    at its default [std::ios_base::binary]. *)
Definition write (this : t) (path : string) (isOverwrite : bool) : IO unit :=
  let _path := path +:+ String PREFERRED_PATH_SEPARATOR (name_ this) in
  (* if (!isOverwrite && isFile(_path)) return; *)
  kept ← (if negb isOverwrite then isFile _path else (mret false : IO bool));
  if negb kept then
    is_open ← ofstream_open _path;
    if negb is_open then throw (Failed_to_open_the_file _path)
    else write_os (ofstream_write _path) this
  else mret tt.

(** [File& operator=(const File& other)] when [other] is another object
    than [*this]. *)
Definition assign (this other : t) : t :=
  let this := mk (name_ other) (data_ this) in
  let this := releaseData this in
  match data_ other with
  | Some s => mk (name_ this) (Some s)
  | None => this
  end.

(** The same operator over a store of objects: [this] and [other] are the
    addresses of the two operands, which may be one and the same; every
    read of [other] goes through the store. *)
Definition assign_at (this other : nat) (σ : gmap nat t) : gmap nat t :=
  (* name_ = other.name_; *)
  let σ := match σ !! other with
           | Some o => alter (fun f => mk (name_ o) (data_ f)) this σ
           | None => σ
           end in
  (* releaseData(); *)
  let σ := alter releaseData this σ in
  (* if (other.data_) data_ = new String( *other.data_ ); *)
  match σ !! other with
  | Some o =>
      match data_ o with
      | Some s => alter (fun f => mk (name_ f) (Some s)) this σ
      | None => σ
      end
  | None => σ
  end.

(** [File& operator=(const String& data)]. *)
Definition assign_String (this : t) (data : string) : t :=
  let this := releaseData this in
  mk (name_ this) (Some data).

(** [File& operator<<(const File& other)]. *)
Definition shl_File (this other : t) : t :=
  let this := match data_ this with
              | None => mk (name_ this) (Some "")
              | Some _ => this
              end in
  mk (name_ this) (Some (data this +:+ data other)).

(** [File& operator<<(const String& data)]. *)
Definition shl_String (this : t) (s : string) : t :=
  let this := match data_ this with
              | None => mk (name_ this) (Some "")
              | Some _ => this
              end in
  mk (name_ this) (Some (data this +:+ s)).

(** [template <typename T> File& operator=(const Vec<T>& data)] at
    [T = char]: the bytes are pushed back one by one. *)
Definition assign_Vec (this : t) (v : list ascii) : t :=
  let this := releaseData this in
  let this := mk (name_ this) (Some "") in
  mk (name_ this)
     (Some (fold_left (fun s var => s +:+ String var "") v (data this))).

(** [template <typename T> File& operator<<(const Vec<T>& data)] at
    [T = char]. *)
Definition shl_Vec (this : t) (v : list ascii) : t :=
  let this := match data_ this with
              | None => mk (name_ this) (Some "")
              | Some _ => this
              end in
  mk (name_ this)
     (Some (fold_left (fun s var => s +:+ String var "") v (data this))).

(** [is.read(buffer, n)] on a stream holding the bytes [ins]: whether the
    stream is still good, the bytes read ([gcount] of them), the bytes
    left. *)
Definition istream_read (n : nat) (ins : string) : bool * string * string :=
  if Nat.leb n (String.length ins)
  then (true, str_take n ins, str_drop n ins)
  else (false, ins, "").

(** The loop [while (is.read(buffer, _BUFFER_SIZE)) ...] and the append that
    follows it; [fuel] bounds the number of iterations. *)
Fixpoint read_chunks (fuel : nat) (ins : string) (data : string) : string * string :=
  let '(good, got, rest) := istream_read _BUFFER_SIZE ins in
  match fuel with
  | O => (data +:+ got, rest)
  | S fuel' =>
      if good then read_chunks fuel' rest (data +:+ got)
      else (data +:+ got, rest)
  end.

(** [File& operator<<(IStream& is)]: the outcome, and [*this] and the
    stream as the call leaves them.  [reserve] throws when it is asked for
    more than [max_size()], the sum being one of [size_t].  On a stream that
    has failed no read delivers a byte; on another the loop reads what is
    left from the get position on, one iteration consuming [_BUFFER_SIZE]
    bytes, so that as many iterations as bytes are enough, and ends with the
    stream failed at its end. *)
Definition shl_IStream (this : t) (stm : istream) : Result unit * (t * istream) :=
  (* is.seekg(0, std::ios_base::end); *)
  let stm := seekg seekoff_end stm in
  (* size_t size = is.tellg(); *)
  let size := tellg stm in
  (* is.seekg(0, std::ios_base::beg); *)
  let stm := seekg seekoff_beg stm in
  let this := match data_ this with
              | None => mk (name_ this) (Some "")
              | Some _ => this
              end in
  (* data_->reserve(data_->size() + size); *)
  if N.ltb String_max_size (size_t_add (str_size (data this)) size)
  then (Throw length_error, (this, stm))
  else
    let ins := if is_fail stm then "" else bytes_left stm in
    let '(d, rest) := read_chunks (String.length ins) ins (data this) in
    (Ok tt,
     (mk (name_ this) (Some d),
      mk_istream (is_kind stm) (is_seq stm)
                 (is_gpos stm + (str_size ins - str_size rest))%N true)).

(** [static File fromDiskPath(const String& filename)]. *)
Definition fromDiskPath (filename : string) : IO t :=
  ifs ← ifstream_open filename;
  match ifs with
  | None => throw (Failed_to_open_the_file filename)
  | Some stm =>
      let file := ctor (filenameEx filename) in
      let '(r, (file, _)) := shl_IStream file stm in
      lift r ;; mret file
  end.

End File.

(** ** [class Dir] *)

Module Dir.

Inductive t : Type := mk {
  name_ : string;
  subFiles_ : option (list File.t);
  subDirs_ : option (list t)
}.

(** What dereferencing a pointer gives: the object, or undefined behaviour
    when the pointer is [nullptr]. *)
Inductive Deref (A : Type) : Type :=
  | Object (a : A)
  | UndefinedBehaviour.
Arguments Object {A} a.
Arguments UndefinedBehaviour {A}.

Definition deref {A} (p : option A) : Deref A :=
  match p with Some a => Object a | None => UndefinedBehaviour end.

(** [Dir() = default]. *)
Definition default_ctor : t := mk "" None None.

(** [void setName(const String& name)]. *)
Definition setName (this : t) (name : string) : Result t :=
  if negb (isValidFilename name) then Throw (Invalid_file_name name)
  else Ok (mk name (subFiles_ this) (subDirs_ this)).

(** [explicit Dir(const String& name)]. *)
Definition ctor (name : string) : Result t := setName default_ctor name.

(** [Dir(const Dir& other)]: the vectors are copied element by element. *)
Fixpoint copy_ctor (other : t) : t :=
  let this := mk (name_ other) None None in
  let this :=
    match subFiles_ other with
    | Some fs => mk (name_ this) (Some (map File.copy_ctor fs)) (subDirs_ this)
    | None => this
    end in
  match subDirs_ other with
  | Some ds => mk (name_ this) (subFiles_ this) (Some (map copy_ctor ds))
  | None => this
  end.

(** [Dir(Dir&& other)]: the new object, and [other] as it is left. *)
Definition move_ctor (other : t) : t * t :=
  (mk (name_ other) (subFiles_ other) (subDirs_ other),
   mk (name_ other) None None).

Definition name (this : t) : string := name_ this.

(** [size_t size() const]. *)
Fixpoint size (this : t) : N :=
  let size0 := 0%N in
  let size1 :=
    match subFiles_ this with
    | Some fs => fold_left (fun acc var => size_t_add acc (File.size var)) fs size0
    | None => size0
    end in
  match subDirs_ this with
  | Some ds => fold_left (fun acc var => size_t_add acc (size var)) ds size1
  | None => size1
  end.

(** [size_t fileCount(bool isRecursive = true) const]; the inner call
    [var.fileCount()] takes the default argument. *)
Fixpoint fileCount (isRecursive : bool) (this : t) : N :=
  let cnt := 0%N in
  let cnt :=
    match subFiles_ this with
    | Some fs => size_t_add cnt (vec_size fs)
    | None => cnt
    end in
  match isRecursive, subDirs_ this with
  | true, Some ds => fold_left (fun cnt var => size_t_add cnt (fileCount true var)) ds cnt
  | _, _ => cnt
  end.

(** [size_t dirCount(bool isRecursive = true) const]. *)
Fixpoint dirCount (isRecursive : bool) (this : t) : N :=
  let cnt := 0%N in
  let cnt :=
    match subDirs_ this with
    | Some ds => size_t_add cnt (vec_size ds)
    | None => cnt
    end in
  match isRecursive, subDirs_ this with
  | true, Some ds => fold_left (fun cnt var => size_t_add cnt (dirCount true var)) ds cnt
  | _, _ => cnt
  end.

(** [size_t count(bool isRecursive = true) const]. *)
Definition count (isRecursive : bool) (this : t) : N :=
  size_t_add (fileCount isRecursive this) (dirCount isRecursive this).

Definition empty (this : t) : bool := N.eqb (size this) 0.

(** [size_t hasFile_(const String& name) const]: the first index whose file
    has that name; [None] is [NOF_]. *)
Definition hasFile_ (this : t) (name : string) : option nat :=
  match subFiles_ this with
  | Some fs => fst <$> list_find (fun f => File.name f = name) fs
  | None => None
  end.

(** [size_t hasDir_(const String& name) const]. *)
Definition hasDir_ (this : t) (name : string) : option nat :=
  match subDirs_ this with
  | Some ds => fst <$> list_find (fun d => Dir.name d = name) ds
  | None => None
  end.

(** [bool hasFile(const String& name, bool isRecursive = false) const]. *)
Fixpoint hasFile (name : string) (isRecursive : bool) (this : t) : bool :=
  if hasFile_ this name is Some _ then true
  else
    match isRecursive, subDirs_ this with
    | true, Some ds => existsb (fun var => hasFile name true var) ds
    | _, _ => false
    end.

(** [bool hasDir(const String& name, bool isRecursive = false) const]. *)
Fixpoint hasDir (name : string) (isRecursive : bool) (this : t) : bool :=
  if hasDir_ this name is Some _ then true
  else
    match isRecursive, subDirs_ this with
    | true, Some ds => existsb (fun var => hasDir name true var) ds
    | _, _ => false
    end.

(** [Vec<File>& files() { return *subFiles_; }] *)
Definition files (this : t) : Deref (list File.t) := deref (subFiles_ this).

(** [Vec<Dir>& dirs() { return *subDirs_; }] *)
Definition dirs (this : t) : Deref (list t) := deref (subDirs_ this).

(** [void releaseAllFilesData()]. *)
Fixpoint releaseAllFilesData (this : t) : t :=
  let subFiles' :=
    match subFiles_ this with
    | Some fs => Some (map File.releaseData fs)
    | None => None
    end in
  let subDirs' :=
    match subDirs_ this with
    | Some ds => Some (map releaseAllFilesData ds)
    | None => None
    end in
  mk (name_ this) subFiles' subDirs'.

Definition clearFiles (this : t) : t :=
  match subFiles_ this with
  | Some _ => mk (name_ this) None (subDirs_ this)
  | None => this
  end.

Definition clearDirs (this : t) : t :=
  match subDirs_ this with
  | Some _ => mk (name_ this) (subFiles_ this) None
  | None => this
  end.

Definition clear (this : t) : t := clearDirs (clearFiles this).

(** [Dir& operator=(const Dir& other)] when [other] is another object than
    [*this] and no part of it. *)
Definition assign (this other : t) : t :=
  let this := mk (name_ other) (subFiles_ this) (subDirs_ this) in
  let this := clear this in
  let this :=
    match subFiles_ other with
    | Some fs => mk (name_ this) (Some (map File.copy_ctor fs)) (subDirs_ this)
    | None => this
    end in
  match subDirs_ other with
  | Some ds => mk (name_ this) (subFiles_ this) (Some (map copy_ctor ds))
  | None => this
  end.

(** The same operator over a store of objects, the two operands given by
    their addresses, which may be one and the same. *)
Definition assign_at (this other : nat) (σ : gmap nat t) : gmap nat t :=
  (* name_ = other.name_; *)
  let σ := match σ !! other with
           | Some o => alter (fun d => mk (name_ o) (subFiles_ d) (subDirs_ d)) this σ
           | None => σ
           end in
  (* clear(); *)
  let σ := alter clear this σ in
  (* if (other.subFiles_) subFiles_ = new Vec<File>( *other.subFiles_ ); *)
  let σ := match σ !! other with
           | Some o =>
               match subFiles_ o with
               | Some fs =>
                   alter (fun d => mk (name_ d) (Some (map File.copy_ctor fs)) (subDirs_ d))
                         this σ
               | None => σ
               end
           | None => σ
           end in
  (* if (other.subDirs_) subDirs_ = new Vec<Dir>( *other.subDirs_ ); *)
  match σ !! other with
  | Some o =>
      match subDirs_ o with
      | Some ds =>
          alter (fun d => mk (name_ d) (subFiles_ d) (Some (map copy_ctor ds))) this σ
      | None => σ
      end
  | None => σ
  end.

(** A vector as a store of objects, the element [i] at the address [i],
    and the vector a store gives back. *)
Definition vec_store {A} (v : list A) : gmap nat A := map_seq 0 v.

Definition store_vec {A} (v : list A) (σ : gmap nat A) : list A :=
  imap (fun i a => default a (σ !! i)) v.

(** [void add(File& file, bool isOverwrite = false)] when [file] is an
    object of its own, no part of [*this]: the new [*this], and [file] as
    the call leaves it.  [File] declares no move assignment, so
    [( *subFiles_)[pos] = std::move(file)] selects
    [operator=(const File&)]. *)
Definition add_File (this : t) (file : File.t) (isOverwrite : bool) : t * File.t :=
  let this :=
    match subFiles_ this with
    | None => mk (name_ this) (Some []) (subDirs_ this)
    | Some _ => this
    end in
  let fs := default [] (subFiles_ this) in
  match hasFile_ this (File.name file) with
  | Some pos =>
      if isOverwrite
      then (mk (name_ this)
               (Some (alter (fun elt => File.assign elt file) pos fs))
               (subDirs_ this),
            file)
      else (this, file)
  | None =>
      let '(elt, file) := File.move_ctor file in
      (mk (name_ this) (Some ((fs ++ [elt])%list)) (subDirs_ this), file)
  end.

(** [void add(Dir& dir, bool isOverwrite = false)] when [dir] is an object
    of its own, no part of [*this] and [*this] no part of it, likewise with
    [operator=(const Dir&)]. *)
Definition add_Dir (this : t) (dir : t) (isOverwrite : bool) : t * t :=
  let this :=
    match subDirs_ this with
    | None => mk (name_ this) (subFiles_ this) (Some [])
    | Some _ => this
    end in
  let ds := default [] (subDirs_ this) in
  match hasDir_ this (name dir) with
  | Some pos =>
      if isOverwrite
      then (mk (name_ this) (subFiles_ this)
               (Some (alter (fun elt => assign elt dir) pos ds)),
            dir)
      else (this, dir)
  | None =>
      let '(elt, dir) := move_ctor dir in
      (mk (name_ this) (subFiles_ this) (Some ((ds ++ [elt])%list)), dir)
  end.

(** [add(file, isOverwrite)] when [file] is [( *subFiles_)[i]], an element
    of the vector of [*this] itself, as in [d.add(d.file(x), true)]: the new
    [*this], of which [file] is a part.  The assignment has both its
    operands in the vector, and they are one object when [i] is the
    position found.  An index that names no element is no reference, and
    the call with it is left as changing nothing. *)
Definition add_File_own (this : t) (i : nat) (isOverwrite : bool) : t :=
  let fs := default [] (subFiles_ this) in
  match fs !! i with
  | None => this
  | Some file =>
      match hasFile_ this (File.name file) with
      | Some pos =>
          if isOverwrite
          then mk (name_ this)
                  (Some (store_vec fs (File.assign_at pos i (vec_store fs))))
                  (subDirs_ this)
          else this
      | None =>
          let '(elt, file) := File.move_ctor file in
          mk (name_ this) (Some ((<[i := file]> fs ++ [elt])%list)) (subDirs_ this)
      end
  end.

(** [add(dir, isOverwrite)] when [dir] is [( *subDirs_)[i]], likewise. *)
Definition add_Dir_own (this : t) (i : nat) (isOverwrite : bool) : t :=
  let ds := default [] (subDirs_ this) in
  match ds !! i with
  | None => this
  | Some dir =>
      match hasDir_ this (name dir) with
      | Some pos =>
          if isOverwrite
          then mk (name_ this) (subFiles_ this)
                  (Some (store_vec ds (assign_at pos i (vec_store ds))))
          else this
      | None =>
          let '(elt, dir) := move_ctor dir in
          mk (name_ this) (subFiles_ this) (Some ((<[i := dir]> ds ++ [elt])%list))
      end
  end.

(** [Dir& operator<<(File& file)] and [Dir& operator<<(File&& file)]. *)
Definition shl_File (this : t) (file : File.t) : t * File.t :=
  add_File this file false.

(** [Dir& operator<<(Dir& dir)] and [Dir& operator<<(Dir&& dir)]. *)
Definition shl_Dir (this : t) (dir : t) : t * t := add_Dir this dir false.

(** [File& file(const String& name)]: the new [*this] and the index in
    [*subFiles_] of the file the returned reference names. *)
Definition file (this : t) (name : string) : t * nat :=
  match hasFile_ this name with
  | None =>
      let this := fst (add_File this (File.ctor name) false) in
      (this, pred (length (default [] (subFiles_ this))))
  | Some pos => (this, pos)
  end.

(** [Dir& dir(const String& name)]: the new [*this] and the index in
    [*subDirs_] of the directory the returned reference names. *)
Definition dir (this : t) (name : string) : Result (t * nat) :=
  match hasDir_ this name with
  | None =>
      d ← ctor name;
      let this := fst (add_Dir this d false) in
      mret (this, pred (length (default [] (subDirs_ this))))
  | Some pos => mret (this, pos)
  end.

(** [void removeFile(const String& name)]. *)
Definition removeFile (this : t) (name : string) : t :=
  match hasFile_ this name with
  | None => this
  | Some pos =>
      mk (name_ this) (Some (delete pos (default [] (subFiles_ this)))) (subDirs_ this)
  end.

(** [void removeDir(const String& name)]. *)
Definition removeDir (this : t) (name : string) : t :=
  match hasDir_ this name with
  | None => this
  | Some pos =>
      mk (name_ this) (subFiles_ this) (Some (delete pos (default [] (subDirs_ this))))
  end.

(** [void write(const String& path, bool isOverwrite = false)], the open
    mode left at its default. *)
Fixpoint write (this : t) (path : string) (isOverwrite : bool) : IO unit :=
  let root := path +:+ String PREFERRED_PATH_SEPARATOR (name_ this) in
  createDirectory root ;;
  match subFiles_ this with
  | Some fs => for_each (fun var => File.write var root isOverwrite) fs
  | None => mret tt
  end ;;
  match subDirs_ this with
  | Some ds => for_each (fun var => write var root isOverwrite) ds
  | None => mret tt
  end.

(** [static Dir fromDiskPath(const String& dirpath)].  The recursion follows
    the directories of the disk; [fuel] bounds its depth. *)
Fixpoint fromDiskPath (fuel : nat) (dirpath : string) : IO t :=
  match fuel with
  | O => fun w => (OutOfFuel, w)
  | S fuel' =>
      root ← lift (ctor (filenameEx dirpath));
      dirs ← getAllDirectorys dirpath;
      root ← for_fold (fun root var =>
                         sub ← fromDiskPath fuel' var;
                         mret (fst (shl_Dir root sub)))
                      dirs root;
      files ← getAllFiles dirpath;
      root ← for_fold (fun root var =>
                         f ← File.fromDiskPath var;
                         mret (fst (shl_File root f)))
                      files root;
      mret root
  end.

Definition copy (this : t) : t := copy_ctor this.

End Dir.

(** * Vocabulary of the properties *)

(** The child files and child directories of a node, an unallocated vector
    read as the empty one. *)
Definition child_files (d : Dir.t) : list File.t := default [] (Dir.subFiles_ d).
Definition child_dirs (d : Dir.t) : list Dir.t := default [] (Dir.subDirs_ d).

(** The child file a name denotes: the one [hasFile_] finds. *)
Definition child_file_named (d : Dir.t) (x : string) : option File.t :=
  pos ← Dir.hasFile_ d x; child_files d !! pos.

(** The child directory a name denotes: the one [hasDir_] finds. *)
Definition child_dir_named (d : Dir.t) (x : string) : option Dir.t :=
  pos ← Dir.hasDir_ d x; child_dirs d !! pos.

(** Every directory strictly below a node, parents before children. *)
Fixpoint descendants (d : Dir.t) : list Dir.t :=
  match Dir.subDirs_ d with
  | Some ds => flat_map (fun c => c :: descendants c) ds
  | None => []
  end.

(** Every file at or below a node. *)
Definition files_below (d : Dir.t) : list File.t :=
  flat_map child_files (d :: descendants d).

(** The number of objects of a tree.  Each occupies memory of its own, so
    for a tree held by a running program this number is below [2^64]. *)
Definition objects (d : Dir.t) : N :=
  (1 + vec_size (files_below d) + vec_size (descendants d))%N.

Definition in_memory (d : Dir.t) : Prop := (objects d < SIZE_MAX_succ)%N.

(** The sum of a list of numbers, without wrap-around. *)
Definition sumN (l : list N) : N := fold_right N.add 0%N l.

(** The names of a tree: its own, those of its files, and the shapes of its
    directories, all in order. *)
Inductive Shape : Type :=
  | ShapeDir (name : string) (files : list string) (dirs : list Shape).

Fixpoint shape (d : Dir.t) : Shape :=
  ShapeDir (Dir.name_ d)
           (map File.name (default [] (Dir.subFiles_ d)))
           (match Dir.subDirs_ d with
            | Some ds => map shape ds
            | None => []
            end).

(** A property of every directory of a tree, the root included. *)
Definition every_dir (P : Dir.t -> Prop) (d : Dir.t) : Prop :=
  Forall P (d :: descendants d).

(** A name that is a valid file name and holds no NUL byte, so that it
    reaches the file system whole. *)
Definition portable (name : string) : Prop :=
  isValidFilename name = true /\ FS.c_str name = name.

(** Every file and every directory of the tree has a portable name. *)
Definition well_named (d : Dir.t) : Prop :=
  every_dir (fun δ => portable (Dir.name δ) /\
                      Forall (fun f => portable (File.name f)) (child_files δ)) d.

(** In every directory of the tree no two children share a name, whatever
    their kinds. *)
Definition distinct_names (d : Dir.t) : Prop :=
  every_dir (fun δ => NoDup (map File.name (child_files δ) ++
                             map Dir.name (child_dirs δ))) d.

(** Every file of the tree has a payload, possibly the empty string. *)
Definition payloads_present (d : Dir.t) : Prop :=
  Forall (fun f => is_Some (File.data_ f)) (files_below d).

(** Every file and every directory of the tree has a name of at most
    [NAME_MAX] bytes. *)
Definition short_names (d : Dir.t) : Prop :=
  every_dir (fun δ => String.length (Dir.name δ) <= FS.NAME_MAX /\
                      Forall (fun f => String.length (File.name f) <= FS.NAME_MAX)
                             (child_files δ)) d.

(** Every payload of the tree is a string a program can hold: of at most
    [max_size()] bytes. *)
Definition payloads_fit (d : Dir.t) : Prop :=
  Forall (fun f => (File.size f <= String_max_size)%N) (files_below d).

(** The length of the longest path of the tree, counted from the place the
    tree is written to: every level adds a separator and a name. *)
Fixpoint longest_path (d : Dir.t) : nat :=
  S (String.length (Dir.name_ d)) +
  Nat.max (list_max (map (fun f => S (String.length (File.name f)))
                         (default [] (Dir.subFiles_ d))))
          (match Dir.subDirs_ d with
           | Some ds => list_max (map longest_path ds)
           | None => 0
           end).

(** The number of levels of a tree: what [fromDiskPath] needs as fuel to
    read it back. *)
Fixpoint depth (d : Dir.t) : nat :=
  match Dir.subDirs_ d with
  | Some ds => S (list_max (map depth ds))
  | None => 1
  end.

(** The directory a tree is on the disk once written to a fresh place: an
    entry for each child file, then one for each child directory. *)
Definition file_entry (f : File.t) : string * FS.Node :=
  (File.name f, FS.RegularFile (File.data f)).

Fixpoint image (d : Dir.t) : FS.Node :=
  FS.Directory
    (map file_entry (default [] (Dir.subFiles_ d)) ++
     match Dir.subDirs_ d with
     | Some ds => map (fun c => (Dir.name c, image c)) ds
     | None => []
     end).

Definition dir_entry (c : Dir.t) : string * FS.Node := (Dir.name c, image c).

(** Two trees that differ at most in the order of the children of their
    directories: the same name, the same child files (names and payloads),
    and child directories that correspond one to one. *)
Inductive same_tree : Dir.t -> Dir.t -> Prop :=
  | same_tree_intro (d d' : Dir.t) (ds : list Dir.t) :
      Dir.name d = Dir.name d' ->
      child_files d ≡ₚ child_files d' ->
      child_dirs d ≡ₚ ds ->
      Forall2 same_tree ds (child_dirs d') ->
      same_tree d d'.

(** The requests [File::write] may make to the file system for a file [f]
    under the directory [root]: none, which only happens without overwrite
    (the file on the disk is kept), or the opening of [root/name] followed
    by the payload, if there is one. *)
Inductive file_requests (root : string) (isOverwrite : bool) (f : File.t)
  : list FS.Event -> Prop :=
  | file_kept :
      isOverwrite = false -> file_requests root isOverwrite f []
  | file_written :
      file_requests root isOverwrite f
        (FS.EvOpenForWriting (pathcat root (File.name f)) ::
         match File.data_ f with
         | Some s => [FS.EvWrite (pathcat root (File.name f)) s]
         | None => []
         end).

(** The requests of a successful [Dir::write], in order: the creation of
    [path/name], then the requests for each child file in the order of the
    vector, then those of each child directory, likewise, written under
    [path/name] with the same flag. *)
Inductive dir_requests : string -> bool -> Dir.t -> list FS.Event -> Prop :=
  | dir_requests_intro (path : string) (isOverwrite : bool) (d : Dir.t)
      (Fs Ds : list (list FS.Event)) :
      Forall2 (file_requests (pathcat path (Dir.name d)) isOverwrite)
              (child_files d) Fs ->
      Forall2 (dir_requests (pathcat path (Dir.name d)) isOverwrite)
              (child_dirs d) Ds ->
      dir_requests path isOverwrite d
        (FS.EvCreateDirectory (pathcat path (Dir.name d)) :: concat Fs ++ concat Ds).

(** The requests of [File::write] when it opens the file, and those of a
    [Dir::write] that [keep]s every file or opens every file. *)
Definition file_events (root : string) (f : File.t) : list FS.Event :=
  FS.EvOpenForWriting (pathcat root (File.name f)) ::
  match File.data_ f with
  | Some s => [FS.EvWrite (pathcat root (File.name f)) s]
  | None => []
  end.

Fixpoint dir_events (keep : bool) (path : string) (d : Dir.t) : list FS.Event :=
  let root := pathcat path (Dir.name_ d) in
  (FS.EvCreateDirectory root ::
   (if keep then [] else flat_map (file_events root) (default [] (Dir.subFiles_ d))) ++
   match Dir.subDirs_ d with
   | Some ds => flat_map (dir_events keep root) ds
   | None => []
   end)%list.

(** The paths of the files and of the directories of a tree that is on the
    disk at [root], [root] being the path of the tree itself. *)
Fixpoint file_paths (root : string) (d : Dir.t) : list string :=
  (map (fun f => pathcat root (File.name f)) (default [] (Dir.subFiles_ d)) ++
   match Dir.subDirs_ d with
   | Some ds => flat_map (fun c => file_paths (pathcat root (Dir.name c)) c) ds
   | None => []
   end)%list.

Fixpoint dir_paths (root : string) (d : Dir.t) : list string :=
  match Dir.subDirs_ d with
  | Some ds =>
      flat_map (fun c => pathcat root (Dir.name c) ::
                         dir_paths (pathcat root (Dir.name c)) c) ds
  | None => []
  end.

(** The number of levels of directories of a node of the disk: what a
    recursive listing needs as fuel. *)
Fixpoint node_height (n : FS.Node) : nat :=
  match n with
  | FS.RegularFile _ => 0
  | FS.Directory es => S (list_max (map (fun e => node_height (snd e)) es))
  end.

(** Every entry below a directory of the disk with its path, a directory
    before what it holds, in the order in which the disk stores them. *)
Fixpoint entries_below (path : string) (n : FS.Node) : list (string * FS.Node) :=
  match n with
  | FS.RegularFile _ => []
  | FS.Directory es =>
      flat_map (fun e => (FS.path_slash path (fst e), snd e) ::
                         entries_below (FS.path_slash path (fst e)) (snd e)) es
  end.

(** What a listing makes of the entries its iterator reports, in the world
    [w] it leaves as it found it. *)
Definition listed (w : FS.World) {A} (f : list (string * FS.Node) -> A)
    (r : Result (list (string * FS.Node)) * FS.World) : Result A * FS.World :=
  match fst r with
  | Ok entries => (Ok (f entries), w)
  | Throw e => (Throw e, w)
  | OutOfFuel => (OutOfFuel, w)
  end.

(** A node of the disk in which, at every level, the entries of a
    directory have portable names of at most [NAME_MAX] bytes and no two of
    them the same name, and in which every file has at most as many bytes as
    a string can hold. *)
Fixpoint wf_node (n : FS.Node) : Prop :=
  match n with
  | FS.RegularFile bytes => (str_size bytes <= String_max_size)%N
  | FS.Directory es =>
      NoDup (map fst es) /\
      fold_right (fun e rest => (portable (fst e) /\
                                 String.length (fst e) <= FS.NAME_MAX) /\
                                wf_node (snd e) /\ rest) True es
  end.

(** The length of the longest path below a node of the disk, counted from
    that node. *)
Fixpoint node_longest_path (n : FS.Node) : nat :=
  match n with
  | FS.RegularFile _ => 0
  | FS.Directory es =>
      list_max (map (fun e => S (String.length (fst e)) + node_longest_path (snd e)) es)
  end.

(** Every place that is a directory in the disk [D] is one in [D']. *)
Definition keeps_directories (D D' : FS.Node) : Prop :=
  forall q es, FS.lookup q D = Some (FS.Directory es) ->
               exists es', FS.lookup q D' = Some (FS.Directory es').

(** Two nodes of the disk that differ at most in the order of the entries
    of their directories. *)
Inductive same_node : FS.Node -> FS.Node -> Prop :=
  | same_file (bytes : string) :
      same_node (FS.RegularFile bytes) (FS.RegularFile bytes)
  | same_dir (es es' σ : list (string * FS.Node)) :
      es' ≡ₚ σ ->
      Forall2 (fun e e' => fst e = fst e' /\ same_node (snd e) (snd e')) es σ ->
      same_node (FS.Directory es) (FS.Directory es').

(** The file [File::fromDiskPath] makes of an entry of the disk that is a
    regular file. *)
Definition entry_file (e : string * FS.Node) : File.t :=
  File.mk (fst e)
          (Some (match snd e with FS.RegularFile bytes => bytes | FS.Directory _ => "" end)).

(** Formats.  A piece of a format that holds no placeholder is a sequence
    of literal texts free of opening braces, separated by the escape:
    [escaped ls] is the piece as written in the format, [unescaped ls] the
    text it stands for. *)
Definition brace_free (s : string) : Prop := str_mem "{" s = false.

Definition escaped (ls : list string) : string := String.concat "{{}}" ls.
Definition unescaped (ls : list string) : string := String.concat "{}" ls.

(** The format made of the pieces [lss], each followed by a placeholder,
    and then of [post]. *)
Fixpoint format_of (lss : list (list string)) (post : string) : string :=
  match lss with
  | [] => post
  | ls :: lss' => escaped ls +:+ "{}" +:+ format_of lss' post
  end.

(** The same with the arguments [args] in the place of the first
    placeholders, in order, and the pieces before them unescaped; what
    follows the last argument is as written. *)
Fixpoint filled (lss : list (list string)) (args : list string) (post : string)
  : string :=
  match lss, args with
  | ls :: lss', a :: args' => unescaped ls +:+ a +:+ filled lss' args' post
  | _, _ => format_of lss post
  end.

(** Induction on a tree with the hypothesis available for every child
    directory. *)
Definition Dir_rect' (P : Dir.t -> Type)
    (Q : list Dir.t -> Type)
    (Qnil : Q [])
    (Qcons : forall c l, P c -> Q l -> Q (c :: l))
    (step : forall n fs ods,
        match ods with Some l => Q l | None => unit end ->
        P (Dir.mk n fs ods)) : forall d, P d :=
  fix F (d : Dir.t) : P d :=
    match d with
    | Dir.mk n fs ods =>
        step n fs ods
          (match ods return match ods with Some l => Q l | None => unit end with
           | Some l =>
               (fix G (l : list Dir.t) : Q l :=
                  match l with
                  | [] => Qnil
                  | c :: l' => Qcons c l' (F c) (G l')
                  end) l
           | None => tt
           end)
    end.

(** * Properties *)

Lemma Dir_ind' (P : Dir.t -> Prop) :
  (forall n fs ods, Forall P (default [] ods) -> P (Dir.mk n fs ods)) ->
  forall d, P d.
Proof.
  intros step.
  apply (Dir_rect' P (Forall P)); [constructor | by constructor |].
  intros n fs [l|] H; apply step; simpl; [exact H | constructor].
Qed.

(** ** Names *)

Lemma find_first_of_from_None pos s chars :
  find_first_of_from pos s chars = None <->
  forall c, str_mem c s = true -> str_mem c chars = false.
Proof.
  revert pos. induction s as [|a s IH]; intros pos; simpl.
  - split; [intros _ c Hc; discriminate | reflexivity].
  - destruct (str_mem a chars) eqn:Ha.
    + split; [discriminate |].
      intros H. specialize (H a). rewrite Ascii.eqb_refl in H.
      specialize (H eq_refl). congruence.
    + rewrite IH. split; intros H c.
      * destruct (Ascii.eqb c a) eqn:E; [| apply H].
        apply Ascii.eqb_eq in E. by subst.
      * intros Hc. apply H. by rewrite Hc, Tauto.if_same.
Qed.

Lemma find_first_of_from_Some pos s chars i :
  find_first_of_from pos s chars = Some i ->
  exists c, str_mem c chars = true /\ str_mem c s = true.
Proof.
  revert pos. induction s as [|a s IH]; intros pos; simpl; [discriminate |].
  destruct (str_mem a chars) eqn:Ha.
  - intros _. exists a. by rewrite Ascii.eqb_refl.
  - intros H. destruct (IH _ H) as [c [Hc1 Hc2]].
    exists c. split; [exact Hc1 |]. by rewrite Hc2, Tauto.if_same.
Qed.

(** [isValidFilename] rejects exactly the empty name, [.], [..] and the
    names holding one of the nine reserved characters. *)
Lemma isValidFilename_false n :
  isValidFilename n = false <->
  n = "" \/ n = "." \/ n = ".." \/
  exists c, str_mem c FILENAME_INVALID_CHARS = true /\ str_mem c n = true.
Proof.
  unfold isValidFilename, find_first_of.
  destruct (String.eqb_spec n "") as [->|Hne]; [naive_solver |].
  destruct (String.eqb_spec n ".") as [->|Hn1]; [naive_solver |].
  destruct (String.eqb_spec n "..") as [->|Hn2]; [naive_solver |].
  cbn [orb].
  destruct (find_first_of_from 0 n FILENAME_INVALID_CHARS) eqn:E.
  - split; [intros _ | reflexivity].
    do 3 right. eapply find_first_of_from_Some, E.
  - split; [discriminate |].
    intros [?|[?|[?|[c [Hc1 Hc2]]]]]; try contradiction.
    pose proof (proj1 (find_first_of_from_None _ _ _) E c Hc2). congruence.
Qed.

(** The reserved characters are the nine the documentation lists. *)
Lemma reserved_characters c :
  str_mem c FILENAME_INVALID_CHARS = true <->
  In c ["\"; "/"; ":"; "*"; "?"; dquote; "<"; ">"; "|"]%char.
Proof.
  let chars := eval vm_compute in FILENAME_INVALID_CHARS in
  change FILENAME_INVALID_CHARS with chars.
  cbn [str_mem In]. split.
  - intros H.
    repeat match type of H with
           | context [Ascii.eqb c ?a] =>
               destruct (Ascii.eqb c a) eqn:E;
                 [apply Ascii.eqb_eq in E; rewrite E; auto 15 | clear E]
           end.
    discriminate.
  - intros H. decompose [or] H; subst; try reflexivity. contradiction.
Qed.

Lemma Dir_setName_valid d n :
  isValidFilename n = true ->
  Dir.setName d n = Ok (Dir.mk n (Dir.subFiles_ d) (Dir.subDirs_ d)).
Proof. unfold Dir.setName. by intros ->. Qed.

Lemma Dir_setName_invalid d n :
  isValidFilename n = false -> Dir.setName d n = Throw (Invalid_file_name n).
Proof. unfold Dir.setName. by intros ->. Qed.

(** X1.  [Dir::setName] validates: it throws the invalid-name exception
    exactly for the empty name, [.], [..] and the names holding one of the
    nine reserved characters, and otherwise stores the name and changes
    nothing else. *)
Theorem Dir_setName_validates (d : Dir.t) (n : string) :
  let invalid :=
    n = "" \/ n = "." \/ n = ".." \/
    exists c, In c ["\"; "/"; ":"; "*"; "?"; dquote; "<"; ">"; "|"]%char /\
              str_mem c n = true in
  (invalid /\ Dir.setName d n = Throw (Invalid_file_name n)) \/
  (~ invalid /\
   Dir.setName d n = Ok (Dir.mk n (Dir.subFiles_ d) (Dir.subDirs_ d))).
Proof.
  intros invalid.
  assert (Hinv : isValidFilename n = false <-> invalid).
  { rewrite isValidFilename_false. unfold invalid.
    do 3 apply or_iff_compat_l.
    split; intros [c [H1 H2]]; exists c; split; try done;
      by apply reserved_characters. }
  destruct (isValidFilename n) eqn:E.
  - right. split; [| by apply Dir_setName_valid].
    intros H. apply Hinv in H. discriminate.
  - left. split; [by apply Hinv | by apply Dir_setName_invalid].
Qed.

(** C1 (the code departs from the claim).  [File::setName] stores every
    string, the invalid ones included, and cannot fail: after
    [setName(n)] the name is [n] and the payload is untouched, also for the
    empty name, which [isValidFilename] rejects and which [Dir::setName]
    refuses with the invalid-name exception. *)
Theorem File_setName_never_fails :
  (forall f n, File.name (File.setName f n) = n /\
               File.data_ (File.setName f n) = File.data_ f) /\
  isValidFilename "" = false /\
  File.name (File.setName (File.ctor "a.txt") "") = "" /\
  File.name (File.ctor "a/b") = "a/b" /\
  (forall d, Dir.setName d "" = Throw (Invalid_file_name "")).
Proof. repeat split. Qed.

(** ** Copies and assignments *)

Lemma File_copy_ctor_id f : File.copy_ctor f = f.
Proof. by destruct f as [n [s|]]. Qed.

Lemma File_assign_eq this other : File.assign this other = other.
Proof. by destruct this as [n [s|]], other as [m [r|]]. Qed.

Lemma map_id_Forall {A} (f : A -> A) (l : list A) :
  Forall (fun x => f x = x) l -> map f l = l.
Proof. induction 1; simpl; congruence. Qed.

Lemma Dir_copy_ctor_id d : Dir.copy_ctor d = d.
Proof.
  induction d as [n fs ods IH] using Dir_ind'.
  destruct fs as [fs|], ods as [ds|]; simpl in *;
    rewrite ?(map_id_Forall _ _ IH);
    rewrite ?(map_id_Forall File.copy_ctor fs); try reflexivity;
    apply Forall_forall; intros; apply File_copy_ctor_id.
Qed.

Lemma Dir_assign_eq this other : Dir.assign this other = other.
Proof.
  destruct this as [n fs ds], other as [m gs es].
  unfold Dir.assign, Dir.clear, Dir.clearFiles, Dir.clearDirs.
  destruct fs, ds, gs as [gs|], es as [es|]; simpl;
    rewrite ?(map_id_Forall Dir.copy_ctor es);
    rewrite ?(map_id_Forall File.copy_ctor gs); try reflexivity;
    apply Forall_forall; intros; first [apply Dir_copy_ctor_id | apply File_copy_ctor_id].
Qed.

(** Over a store, assignment between two distinct objects is the
    assignment of values. *)
Lemma File_assign_at_ne (σ : gmap nat File.t) this other a b :
  this ≠ other -> σ !! this = Some a -> σ !! other = Some b ->
  File.assign_at this other σ = <[this := File.assign a b]> σ.
Proof.
  intros Hne Ha Hb. unfold File.assign_at.
  rewrite Hb. rewrite !lookup_alter_ne, Hb by done.
  rewrite File_assign_eq.
  apply map_eq; intros i. destruct (decide (i = this)) as [->|Hi].
  - rewrite lookup_insert_eq.
    destruct b as [m [r|]]; simpl;
      rewrite ?lookup_alter_eq, Ha; simpl; by destruct a as [? []].
  - rewrite lookup_insert_ne by done.
    destruct b as [m [r|]]; simpl; by rewrite !lookup_alter_ne.
Qed.

Lemma Dir_assign_at_ne (σ : gmap nat Dir.t) this other a b :
  this ≠ other -> σ !! this = Some a -> σ !! other = Some b ->
  Dir.assign_at this other σ = <[this := Dir.assign a b]> σ.
Proof.
  intros Hne Ha Hb. unfold Dir.assign_at.
  rewrite Hb. rewrite !lookup_alter_ne, Hb by done.
  apply map_eq; intros i. destruct (decide (i = this)) as [->|Hi].
  - rewrite lookup_insert_eq.
    destruct b as [m [gs|] [es|]]; simpl;
      rewrite ?lookup_alter_ne, ?Hb by done; simpl;
      rewrite ?lookup_alter_eq, Ha; simpl;
      by destruct a as [? [] []].
  - rewrite lookup_insert_ne by done.
    destruct b as [m [gs|] [es|]]; simpl;
      rewrite ?lookup_alter_ne, ?Hb by done; simpl;
      by rewrite !lookup_alter_ne.
Qed.

(** C10.  Assigning an object to itself empties it.  A file with a payload
    is left without one, so that [data()] is the empty string and [size()]
    is zero, its name kept; a directory is left with neither child files nor
    child directories. *)
Theorem self_assignment_empties_the_node :
  (forall (σ : gmap nat File.t) (l : nat) (f : File.t) (p : string),
      σ !! l = Some f -> File.data_ f = Some p ->
      exists f', File.assign_at l l σ !! l = Some f' /\
                 File.name f' = File.name f /\
                 File.data_ f' = None /\
                 File.data f' = "" /\
                 File.size f' = 0%N) /\
  (forall (σ : gmap nat Dir.t) (l : nat) (d : Dir.t),
      σ !! l = Some d ->
      Dir.assign_at l l σ !! l = Some (Dir.mk (Dir.name d) None None)).
Proof.
  split.
  - intros σ l [n d] p Hl Hd. simpl in Hd. subst d.
    exists (File.mk n None). unfold File.assign_at.
    rewrite Hl. simpl.
    rewrite !lookup_alter_eq, Hl. simpl.
    rewrite !lookup_alter_eq, Hl. simpl. done.
  - intros σ l [n fs ds] Hl. unfold Dir.assign_at.
    rewrite Hl. simpl.
    rewrite !lookup_alter_eq, Hl. simpl.
    destruct fs, ds; simpl; rewrite ?lookup_alter_eq, ?Hl; simpl;
      rewrite ?lookup_alter_eq, ?Hl; done.
Qed.

Lemma self_assignment_empties_the_node_witness :
  (exists f', File.assign_at 0 0 {[ 0 := File.mk "a.txt" (Some "hi") ]} !! 0 = Some f' /\
              File.name f' = "a.txt" /\ File.data_ f' = None /\
              File.data f' = "" /\ File.size f' = 0%N) /\
  Dir.assign_at 0 0
    {[ 0 := Dir.mk "d" (Some [File.mk "a.txt" (Some "hi")]) (Some [Dir.mk "e" None None]) ]}
    !! 0 = Some (Dir.mk "d" None None).
Proof.
  split.
  - apply (proj1 self_assignment_empties_the_node _ 0 (File.mk "a.txt" (Some "hi")) "hi");
      [apply lookup_singleton_eq | reflexivity].
  - apply (proj2 self_assignment_empties_the_node _ 0
             (Dir.mk "d" (Some [File.mk "a.txt" (Some "hi")]) (Some [Dir.mk "e" None None]))).
    apply lookup_singleton_eq.
Defined.

(** ** Lookup of a child by name *)

Lemma hasFile__Some d x pos :
  Dir.hasFile_ d x = Some pos <->
  exists fs c, Dir.subFiles_ d = Some fs /\ fs !! pos = Some c /\ File.name c = x /\
               forall j y, fs !! j = Some y -> j < pos -> File.name y ≠ x.
Proof.
  unfold Dir.hasFile_. destruct (Dir.subFiles_ d) as [fs|].
  - rewrite fmap_Some. split.
    + intros [[i c] [Hfind ->]]. apply list_find_Some in Hfind.
      exists fs, c. naive_solver.
    + intros (fs' & c & [= <-] & H1 & H2 & H3).
      exists (pos, c). split; [| done]. apply list_find_Some. naive_solver.
  - split; [discriminate | naive_solver].
Qed.

Lemma hasFile__None d x :
  Dir.hasFile_ d x = None <-> Forall (fun f => File.name f ≠ x) (child_files d).
Proof.
  unfold Dir.hasFile_, child_files. destruct (Dir.subFiles_ d) as [fs|]; simpl.
  - by rewrite fmap_None, list_find_None.
  - split; [constructor | done].
Qed.

Lemma hasDir__Some d x pos :
  Dir.hasDir_ d x = Some pos <->
  exists ds c, Dir.subDirs_ d = Some ds /\ ds !! pos = Some c /\ Dir.name c = x /\
               forall j y, ds !! j = Some y -> j < pos -> Dir.name y ≠ x.
Proof.
  unfold Dir.hasDir_. destruct (Dir.subDirs_ d) as [ds|].
  - rewrite fmap_Some. split.
    + intros [[i c] [Hfind ->]]. apply list_find_Some in Hfind.
      exists ds, c. naive_solver.
    + intros (ds' & c & [= <-] & H1 & H2 & H3).
      exists (pos, c). split; [| done]. apply list_find_Some. naive_solver.
  - split; [discriminate | naive_solver].
Qed.

Lemma hasDir__None d x :
  Dir.hasDir_ d x = None <-> Forall (fun c => Dir.name c ≠ x) (child_dirs d).
Proof.
  unfold Dir.hasDir_, child_dirs. destruct (Dir.subDirs_ d) as [ds|]; simpl.
  - by rewrite fmap_None, list_find_None.
  - split; [constructor | done].
Qed.

(** ** Insertion *)

Lemma add_File_absent d n ow :
  Dir.hasFile_ d (File.name n) = None ->
  Dir.add_File d n ow =
    (Dir.mk (Dir.name_ d) (Some (child_files d ++ [n])%list) (Dir.subDirs_ d),
     File.mk (File.name n) None).
Proof.
  intros H. unfold Dir.add_File, child_files.
  destruct d as [nm [fs|] ds]; simpl in *.
  - unfold Dir.hasFile_ in *. simpl in *. rewrite H. by destruct n.
  - by destruct n.
Qed.

Lemma add_File_present_keep d n pos :
  Dir.hasFile_ d (File.name n) = Some pos -> Dir.add_File d n false = (d, n).
Proof.
  intros H. unfold Dir.add_File.
  destruct d as [nm [fs|] ds]; [| discriminate]. simpl. by rewrite H.
Qed.

Lemma add_File_present_overwrite d n pos :
  Dir.hasFile_ d (File.name n) = Some pos ->
  Dir.add_File d n true =
    (Dir.mk (Dir.name_ d) (Some (<[pos := n]> (child_files d))) (Dir.subDirs_ d), n).
Proof.
  intros H. unfold Dir.add_File, child_files.
  destruct d as [nm [fs|] ds]; [| discriminate]. simpl. rewrite H.
  do 3 f_equal. apply list_eq; intros i.
  destruct (decide (i = pos)) as [->|Hi].
  - rewrite list_lookup_alter_eq.
    destruct (fs !! pos) eqn:E; simpl.
    + rewrite list_lookup_insert_eq by (by eapply lookup_lt_Some).
      by rewrite File_assign_eq.
    + rewrite list_insert_ge by (by apply lookup_ge_None). by rewrite E.
  - by rewrite list_lookup_alter_ne, list_lookup_insert_ne.
Qed.

Lemma add_Dir_absent d n ow :
  Dir.hasDir_ d (Dir.name n) = None ->
  Dir.add_Dir d n ow =
    (Dir.mk (Dir.name_ d) (Dir.subFiles_ d) (Some (child_dirs d ++ [n])%list),
     Dir.mk (Dir.name n) None None).
Proof.
  intros H. unfold Dir.add_Dir, child_dirs.
  destruct d as [nm fs [ds|]]; simpl in *.
  - unfold Dir.hasDir_ in *. simpl in *. rewrite H. by destruct n.
  - by destruct n.
Qed.

Lemma add_Dir_present_keep d n pos :
  Dir.hasDir_ d (Dir.name n) = Some pos -> Dir.add_Dir d n false = (d, n).
Proof.
  intros H. unfold Dir.add_Dir.
  destruct d as [nm fs [ds|]]; [| discriminate]. simpl. by rewrite H.
Qed.

(** C3 as stated fails: with a child of the same name present and
    [overwrite] false the call changes nothing, the node handed in
    included, which keeps its payload. *)
Lemma insert_can_leave_the_node_intact :
  ~ (forall (d : Dir.t) (n : File.t) (ow : bool),
        File.data_ (snd (Dir.add_File d n ow)) = None).
Proof.
  intros H.
  specialize (H (Dir.mk "d" (Some [File.mk "a.txt" (Some "old")]) None)
                (File.mk "a.txt" (Some "new")) false).
  vm_compute in H. discriminate.
Qed.

(** C3, amended.  When no child of the same kind has the node's name, the
    node is appended and the caller's node is left moved-from: its payload,
    respectively its two child collections, are gone and its name is kept.
    When such a child exists and [overwrite] is false, the call changes
    neither the directory nor the caller's node. *)
Theorem insert_consumes_the_node_when_appended :
  (forall d n ow,
      Dir.hasFile_ d (File.name n) = None ->
      Dir.add_File d n ow =
        (Dir.mk (Dir.name_ d) (Some (child_files d ++ [n])%list) (Dir.subDirs_ d),
         File.mk (File.name n) None)) /\
  (forall d n pos,
      Dir.hasFile_ d (File.name n) = Some pos ->
      Dir.add_File d n false = (d, n)) /\
  (forall d n ow,
      Dir.hasDir_ d (Dir.name n) = None ->
      Dir.add_Dir d n ow =
        (Dir.mk (Dir.name_ d) (Dir.subFiles_ d) (Some (child_dirs d ++ [n])%list),
         Dir.mk (Dir.name n) None None)) /\
  (forall d n pos,
      Dir.hasDir_ d (Dir.name n) = Some pos ->
      Dir.add_Dir d n false = (d, n)).
Proof.
  split; [exact add_File_absent |].
  split; [exact add_File_present_keep |].
  split; [exact add_Dir_absent | exact add_Dir_present_keep].
Qed.

Lemma insert_consumes_the_node_when_appended_witness :
  let d := Dir.mk "d" (Some [File.mk "a.txt" (Some "old")])
                  (Some [Dir.mk "sub" (Some [File.mk "x" None]) None]) in
  Dir.add_File d (File.mk "b.txt" (Some "new")) true =
    (Dir.mk "d" (Some [File.mk "a.txt" (Some "old"); File.mk "b.txt" (Some "new")])
            (Some [Dir.mk "sub" (Some [File.mk "x" None]) None]),
     File.mk "b.txt" None) /\
  Dir.add_File d (File.mk "a.txt" (Some "new")) false = (d, File.mk "a.txt" (Some "new")) /\
  Dir.add_Dir d (Dir.mk "top" (Some [File.mk "y" (Some "z")]) None) false =
    (Dir.mk "d" (Some [File.mk "a.txt" (Some "old")])
            (Some [Dir.mk "sub" (Some [File.mk "x" None]) None;
                   Dir.mk "top" (Some [File.mk "y" (Some "z")]) None]),
     Dir.mk "top" None None) /\
  Dir.add_Dir d (Dir.mk "sub" None None) false = (d, Dir.mk "sub" None None).
Proof.
  destruct insert_consumes_the_node_when_appended as (H1 & H2 & H3 & H4).
  intros d. split; [| split; [| split]].
  - apply (H1 d (File.mk "b.txt" (Some "new")) true). reflexivity.
  - apply (H2 d (File.mk "a.txt" (Some "new")) 0). reflexivity.
  - apply (H3 d (Dir.mk "top" (Some [File.mk "y" (Some "z")]) None) false). reflexivity.
  - apply (H4 d (Dir.mk "sub" None None) 0). reflexivity.
Defined.


Lemma add_Dir_present_overwrite d n pos :
  Dir.hasDir_ d (Dir.name n) = Some pos ->
  Dir.add_Dir d n true =
    (Dir.mk (Dir.name_ d) (Dir.subFiles_ d) (Some (<[pos := n]> (child_dirs d))), n).
Proof.
  intros H. unfold Dir.add_Dir, child_dirs.
  destruct d as [nm fs [ds|]]; [| discriminate]. simpl. rewrite H.
  do 3 f_equal. apply list_eq; intros i.
  destruct (decide (i = pos)) as [->|Hi].
  - rewrite list_lookup_alter_eq.
    destruct (ds !! pos) eqn:E; simpl.
    + rewrite list_lookup_insert_eq by (by eapply lookup_lt_Some).
      by rewrite Dir_assign_eq.
    + rewrite list_insert_ge by (by apply lookup_ge_None). by rewrite E.
  - by rewrite list_lookup_alter_ne, list_lookup_insert_ne.
Qed.

(** *** A child inserted into its own directory *)

Lemma vec_store_lookup {A} (v : list A) i : Dir.vec_store v !! i = v !! i.
Proof. unfold Dir.vec_store. by rewrite lookup_map_seq_0. Qed.

Lemma store_vec_insert {A} (v : list A) i x :
  Dir.store_vec v (<[i := x]> (Dir.vec_store v)) = <[i := x]> v.
Proof.
  unfold Dir.store_vec. apply list_eq; intros j.
  rewrite list_lookup_imap. destruct (v !! j) as [a|] eqn:E; simpl.
  - destruct (decide (j = i)) as [->|Hne].
    + rewrite lookup_insert_eq. simpl.
      by rewrite list_lookup_insert_eq by (by eapply lookup_lt_Some).
    + rewrite lookup_insert_ne by done. rewrite vec_store_lookup, E. simpl.
      by rewrite list_lookup_insert_ne, E.
  - symmetry. apply lookup_ge_None. rewrite length_insert. by apply lookup_ge_None.
Qed.

Lemma File_assign_at_self (σ : gmap nat File.t) l f :
  σ !! l = Some f -> File.assign_at l l σ = <[l := File.mk (File.name f) None]> σ.
Proof.
  intros Hl. unfold File.assign_at. rewrite Hl. cbv zeta.
  rewrite !lookup_alter_eq, Hl. simpl.
  assert (Hrel : File.releaseData (File.mk (File.name_ f) (File.data_ f)) =
                 File.mk (File.name f) None)
    by (by destruct f as [n [s|]]).
  rewrite Hrel. simpl.
  apply map_eq; intros i. destruct (decide (i = l)) as [->|Hi].
  - by rewrite lookup_insert_eq, !lookup_alter_eq, Hl; simpl; rewrite Hrel.
  - by rewrite lookup_insert_ne, !lookup_alter_ne.
Qed.

Lemma Dir_assign_at_self (σ : gmap nat Dir.t) l d :
  σ !! l = Some d -> Dir.assign_at l l σ = <[l := Dir.mk (Dir.name d) None None]> σ.
Proof.
  intros Hl. unfold Dir.assign_at. rewrite Hl. cbv zeta.
  rewrite !lookup_alter_eq, Hl. simpl.
  assert (Hclear : Dir.clear (Dir.mk (Dir.name_ d) (Dir.subFiles_ d) (Dir.subDirs_ d)) =
                   Dir.mk (Dir.name d) None None)
    by (by destruct d as [n [fs|] [ds|]]).
  rewrite Hclear. simpl. rewrite !lookup_alter_eq, Hl. simpl. rewrite Hclear. simpl.
  apply map_eq; intros i. destruct (decide (i = l)) as [->|Hi].
  - by rewrite lookup_insert_eq, !lookup_alter_eq, Hl; simpl; rewrite Hclear.
  - by rewrite lookup_insert_ne, !lookup_alter_ne.
Qed.

(** The name of a child is found, at the child or before it. *)
Lemma hasFile__of_a_child d i f :
  child_files d !! i = Some f ->
  exists pos c, Dir.hasFile_ d (File.name f) = Some pos /\ pos <= i /\
                child_files d !! pos = Some c /\ File.name c = File.name f.
Proof.
  intros Hi. unfold Dir.hasFile_, child_files in *.
  destruct (Dir.subFiles_ d) as [fs|]; [| done]. simpl in *.
  destruct (list_find (fun f0 => File.name f0 = File.name f) fs) as [[pos x]|] eqn:E.
  - apply list_find_Some in E as (Hpos & Hx & Hbefore).
    exists pos, x. split; [done |]. split; [| done].
    destruct (decide (pos <= i)) as [|Hlt]; [done |]. exfalso.
    apply (Hbefore i f); [done | lia | done].
  - exfalso. apply list_find_None in E.
    by eapply (proj1 (Forall_lookup _ _) E i f).
Qed.

Lemma hasDir__of_a_child d i c :
  child_dirs d !! i = Some c ->
  exists pos c', Dir.hasDir_ d (Dir.name c) = Some pos /\ pos <= i /\
                 child_dirs d !! pos = Some c' /\ Dir.name c' = Dir.name c.
Proof.
  intros Hi. unfold Dir.hasDir_, child_dirs in *.
  destruct (Dir.subDirs_ d) as [ds|]; [| done]. simpl in *.
  destruct (list_find (fun d0 => Dir.name d0 = Dir.name c) ds) as [[pos x]|] eqn:E.
  - apply list_find_Some in E as (Hpos & Hx & Hbefore).
    exists pos, x. split; [done |]. split; [| done].
    destruct (decide (pos <= i)) as [|Hlt]; [done |]. exfalso.
    apply (Hbefore i c); [done | lia | done].
  - exfalso. apply list_find_None in E.
    by eapply (proj1 (Forall_lookup _ _) E i c).
Qed.

Lemma add_File_own_overwrite d i f pos :
  child_files d !! i = Some f ->
  Dir.hasFile_ d (File.name f) = Some pos ->
  Dir.add_File_own d i true =
    Dir.mk (Dir.name_ d)
           (Some (<[pos := if bool_decide (pos = i) then File.mk (File.name f) None
                           else f]> (child_files d)))
           (Dir.subDirs_ d).
Proof.
  intros Hi Hpos. unfold Dir.add_File_own. fold (child_files d).
  rewrite Hi, Hpos. do 2 f_equal.
  destruct (hasFile__of_a_child d i f Hi) as (pos' & c & Hpos' & _ & Hc & _).
  rewrite Hpos in Hpos'. injection Hpos' as <-.
  destruct (decide (pos = i)) as [->|Hne].
  - rewrite bool_decide_eq_true_2 by done.
    rewrite (File_assign_at_self _ i f) by (by rewrite vec_store_lookup).
    apply store_vec_insert.
  - rewrite bool_decide_eq_false_2 by done.
    rewrite (File_assign_at_ne _ pos i c f) by (by rewrite ?vec_store_lookup).
    by rewrite File_assign_eq, store_vec_insert.
Qed.

Lemma add_Dir_own_overwrite d i c pos :
  child_dirs d !! i = Some c ->
  Dir.hasDir_ d (Dir.name c) = Some pos ->
  Dir.add_Dir_own d i true =
    Dir.mk (Dir.name_ d) (Dir.subFiles_ d)
           (Some (<[pos := if bool_decide (pos = i) then Dir.mk (Dir.name c) None None
                           else c]> (child_dirs d))).
Proof.
  intros Hi Hpos. unfold Dir.add_Dir_own. fold (child_dirs d).
  rewrite Hi, Hpos. do 2 f_equal.
  destruct (hasDir__of_a_child d i c Hi) as (pos' & c' & Hpos' & _ & Hc & _).
  rewrite Hpos in Hpos'. injection Hpos' as <-.
  destruct (decide (pos = i)) as [->|Hne].
  - rewrite bool_decide_eq_true_2 by done.
    rewrite (Dir_assign_at_self _ i c) by (by rewrite vec_store_lookup).
    apply store_vec_insert.
  - rewrite bool_decide_eq_false_2 by done.
    rewrite (Dir_assign_at_ne _ pos i c' c) by (by rewrite ?vec_store_lookup).
    by rewrite Dir_assign_eq, store_vec_insert.
Qed.



(** X2.  Inserting with [overwrite] over a child of the same name assigns
    the node to that child by copy.  When the node is an object of its own,
    the child becomes equal to the node, the other children stay, and the
    caller's node is left as it was, payload or children included.  When the
    node is a child of the directory itself, as in [d.add(d.file(x), true)],
    the first child of its name is the one assigned to: if that is the node
    itself, the assignment is a self-assignment and empties it, a file left
    without its payload and a directory without its children; if it is an
    earlier child of the same name, that child becomes a copy of the node.
    The other children stay. *)
Theorem overwrite_copies_the_node :
  (forall d n pos,
      Dir.hasFile_ d (File.name n) = Some pos ->
      Dir.add_File d n true =
        (Dir.mk (Dir.name_ d) (Some (<[pos := n]> (child_files d))) (Dir.subDirs_ d),
         n)) /\
  (forall d n pos,
      Dir.hasDir_ d (Dir.name n) = Some pos ->
      Dir.add_Dir d n true =
        (Dir.mk (Dir.name_ d) (Dir.subFiles_ d) (Some (<[pos := n]> (child_dirs d))),
         n)) /\
  (forall d i f,
      child_files d !! i = Some f ->
      exists pos, Dir.hasFile_ d (File.name f) = Some pos /\ pos <= i /\
        Dir.add_File_own d i true =
          Dir.mk (Dir.name_ d)
                 (Some (<[pos := if bool_decide (pos = i)
                                 then File.mk (File.name f) None else f]>
                          (child_files d)))
                 (Dir.subDirs_ d)) /\
  (forall d i c,
      child_dirs d !! i = Some c ->
      exists pos, Dir.hasDir_ d (Dir.name c) = Some pos /\ pos <= i /\
        Dir.add_Dir_own d i true =
          Dir.mk (Dir.name_ d) (Dir.subFiles_ d)
                 (Some (<[pos := if bool_decide (pos = i)
                                 then Dir.mk (Dir.name c) None None else c]>
                          (child_dirs d)))).
Proof.
  split; [exact add_File_present_overwrite |].
  split; [exact add_Dir_present_overwrite |]. split.
  - intros d i f Hi.
    destruct (hasFile__of_a_child d i f Hi) as (pos & c & Hpos & Hle & _).
    exists pos. split; [done |]. split; [done |].
    by apply add_File_own_overwrite.
  - intros d i c Hi.
    destruct (hasDir__of_a_child d i c Hi) as (pos & c' & Hpos & Hle & _).
    exists pos. split; [done |]. split; [done |].
    by apply add_Dir_own_overwrite.
Qed.

Lemma overwrite_copies_the_node_witness :
  let d := Dir.mk "d" (Some [File.mk "a.txt" (Some "old")])
                  (Some [Dir.mk "sub" (Some [File.mk "x" None]) None]) in
  (Dir.add_File d (File.mk "a.txt" (Some "new")) true =
     (Dir.mk "d" (Some [File.mk "a.txt" (Some "new")])
             (Some [Dir.mk "sub" (Some [File.mk "x" None]) None]),
      File.mk "a.txt" (Some "new")) /\
   Dir.add_Dir d (Dir.mk "sub" None (Some [Dir.mk "y" None None])) true =
     (Dir.mk "d" (Some [File.mk "a.txt" (Some "old")])
             (Some [Dir.mk "sub" None (Some [Dir.mk "y" None None])]),
      Dir.mk "sub" None (Some [Dir.mk "y" None None]))) /\
  (Dir.add_File_own d 0 true =
     Dir.mk "d" (Some [File.mk "a.txt" None])
            (Some [Dir.mk "sub" (Some [File.mk "x" None]) None]) /\
   Dir.add_Dir_own d 0 true =
     Dir.mk "d" (Some [File.mk "a.txt" (Some "old")]) (Some [Dir.mk "sub" None None])).
Proof.
  destruct overwrite_copies_the_node as (H1 & H2 & H3 & H4). intros d.
  split; split.
  - apply (H1 d (File.mk "a.txt" (Some "new")) 0). reflexivity.
  - apply (H2 d (Dir.mk "sub" None (Some [Dir.mk "y" None None])) 0). reflexivity.
  - destruct (H3 d 0 (File.mk "a.txt" (Some "old")) eq_refl) as (pos & Hpos & _ & ->).
    injection Hpos as <-. reflexivity.
  - destruct (H4 d 0 (Dir.mk "sub" (Some [File.mk "x" None]) None) eq_refl)
      as (pos & Hpos & _ & ->).
    injection Hpos as <-. reflexivity.
Defined.

(** ** Inserting over an existing name *)

Lemma hasFile__by_names d y :
  Dir.hasFile_ d y =
  fst <$> list_find (fun s => s = y) (File.name <$> child_files d).
Proof.
  unfold Dir.hasFile_, child_files.
  destruct (Dir.subFiles_ d) as [fs|]; simpl; [| done].
  rewrite list_find_fmap. rewrite <- option_fmap_compose.
  apply option_fmap_ext. by intros [].
Qed.

Lemma filter_none {A} (P : A -> Prop) `{forall x, Decision (P x)} (l : list A) :
  Forall (fun x => ~ P x) l -> filter P l = [].
Proof.
  induction 1 as [|a l Ha _ IH]; [done |].
  by rewrite filter_cons, decide_False.
Qed.

Lemma unique_name_count (fs : list File.t) x c :
  NoDup (File.name <$> fs) -> c ∈ fs -> File.name c = x ->
  length (filter (fun f => File.name f = x) fs) = 1.
Proof.
  induction fs as [|a fs IH]; intros Hnd Hin Hc; [by apply elem_of_nil in Hin |].
  rewrite fmap_cons in Hnd. apply NoDup_cons in Hnd as [Ha Hnd].
  rewrite filter_cons. destruct (decide (File.name a = x)) as [Hax|Hax].
  - simpl. f_equal. rewrite filter_none; [done |].
    apply Forall_forall. intros f Hf Hfx. apply Ha.
    rewrite Hax, <- Hfx. by apply list_elem_of_fmap_2.
  - apply elem_of_cons in Hin as [->|Hin]; [done |]. by apply IH.
Qed.

(** C5.  Let [d] have a child file named [x] and let [n] be a second file
    named [x].  Inserting [n] without [overwrite] leaves [d] as it was, so
    its child named [x] keeps its payload; the call cannot fail.  Inserting
    [n] with [overwrite] makes the child named [x] equal to [n], payload
    included, and changes no other child.  Either way the names of the
    child files are the same list as before, so that, when they were
    pairwise distinct, they still are and exactly one child file is named
    [x]. *)
Theorem insert_over_an_existing_file (d : Dir.t) (x : string) (c n : File.t) :
  child_file_named d x = Some c ->
  File.name n = x ->
  let kept := fst (Dir.add_File d n false) in
  let replaced := fst (Dir.add_File d n true) in
  (kept = d /\ child_file_named kept x = Some c) /\
  (child_file_named replaced x = Some n /\
   Dir.name replaced = Dir.name d /\
   Dir.subDirs_ replaced = Dir.subDirs_ d /\
   forall y, y ≠ x -> child_file_named replaced y = child_file_named d y) /\
  (forall d', d' = kept \/ d' = replaced ->
     map File.name (child_files d') = map File.name (child_files d) /\
     (NoDup (map File.name (child_files d)) ->
      NoDup (map File.name (child_files d')) /\
      length (filter (fun f => File.name f = x) (child_files d')) = 1)).
Proof.
  intros Hc Hn kept replaced.
  unfold child_file_named in Hc.
  destruct (Dir.hasFile_ d x) as [pos|] eqn:Hpos; [| discriminate].
  simpl in Hc.
  assert (Hc' : File.name c = x).
  { apply hasFile__Some in Hpos as (fs & c' & Hfs & Hl & Hx & _).
    unfold child_files in Hc. rewrite Hfs in Hc. simpl in Hc. congruence. }
  assert (Hkept : kept = d).
  { unfold kept. by rewrite (add_File_present_keep d n pos) by (by rewrite Hn). }
  assert (Hrep : replaced =
                 Dir.mk (Dir.name_ d) (Some (<[pos := n]> (child_files d))) (Dir.subDirs_ d)).
  { unfold replaced. by rewrite (add_File_present_overwrite d n pos) by (by rewrite Hn). }
  assert (Hnames : File.name <$> child_files replaced = File.name <$> child_files d).
  { rewrite Hrep. unfold child_files at 1. simpl.
    rewrite list_fmap_insert. apply list_insert_id.
    rewrite list_lookup_fmap, Hc. simpl. congruence. }
  assert (Hfind : forall y, Dir.hasFile_ replaced y = Dir.hasFile_ d y).
  { intros y. by rewrite !hasFile__by_names, Hnames. }
  split; [| split].
  - split; [exact Hkept |].
    rewrite Hkept. unfold child_file_named. by rewrite Hpos.
  - split; [| split; [by rewrite Hrep | split; [by rewrite Hrep |]]].
    + unfold child_file_named. rewrite Hfind, Hpos. simpl.
      rewrite Hrep. unfold child_files at 1. simpl.
      apply list_lookup_insert_eq. by eapply lookup_lt_Some.
    + intros y Hy. unfold child_file_named. rewrite Hfind.
      destruct (Dir.hasFile_ d y) as [j|] eqn:Hj; [| done]. simpl.
      rewrite Hrep. unfold child_files at 1. simpl.
      apply list_lookup_insert_ne. intros <-.
      apply hasFile__Some in Hj as (fs & c' & Hfs & Hl & Hx & _).
      unfold child_files in Hc. rewrite Hfs in Hc. simpl in Hc. congruence.
  - intros d' [->| ->].
    + rewrite Hkept. split; [done |]. intros Hnd. split; [done |].
      eapply unique_name_count; [exact Hnd | | exact Hc'].
      by eapply list_elem_of_lookup_2.
    + change (map File.name) with (fmap (M := list) File.name) in *.
      rewrite Hnames. split; [done |]. intros Hnd. split; [done |].
      eapply unique_name_count; [by rewrite Hnames | | exact Hn].
      rewrite Hrep. unfold child_files at 1. simpl.
      eapply list_elem_of_lookup_2.
      apply list_lookup_insert_eq. by eapply lookup_lt_Some.
Qed.

Lemma insert_over_an_existing_file_witness :
  let d := Dir.mk "d" (Some [File.mk "a.txt" (Some "old"); File.mk "b" None]) None in
  let n := File.mk "a.txt" (Some "new") in
  fst (Dir.add_File d n false) = d /\
  child_file_named (fst (Dir.add_File d n true)) "a.txt" = Some n /\
  length (filter (fun f => File.name f = "a.txt")
                 (child_files (fst (Dir.add_File d n true)))) = 1.
Proof.
  intros d n.
  destruct (insert_over_an_existing_file d "a.txt" (File.mk "a.txt" (Some "old")) n)
    as ((H1 & _) & (H2 & _) & H3).
  - reflexivity.
  - reflexivity.
  - split; [exact H1 |]. split; [exact H2 |].
    destruct (H3 (fst (Dir.add_File d n true))) as (_ & H4); [by right |].
    apply H4. apply (bool_decide_unpack _). vm_compute. exact I.
Defined.

(** ** Accessor-or-create *)

Lemma file_existing d x pos :
  Dir.hasFile_ d x = Some pos ->
  Dir.file d x = (d, pos) /\
  exists c, child_files d !! pos = Some c /\ File.name c = x.
Proof.
  intros H. unfold Dir.file. rewrite H. split; [done |].
  apply hasFile__Some in H as (fs & c & Hfs & Hl & Hx & _).
  exists c. unfold child_files. by rewrite Hfs.
Qed.

Lemma file_created d x :
  Dir.hasFile_ d x = None ->
  Dir.file d x =
    (Dir.mk (Dir.name_ d) (Some (child_files d ++ [File.mk x None])%list) (Dir.subDirs_ d),
     length (child_files d)).
Proof.
  intros H. unfold Dir.file. rewrite H.
  rewrite (add_File_absent d (File.ctor x) false) by exact H. simpl.
  f_equal. rewrite length_app. simpl. lia.
Qed.

Lemma dir_existing d x pos :
  Dir.hasDir_ d x = Some pos ->
  Dir.dir d x = Ok (d, pos) /\
  exists c, child_dirs d !! pos = Some c /\ Dir.name c = x.
Proof.
  intros H. unfold Dir.dir. rewrite H. split; [done |].
  apply hasDir__Some in H as (ds & c & Hds & Hl & Hx & _).
  exists c. unfold child_dirs. by rewrite Hds.
Qed.

Lemma dir_created d x :
  Dir.hasDir_ d x = None -> isValidFilename x = true ->
  Dir.dir d x =
    Ok (Dir.mk (Dir.name_ d) (Dir.subFiles_ d)
               (Some (child_dirs d ++ [Dir.mk x None None])%list),
        length (child_dirs d)).
Proof.
  intros H Hx. unfold Dir.dir, Dir.ctor. rewrite H.
  rewrite Dir_setName_valid by exact Hx. simpl.
  rewrite (add_Dir_absent d (Dir.mk x None None) false) by exact H. simpl.
  unfold mret, Result_ret. do 2 f_equal. rewrite length_app. simpl. lia.
Qed.

Lemma dir_refused d x :
  Dir.hasDir_ d x = None -> isValidFilename x = false ->
  Dir.dir d x = Throw (Invalid_file_name x).
Proof.
  intros H Hx. unfold Dir.dir, Dir.ctor. rewrite H.
  by rewrite Dir_setName_invalid by exact Hx.
Qed.

(** C9 as stated fails for [dir]: asked for a name that is not a valid file
    name and that no child directory has, it creates nothing and throws. *)
Lemma dir_does_not_create_under_an_invalid_name :
  ~ (forall (d : Dir.t) (x : string),
        Dir.hasDir_ d x = None ->
        exists d' i, Dir.dir d x = Ok (d', i) /\
                     child_dirs d' !! i = Some (Dir.mk x None None)).
Proof.
  intros H.
  destruct (H (Dir.mk "root" None None) "a/b" eq_refl) as (d' & i & Hd & _).
  vm_compute in Hd. discriminate.
Qed.

(** C9, amended.  [file(x)] is as stated for every name [x]: it returns the
    existing child file named [x], the directory unchanged, and otherwise
    appends one new child, the empty file named [x], to the child files,
    changes nothing else, and returns that child.  [dir(x)] does the same
    for child directories when a child directory named [x] exists or [x] is
    a valid file name; when neither is the case it throws the invalid-name
    exception. *)
Theorem accessor_or_create :
  (forall d x pos,
      Dir.hasFile_ d x = Some pos ->
      Dir.file d x = (d, pos) /\
      exists c, child_files d !! pos = Some c /\ File.name c = x) /\
  (forall d x,
      Dir.hasFile_ d x = None ->
      Dir.file d x =
        (Dir.mk (Dir.name_ d) (Some (child_files d ++ [File.mk x None])%list)
                (Dir.subDirs_ d),
         length (child_files d))) /\
  (forall d x pos,
      Dir.hasDir_ d x = Some pos ->
      Dir.dir d x = Ok (d, pos) /\
      exists c, child_dirs d !! pos = Some c /\ Dir.name c = x) /\
  (forall d x,
      Dir.hasDir_ d x = None -> isValidFilename x = true ->
      Dir.dir d x =
        Ok (Dir.mk (Dir.name_ d) (Dir.subFiles_ d)
                   (Some (child_dirs d ++ [Dir.mk x None None])%list),
            length (child_dirs d))) /\
  (forall d x,
      Dir.hasDir_ d x = None -> isValidFilename x = false ->
      Dir.dir d x = Throw (Invalid_file_name x)).
Proof.
  split; [exact file_existing |].
  split; [exact file_created |].
  split; [exact dir_existing |].
  split; [exact dir_created | exact dir_refused].
Qed.

Lemma accessor_or_create_witness :
  let d := Dir.mk "root" (Some [File.mk "a.txt" (Some "hi")])
                  (Some [Dir.mk "src" None None]) in
  Dir.file d "a.txt" = (d, 0) /\
  Dir.file d "b.txt" =
    (Dir.mk "root" (Some [File.mk "a.txt" (Some "hi"); File.mk "b.txt" None])
            (Some [Dir.mk "src" None None]), 1) /\
  Dir.dir d "src" = Ok (d, 0) /\
  Dir.dir d "doc" =
    Ok (Dir.mk "root" (Some [File.mk "a.txt" (Some "hi")])
               (Some [Dir.mk "src" None None; Dir.mk "doc" None None]), 1) /\
  Dir.dir d "a/b" = Throw (Invalid_file_name "a/b").
Proof.
  destruct accessor_or_create as (H1 & H2 & H3 & H4 & H5).
  intros d. split; [| split; [| split; [| split]]].
  - apply (H1 d "a.txt" 0). reflexivity.
  - apply (H2 d "b.txt"). reflexivity.
  - apply (H3 d "src" 0). reflexivity.
  - apply (H4 d "doc"); reflexivity.
  - apply (H5 d "a/b"); reflexivity.
Defined.

(** ** Unallocated child vectors *)

(** C4 (the code departs from the claim).  On a directory whose vector of
    child files, respectively of child directories, was never allocated,
    [files()], respectively [dirs()], dereferences the null pointer, which
    is undefined behaviour, whereas on an allocated empty vector it returns
    the empty vector.  Every other member function gives the same result
    on both. *)
Theorem files_and_dirs_dereference_the_null_vector :
  forall (n : string) (fs : option (list File.t)) (ds : option (list Dir.t)),
    (Dir.files (Dir.mk n None ds) = Dir.UndefinedBehaviour /\
     Dir.files (Dir.mk n (Some []) ds) = Dir.Object []) /\
    (Dir.dirs (Dir.mk n fs None) = Dir.UndefinedBehaviour /\
     Dir.dirs (Dir.mk n fs (Some [])) = Dir.Object []) /\
    (forall r x f path ow,
        let d0 := Dir.mk n None ds in
        let d1 := Dir.mk n (Some []) ds in
        Dir.fileCount r d0 = Dir.fileCount r d1 /\
        Dir.dirCount r d0 = Dir.dirCount r d1 /\
        Dir.count r d0 = Dir.count r d1 /\
        Dir.hasFile x r d0 = Dir.hasFile x r d1 /\
        Dir.hasDir x r d0 = Dir.hasDir x r d1 /\
        Dir.size d0 = Dir.size d1 /\
        Dir.empty d0 = Dir.empty d1 /\
        Dir.removeFile d0 x = d0 /\ Dir.removeFile d1 x = d1 /\
        Dir.file d0 x = Dir.file d1 x /\
        Dir.add_File d0 f ow = Dir.add_File d1 f ow /\
        Dir.clearFiles d0 = Dir.clearFiles d1 /\
        Dir.write d0 path ow = Dir.write d1 path ow) /\
    (forall r x c path ow,
        let d0 := Dir.mk n fs None in
        let d1 := Dir.mk n fs (Some []) in
        Dir.fileCount r d0 = Dir.fileCount r d1 /\
        Dir.dirCount r d0 = Dir.dirCount r d1 /\
        Dir.count r d0 = Dir.count r d1 /\
        Dir.hasFile x r d0 = Dir.hasFile x r d1 /\
        Dir.hasDir x r d0 = Dir.hasDir x r d1 /\
        Dir.size d0 = Dir.size d1 /\
        Dir.empty d0 = Dir.empty d1 /\
        Dir.removeDir d0 x = d0 /\ Dir.removeDir d1 x = d1 /\
        Dir.dir d0 x = Dir.dir d1 x /\
        Dir.add_Dir d0 c ow = Dir.add_Dir d1 c ow /\
        Dir.clearDirs d0 = Dir.clearDirs d1 /\
        Dir.write d0 path ow = Dir.write d1 path ow).
Proof.
  intros n fs ds. split; [done |]. split; [done |]. split.
  - intros r x f path ow d0 d1.
    assert (Hfc : forall r, Dir.fileCount r d0 = Dir.fileCount r d1) by (by intros []).
    assert (Hsz : Dir.size d0 = Dir.size d1) by done.
    unfold Dir.count, Dir.empty. rewrite Hfc, Hsz.
    repeat split; by destruct r.
  - intros r x c path ow d0 d1.
    assert (Hfc : forall r, Dir.dirCount r d0 = Dir.dirCount r d1) by (by intros []).
    assert (Hsz : Dir.size d0 = Dir.size d1) by done.
    unfold Dir.count, Dir.empty. rewrite Hfc, Hsz.
    repeat split; by destruct r.
Qed.

(** ** The directories and files below a node *)

Lemma descendants_unfold d :
  descendants d = flat_map (fun c => c :: descendants c) (child_dirs d).
Proof. unfold child_dirs. by destruct d as [n fs [ds|]]. Qed.

Lemma flat_map_flat_map {A B C} (f : A -> list B) (g : B -> list C) (l : list A) :
  flat_map g (flat_map f l) = flat_map (fun x => flat_map g (f x)) l.
Proof.
  induction l as [|a l IH]; [done |]. simpl. by rewrite flat_map_app, IH.
Qed.

Lemma files_below_unfold d :
  files_below d = (child_files d ++ flat_map files_below (child_dirs d))%list.
Proof.
  unfold files_below at 1. simpl. f_equal.
  by rewrite descendants_unfold, flat_map_flat_map.
Qed.

Lemma vec_size_app {A} (l k : list A) :
  vec_size (l ++ k) = (vec_size l + vec_size k)%N.
Proof. unfold vec_size. rewrite length_app. lia. Qed.

Lemma vec_size_flat_map {A B} (f : A -> list B) (l : list A) :
  vec_size (flat_map f l) = sumN (map (fun x => vec_size (f x)) l).
Proof.
  induction l as [|a l IH]; [done |]. simpl. by rewrite vec_size_app, IH.
Qed.

(** ** Releasing the payloads *)

Lemma releaseData_name f : File.name (File.releaseData f) = File.name f.
Proof. by destruct f as [n [s|]]. Qed.

Lemma releaseData_data_ f : File.data_ (File.releaseData f) = None.
Proof. by destruct f as [n [s|]]. Qed.

Lemma releaseData_size f : File.size (File.releaseData f) = 0%N.
Proof. by destruct f as [n [s|]]. Qed.

Lemma releaseData_idem f : File.releaseData (File.releaseData f) = File.releaseData f.
Proof. by destruct f as [n [s|]]. Qed.

Lemma release_child_files d :
  child_files (Dir.releaseAllFilesData d) = map File.releaseData (child_files d).
Proof. unfold child_files. by destruct d as [n [fs|] ds]. Qed.

Lemma release_shape d : shape (Dir.releaseAllFilesData d) = shape d.
Proof.
  induction d as [n fs ods IH] using Dir_ind'.
  simpl. f_equal.
  - destruct fs as [fs|]; simpl; [| done].
    rewrite map_map. apply map_ext. intros f. apply releaseData_name.
  - destruct ods as [ds|]; simpl in *; [| done].
    rewrite map_map. apply map_ext_Forall. exact IH.
Qed.

Lemma release_idem d :
  Dir.releaseAllFilesData (Dir.releaseAllFilesData d) = Dir.releaseAllFilesData d.
Proof.
  induction d as [n fs ods IH] using Dir_ind'.
  simpl. f_equal.
  - destruct fs as [fs|]; simpl; [| done]. f_equal.
    rewrite map_map. apply map_ext. intros f. apply releaseData_idem.
  - destruct ods as [ds|]; simpl in *; [| done]. f_equal.
    rewrite map_map. apply map_ext_Forall. exact IH.
Qed.

Lemma release_descendants d :
  descendants (Dir.releaseAllFilesData d) =
  map Dir.releaseAllFilesData (descendants d).
Proof.
  induction d as [n fs ods IH] using Dir_ind'.
  destruct ods as [ds|]; simpl in *; [| done].
  induction IH as [|c ds Hc _ IHds]; [done |].
  simpl. rewrite map_app. by rewrite Hc, IHds.
Qed.

Lemma fold_size_zero {A} (g : A -> N) (l : list A) :
  Forall (fun x => g x = 0%N) l ->
  fold_left (fun acc var => size_t_add acc (g var)) l 0%N = 0%N.
Proof. induction 1 as [|a l Ha _ IH]; [done |]. simpl. by rewrite Ha. Qed.

Lemma release_size d : Dir.size (Dir.releaseAllFilesData d) = 0%N.
Proof.
  induction d as [n fs ods IH] using Dir_ind'.
  simpl.
  assert (Hfs : match fs with
                | Some fs0 =>
                    fold_left (fun acc var => size_t_add acc (File.size var))
                              (map File.releaseData fs0) 0%N
                | None => 0%N
                end = 0%N).
  { destruct fs as [fs|]; [| done]. apply fold_size_zero.
    apply Forall_fmap, Forall_forall. intros f _. apply releaseData_size. }
  destruct fs as [fs|], ods as [ds|]; simpl in *; rewrite ?Hfs; try done;
    apply fold_size_zero, Forall_fmap; exact IH.
Qed.

(** C7.  [releaseAllFilesData] keeps the shape of the tree, that is every
    node and every name in its place; afterwards [size()] is zero for the
    node, for every directory below it and for every file at or below it,
    all of which have lost their payload; and running it a second time
    changes nothing. *)
Theorem releaseAllFilesData_keeps_the_shape_and_empties (d : Dir.t) :
  let d' := Dir.releaseAllFilesData d in
  shape d' = shape d /\
  Forall (fun δ => Dir.size δ = 0%N) (d' :: descendants d') /\
  Forall (fun f => File.size f = 0%N /\ File.data_ f = None) (files_below d') /\
  Dir.releaseAllFilesData d' = d'.
Proof.
  intros d'. split; [apply release_shape |].
  split; [| split; [| apply release_idem]].
  - constructor; [apply release_size |].
    unfold d'. rewrite release_descendants.
    apply Forall_fmap, Forall_forall. intros δ _. apply release_size.
  - unfold files_below, d'. rewrite release_descendants.
    apply Forall_forall. intros f Hf%list_elem_of_In.
    apply in_flat_map in Hf as [δ [Hδ Hf]].
    assert (exists δ', δ = Dir.releaseAllFilesData δ') as [δ' ->].
    { destruct Hδ as [<-|Hδ]; [by eexists |].
      apply in_map_iff in Hδ as [δ' [<- _]]. by eexists. }
    rewrite release_child_files in Hf.
    apply in_map_iff in Hf as [f' [<- _]].
    split; [apply releaseData_size | apply releaseData_data_].
Qed.


Lemma vec_size_cons {A} (x : A) (l : list A) :
  vec_size (x :: l) = (1 + vec_size l)%N.
Proof. unfold vec_size. cbn [length]. lia. Qed.


(** ** Counting *)

Lemma sumN_cons x l : sumN (x :: l) = (x + sumN l)%N.
Proof. reflexivity. Qed.

Lemma sumN_with_self {A} (g : A -> list A) (l : list A) :
  (vec_size l + sumN (map (fun c => vec_size (g c)) l))%N =
  sumN (map (fun c => vec_size (c :: g c)) l).
Proof.
  induction l as [|c l IH]; [done |].
  rewrite !map_cons, !sumN_cons, !vec_size_cons, <- IH. lia.
Qed.

(** A loop that accumulates with [+=] computes the sum modulo [2^64]. *)
Lemma fold_size_t_add {A} (g : A -> N) (l : list A) (a : N) :
  (a < SIZE_MAX_succ)%N ->
  fold_left (fun cnt var => size_t_add cnt (g var)) l a =
  ((a + sumN (map g l)) mod SIZE_MAX_succ)%N.
Proof.
  revert a. induction l as [|x l IH]; intros a Ha; simpl.
  - rewrite N.add_0_r. symmetry. by apply N.mod_small.
  - rewrite IH by (apply N.mod_lt; done).
    unfold size_t_add. rewrite N.Div0.add_mod_idemp_l. f_equal. lia.
Qed.

Lemma sumN_mod_Forall {A} (f g : A -> N) (l : list A) (a : N) :
  Forall (fun x => f x = (g x mod SIZE_MAX_succ)%N) l ->
  ((a + sumN (map f l)) mod SIZE_MAX_succ =
   (a + sumN (map g l)) mod SIZE_MAX_succ)%N.
Proof.
  intros H. revert a. induction H as [|x l Hx _ IH]; intros a; [done |].
  simpl. rewrite Hx, !N.add_assoc, IH.
  set (S := sumN (map g l)).
  rewrite (N.Div0.add_mod (a + g x mod SIZE_MAX_succ) S SIZE_MAX_succ).
  rewrite (N.Div0.add_mod_idemp_r a (g x) SIZE_MAX_succ).
  by rewrite <- (N.Div0.add_mod (a + g x) S SIZE_MAX_succ).
Qed.

Lemma fileCount_false d :
  Dir.fileCount false d = (vec_size (child_files d) mod SIZE_MAX_succ)%N.
Proof. unfold child_files. by destruct d as [n [fs|] ds]. Qed.

Lemma dirCount_false d :
  Dir.dirCount false d = (vec_size (child_dirs d) mod SIZE_MAX_succ)%N.
Proof. unfold child_dirs. by destruct d as [n fs [ds|]]. Qed.

Lemma fileCount_true_unfold d :
  Dir.fileCount true d =
  ((vec_size (child_files d) + sumN (map (Dir.fileCount true) (child_dirs d)))
   mod SIZE_MAX_succ)%N.
Proof.
  destruct d as [n fs ods]. unfold child_files, child_dirs. simpl.
  destruct ods as [ds|]; simpl.
  - rewrite fold_size_t_add.
    + destruct fs as [fs|]; simpl; [| done].
      unfold size_t_add. simpl. by rewrite N.Div0.add_mod_idemp_l.
    + destruct fs; [by apply N.mod_lt | done].
  - rewrite N.add_0_r. by destruct fs.
Qed.

Lemma dirCount_true_unfold d :
  Dir.dirCount true d =
  ((vec_size (child_dirs d) + sumN (map (Dir.dirCount true) (child_dirs d)))
   mod SIZE_MAX_succ)%N.
Proof.
  destruct d as [n fs ods]. unfold child_dirs. simpl.
  destruct ods as [ds|]; simpl; [| done].
  rewrite fold_size_t_add by (by apply N.mod_lt).
  unfold size_t_add. simpl. by rewrite N.Div0.add_mod_idemp_l.
Qed.

(** Recursive counts are the numbers of files and of directories below the
    node, modulo [2^64]. *)
Lemma fileCount_true_mod d :
  Dir.fileCount true d = (vec_size (files_below d) mod SIZE_MAX_succ)%N.
Proof.
  induction d as [n fs ods IH] using Dir_ind'.
  rewrite fileCount_true_unfold, files_below_unfold, vec_size_app, vec_size_flat_map.
  by apply sumN_mod_Forall.
Qed.

Lemma dirCount_true_mod d :
  Dir.dirCount true d = (vec_size (descendants d) mod SIZE_MAX_succ)%N.
Proof.
  induction d as [n fs ods IH] using Dir_ind'.
  rewrite dirCount_true_unfold, descendants_unfold, vec_size_flat_map.
  rewrite (sumN_mod_Forall _ (fun c => vec_size (descendants c))) by exact IH.
  f_equal. apply sumN_with_self.
Qed.

Lemma objects_unfold d :
  objects d = (1 + vec_size (child_files d) + sumN (map objects (child_dirs d)))%N.
Proof.
  assert (H : forall l : list Dir.t,
             sumN (map objects l) =
             (sumN (map (fun c => vec_size (files_below c)) l) +
              sumN (map (fun c => vec_size (c :: descendants c)) l))%N).
  { induction l as [|c l IH]; [done |].
    rewrite !map_cons, !sumN_cons, IH, vec_size_cons. unfold objects. lia. }
  rewrite H. unfold objects.
  rewrite files_below_unfold, vec_size_app, vec_size_flat_map.
  rewrite (descendants_unfold d), vec_size_flat_map. lia.
Qed.

Lemma objects_child d c : c ∈ child_dirs d -> (objects c < objects d)%N.
Proof.
  intros Hc. rewrite (objects_unfold d).
  induction (child_dirs d) as [|a l IH]; [by apply elem_of_nil in Hc |].
  rewrite map_cons, sumN_cons.
  apply elem_of_cons in Hc as [->|Hc]; [lia |]. specialize (IH Hc). lia.
Qed.

Lemma in_memory_child d c : in_memory d -> c ∈ child_dirs d -> in_memory c.
Proof.
  unfold in_memory. intros Hd Hc. pose proof (objects_child d c Hc). lia.
Qed.

Lemma fileCount_true_exact d :
  in_memory d -> Dir.fileCount true d = vec_size (files_below d).
Proof.
  unfold in_memory, objects. intros H.
  rewrite fileCount_true_mod. apply N.mod_small. lia.
Qed.

Lemma dirCount_true_exact d :
  in_memory d -> Dir.dirCount true d = vec_size (descendants d).
Proof.
  unfold in_memory, objects. intros H.
  rewrite dirCount_true_mod. apply N.mod_small. lia.
Qed.

Lemma sumN_map_ext_Forall {A} (f g : A -> N) (l : list A) :
  Forall (fun x => f x = g x) l -> sumN (map f l) = sumN (map g l).
Proof. intros H. f_equal. by apply map_ext_Forall. Qed.

Lemma sumN_map_add {A} (f g : A -> N) (l : list A) :
  sumN (map (fun x => (f x + g x)%N) l) = (sumN (map f l) + sumN (map g l))%N.
Proof.
  induction l as [|x l IH]; [done |]. rewrite !map_cons, !sumN_cons, IH. lia.
Qed.

(** The files at or below a node, counted directory by directory. *)
Lemma files_below_by_directory d :
  vec_size (files_below d) =
  sumN (map (fun δ => vec_size (child_files δ)) (d :: descendants d)).
Proof. unfold files_below. apply vec_size_flat_map. Qed.

Lemma sumN_app l k : sumN (l ++ k) = (sumN l + sumN k)%N.
Proof.
  induction l as [|x l IH]; [done |].
  rewrite <- app_comm_cons, !sumN_cons, IH. lia.
Qed.

Lemma sumN_flat_map {A B} (h : B -> N) (g : A -> list B) (l : list A) :
  sumN (map h (flat_map g l)) = sumN (map (fun x => sumN (map h (g x))) l).
Proof.
  induction l as [|x l IH]; [done |].
  cbn [flat_map]. by rewrite map_app, sumN_app, map_cons, sumN_cons, IH.
Qed.

Lemma descendants_by_directory d :
  vec_size (descendants d) =
  sumN (map (fun δ => vec_size (child_dirs δ)) (d :: descendants d)).
Proof.
  induction d as [n fs ods IH] using Dir_ind'.
  rewrite map_cons, sumN_cons.
  rewrite (descendants_unfold (Dir.mk n fs ods)).
  rewrite vec_size_flat_map, sumN_flat_map, <- sumN_with_self.
  f_equal. apply sumN_map_ext_Forall. exact IH.
Qed.

(** C6.  For a tree held in memory, so that no count reaches [2^64]:
    without recursion [fileCount], [dirCount] and [count] are the numbers of
    child files, of child directories, and of both; with recursion each is
    the number of direct children plus the sum of the same recursive count
    over the child directories, which is the number of direct children
    summed over the node and all directories below it; a directory is not
    among the directories below itself, so it does not count itself.  For
    any tree whatever the counts are these numbers modulo [2^64].  A root
    with two files and one subdirectory holding three files has
    [count(true) = 6] and [count(false) = 3]. *)
Theorem counts_of_a_tree :
  (forall d,
      in_memory d ->
      (Dir.fileCount false d = vec_size (child_files d) /\
       Dir.dirCount false d = vec_size (child_dirs d) /\
       Dir.count false d = (vec_size (child_files d) + vec_size (child_dirs d))%N) /\
      (Dir.fileCount true d =
         (vec_size (child_files d) + sumN (map (Dir.fileCount true) (child_dirs d)))%N /\
       Dir.dirCount true d =
         (vec_size (child_dirs d) + sumN (map (Dir.dirCount true) (child_dirs d)))%N /\
       Dir.count true d =
         (vec_size (child_files d) + vec_size (child_dirs d)
          + sumN (map (Dir.count true) (child_dirs d)))%N) /\
      (Dir.fileCount true d =
         sumN (map (fun δ => vec_size (child_files δ)) (d :: descendants d)) /\
       Dir.dirCount true d =
         sumN (map (fun δ => vec_size (child_dirs δ)) (d :: descendants d)) /\
       Dir.dirCount true d = vec_size (descendants d) /\
       Dir.count true d = (vec_size (files_below d) + vec_size (descendants d))%N)) /\
  (forall d,
      Dir.fileCount false d = (vec_size (child_files d) mod SIZE_MAX_succ)%N /\
      Dir.dirCount false d = (vec_size (child_dirs d) mod SIZE_MAX_succ)%N /\
      Dir.fileCount true d = (vec_size (files_below d) mod SIZE_MAX_succ)%N /\
      Dir.dirCount true d = (vec_size (descendants d) mod SIZE_MAX_succ)%N /\
      forall r, Dir.count r d =
                ((Dir.fileCount r d + Dir.dirCount r d) mod SIZE_MAX_succ)%N) /\
  (forall (root sub : string) (f1 f2 g1 g2 g3 : File.t) (none : option (list Dir.t)),
      none = None \/ none = Some [] ->
      let d := Dir.mk root (Some [f1; f2])
                      (Some [Dir.mk sub (Some [g1; g2; g3]) none]) in
      Dir.count true d = 6%N /\ Dir.count false d = 3%N).
Proof.
  split; [| split].
  - intros d Hd.
    assert (Hobj := Hd). unfold in_memory, objects in Hobj.
    assert (Hf : Dir.fileCount true d = vec_size (files_below d))
      by (by apply fileCount_true_exact).
    assert (Hn : Dir.dirCount true d = vec_size (descendants d))
      by (by apply dirCount_true_exact).
    assert (Hcf : (vec_size (child_files d) <= vec_size (files_below d))%N).
    { rewrite files_below_unfold, vec_size_app. lia. }
    assert (Hcd : (vec_size (child_dirs d) <= vec_size (descendants d))%N).
    { rewrite (descendants_unfold d), vec_size_flat_map, <- sumN_with_self. lia. }
    assert (Hkids_f : sumN (map (Dir.fileCount true) (child_dirs d)) =
                      sumN (map (fun c => vec_size (files_below c)) (child_dirs d))).
    { apply sumN_map_ext_Forall, Forall_forall. intros c Hc.
      apply fileCount_true_exact. by eapply in_memory_child. }
    assert (Hkids_d : sumN (map (Dir.dirCount true) (child_dirs d)) =
                      sumN (map (fun c => vec_size (descendants c)) (child_dirs d))).
    { apply sumN_map_ext_Forall, Forall_forall. intros c Hc.
      apply dirCount_true_exact. by eapply in_memory_child. }
    assert (Hkids_c : sumN (map (Dir.count true) (child_dirs d)) =
                      (sumN (map (Dir.fileCount true) (child_dirs d)) +
                       sumN (map (Dir.dirCount true) (child_dirs d)))%N).
    { rewrite <- sumN_map_add. apply sumN_map_ext_Forall, Forall_forall.
      intros c Hc. unfold Dir.count, size_t_add.
      pose proof (in_memory_child d c Hd Hc) as Hcm.
      rewrite fileCount_true_exact, dirCount_true_exact by done.
      apply N.mod_small. unfold in_memory, objects in Hcm. lia. }
    assert (Hfb : vec_size (files_below d) =
                  (vec_size (child_files d)
                   + sumN (map (fun c => vec_size (files_below c)) (child_dirs d)))%N).
    { by rewrite files_below_unfold, vec_size_app, vec_size_flat_map. }
    assert (Hds : vec_size (descendants d) =
                  (vec_size (child_dirs d)
                   + sumN (map (fun c => vec_size (descendants c)) (child_dirs d)))%N).
    { by rewrite (descendants_unfold d), vec_size_flat_map, <- sumN_with_self. }
    rewrite Hkids_c, Hkids_f, Hkids_d.
    rewrite <- files_below_by_directory, <- descendants_by_directory.
    unfold Dir.count, size_t_add.
    rewrite fileCount_false, dirCount_false, Hf, Hn.
    rewrite !N.mod_small by lia.
    repeat split; lia.
  - intros d.
    split; [apply fileCount_false |]. split; [apply dirCount_false |].
    split; [apply fileCount_true_mod |]. split; [apply dirCount_true_mod | done].
  - intros root sub f1 f2 g1 g2 g3 none [-> | ->] d; by vm_compute.
Qed.

Lemma counts_of_a_tree_witness :
  let sub := Dir.mk "src" (Some [File.mk "a" None; File.mk "b" None; File.mk "c" None]) None in
  let d := Dir.mk "proj" (Some [File.mk "x" (Some "hi"); File.mk "y" None]) (Some [sub]) in
  in_memory d /\
  Dir.fileCount true d = 5%N /\ Dir.dirCount true d = 1%N /\
  Dir.count true d = 6%N /\ Dir.count false d = 3%N.
Proof.
  intros sub d.
  assert (Hd : in_memory d) by (by vm_compute).
  destruct counts_of_a_tree as (H1 & _ & H2).
  destruct (H1 d Hd) as (_ & (Hf & Hn & _) & _).
  destruct (H2 "proj" "src" (File.mk "x" (Some "hi")) (File.mk "y" None)
               (File.mk "a" None) (File.mk "b" None) (File.mk "c" None) None
               (or_introl eq_refl)) as [Ht Hfalse].
  split; [exact Hd |].
  split; [rewrite Hf; reflexivity |].
  split; [rewrite Hn; reflexivity |].
  split; [exact Ht | exact Hfalse].
Defined.


(** ** Computations *)

Lemma IO_bind_run {A B} (m : IO A) (k : A -> IO B) w a w1 :
  m w = (Ok a, w1) -> (m ≫= k) w = k a w1.
Proof. unfold mbind, IO_bind. by intros ->. Qed.

(** A sequence either runs its first part to a value and goes on, or stops
    where the first part fails. *)
Lemma IO_bind_inv {A B} (m : IO A) (k : A -> IO B) w r w' :
  (m ≫= k) w = (r, w') ->
  (exists a w1, m w = (Ok a, w1) /\ k a w1 = (r, w')) \/
  ((forall b, r ≠ Ok b) /\ exists r0, m w = (r0, w') /\ forall a, r0 ≠ Ok a).
Proof.
  unfold mbind, IO_bind. destruct (m w) as [[a|e|] w1] eqn:E; intros H.
  - left. by exists a, w1.
  - right. inversion H. subst. split; [done |]. by eexists.
  - right. inversion H. subst. split; [done |]. by eexists.
Qed.

Lemma for_each_cons {A} (body : A -> IO unit) x l :
  for_each body (x :: l) = (body x ;; for_each body l).
Proof. reflexivity. Qed.

(** ** The order of the requests of [write] *)

(** A status query leaves the world as it is, and either answers or throws
    the error of the file system. *)
Lemma fs_status_query_inv answer path w r w' :
  fs_status_query answer path w = (r, w') ->
  w' = w /\
  (FS.status_error path w = true /\ r = Throw (filesystem_error path) \/
   FS.status_error path w = false /\ r = Ok (answer path w)).
Proof.
  unfold fs_status_query. destruct (FS.status_error path w); intros [= <- <-]; auto.
Qed.

Lemma status_error_At path w q :
  FS.resolve path (FS.disk w) = FS.At q -> FS.status_error path w = false.
Proof. unfold FS.status_error. by intros ->. Qed.

Lemma locate_Some_At path D N :
  FS.locate path D = Some N ->
  FS.c_str path ≠ "" /\ exists q, FS.resolve path D = FS.At q /\ FS.lookup q D = Some N.
Proof.
  unfold FS.locate, FS.reach.
  destruct (String.eqb_spec (FS.c_str path) ""); [done |].
  destruct (FS.resolve path D) as [q| |]; [| done | done].
  intros H. split; [done |]. by exists q.
Qed.

Lemma locate_At path D q :
  FS.c_str path ≠ "" -> FS.resolve path D = FS.At q ->
  FS.locate path D = FS.lookup q D.
Proof.
  intros Hne Hq. unfold FS.locate, FS.reach. rewrite Hq.
  by destruct (String.eqb_spec (FS.c_str path) "").
Qed.

Lemma status_error_locate path w N :
  FS.locate path (FS.disk w) = Some N -> FS.status_error path w = false.
Proof.
  intros H. apply locate_Some_At in H as (_ & q & Hq & _). by eapply status_error_At.
Qed.

Lemma isFile_run path w :
  FS.status_error path w = false ->
  isFile path w =
  (Ok (if FS.locate path (FS.disk w) is Some (FS.RegularFile _) then true else false), w).
Proof.
  intros H. unfold isFile, fs_exists, fs_is_regular_file, fs_status_query, mbind, IO_bind.
  rewrite H. unfold FS.exists_, FS.is_regular_file.
  destruct (FS.locate path (FS.disk w)) as [[]|] eqn:E; [| | done];
    cbv beta; by rewrite H, E.
Qed.

Lemma isDirectory_run path w :
  FS.status_error path w = false ->
  isDirectory path w =
  (Ok (if FS.locate path (FS.disk w) is Some (FS.Directory _) then true else false), w).
Proof.
  intros H. unfold isDirectory, fs_exists, fs_is_directory, fs_status_query, mbind, IO_bind.
  rewrite H. unfold FS.exists_, FS.is_directory.
  destruct (FS.locate path (FS.disk w)) as [[]|] eqn:E; [| | done];
    cbv beta; by rewrite H, E.
Qed.

Lemma isFile_refused path w :
  FS.status_error path w = true -> isFile path w = (Throw (filesystem_error path), w).
Proof.
  intros H. unfold isFile, fs_exists, fs_status_query, mbind, IO_bind. by rewrite H.
Qed.

Lemma isDirectory_refused path w :
  FS.status_error path w = true -> isDirectory path w = (Throw (filesystem_error path), w).
Proof.
  intros H. unfold isDirectory, fs_exists, fs_status_query, mbind, IO_bind. by rewrite H.
Qed.

Lemma fs_create_directory_journal path w r w' :
  fs_create_directory path w = (r, w') ->
  FS.journal w' = (FS.journal w ++ [FS.EvCreateDirectory path])%list.
Proof.
  unfold fs_create_directory. intros H.
  repeat match type of H with
         | context [match ?x with _ => _ end] => destruct x
         | context [if ?x then _ else _] => destruct x
         end; by inversion H.
Qed.

Lemma ofstream_open_journal path w r w' :
  ofstream_open path w = (r, w') ->
  FS.journal w' = (FS.journal w ++ [FS.EvOpenForWriting path])%list.
Proof.
  unfold ofstream_open. intros H.
  repeat match type of H with
         | context [match ?x with _ => _ end] => destruct x
         | context [if ?x then _ else _] => destruct x
         end; by inversion H.
Qed.

Lemma ofstream_write_journal path bytes w r w' :
  ofstream_write path bytes w = (r, w') ->
  FS.journal w' = (FS.journal w ++ [FS.EvWrite path bytes])%list.
Proof.
  unfold ofstream_write. intros H.
  repeat match type of H with
         | context [match ?x with _ => _ end] => destruct x
         end; by inversion H.
Qed.

Lemma File_write_requests f root ow w r w' :
  File.write f root ow w = (r, w') ->
  exists J J', FS.journal w' = (FS.journal w ++ J)%list /\
               file_requests root ow f (J ++ J')%list /\
               (r = Ok tt -> J' = []).
Proof.
  unfold File.write. cbv zeta.
  change (root +:+ String PREFERRED_PATH_SEPARATOR (File.name_ f))
    with (pathcat root (File.name f)).
  intros H.
  assert (Hsame : forall r0 w0,
             (if negb ow then isFile (pathcat root (File.name f))
              else (mret false : IO bool)) w = (r0, w0) ->
             w0 = w /\ (r0 = Ok true -> ow = false)).
  { intros r0 w0 Hk. destruct ow; simpl in Hk; [by inversion Hk |].
    split; [| done].
    destruct (FS.status_error (pathcat root (File.name f)) w) eqn:E.
    - rewrite isFile_refused in Hk by done. by inversion Hk.
    - rewrite isFile_run in Hk by done. by inversion Hk. }
  apply IO_bind_inv in H as [(kept & w1 & Hkept & H) | (Hr & r0 & Hkept & Hr0)].
  2:{ destruct (Hsame _ _ Hkept) as [-> _].
      exists [], (FS.EvOpenForWriting (pathcat root (File.name f)) ::
                  match File.data_ f with
                  | Some s => [FS.EvWrite (pathcat root (File.name f)) s]
                  | None => []
                  end).
      rewrite app_nil_r. split; [done |]. split; [apply file_written |].
      intros ->. by destruct (Hr tt). }
  destruct (Hsame _ _ Hkept) as [-> Hk].
  destruct kept; cbn [negb] in H.
  - inversion H. subst. exists [], []. rewrite app_nil_r.
    split; [done |]. split; [| done]. apply file_kept. by apply Hk.
  - apply IO_bind_inv in H as [(is_open & w2 & Hopen & H) | (Hr & r0 & Hopen & Hr0)].
    2:{ exfalso. unfold ofstream_open in Hopen. cbv zeta in Hopen.
        repeat match type of Hopen with
               | context [match ?x with _ => _ end] => destruct x
               | context [if ?x then _ else _] => destruct x
               end; inversion Hopen; subst; by eapply Hr0. }
    pose proof (ofstream_open_journal _ _ _ _ Hopen) as Hj2.
    destruct is_open; cbn [negb] in H.
    + unfold File.write_os in H. destruct (File.data_ f) as [s|] eqn:Hs.
      * pose proof (ofstream_write_journal _ _ _ _ _ H) as Hj3.
        exists [FS.EvOpenForWriting (pathcat root (File.name f));
                FS.EvWrite (pathcat root (File.name f)) s], [].
        rewrite app_nil_r. split; [| split; [| done]].
        -- by rewrite Hj3, Hj2, <- app_assoc.
        -- pose proof (file_written root ow f) as Hw. by rewrite Hs in Hw.
      * inversion H. subst.
        exists [FS.EvOpenForWriting (pathcat root (File.name f))], [].
        rewrite app_nil_r. split; [exact Hj2 | split; [| done]].
        pose proof (file_written root ow f) as Hw. by rewrite Hs in Hw.
    + inversion H. subst.
      exists [FS.EvOpenForWriting (pathcat root (File.name f))],
             (if File.data_ f is Some s
              then [FS.EvWrite (pathcat root (File.name f)) s] else []).
      split; [exact Hj2 |]. split; [apply file_written | done].
Qed.

Lemma Forall2_exists {A B} (R : A -> B -> Prop) (l : list A) :
  Forall (fun x => exists y, R x y) l -> exists ys, Forall2 R l ys.
Proof.
  induction 1 as [|x l [y Hy] _ [ys Hys]]; [by exists [] |].
  exists (y :: ys). by constructor.
Qed.

Lemma for_each_requests {A} (body : A -> IO unit) (R : A -> list FS.Event -> Prop)
    (l : list A) :
  Forall (fun x => exists J, R x J) l ->
  Forall (fun x => forall w r w', body x w = (r, w') ->
            exists J J', FS.journal w' = (FS.journal w ++ J)%list /\
                         R x (J ++ J')%list /\ (r = Ok tt -> J' = [])) l ->
  forall w r w', for_each body l w = (r, w') ->
    exists J J' Js, FS.journal w' = (FS.journal w ++ J)%list /\
                    (J ++ J')%list = concat Js /\ Forall2 R l Js /\
                    (r = Ok tt -> J' = []).
Proof.
  intros Hinh. induction 1 as [|x l Hx _ IH]; intros w r w' H.
  - inversion H. subst. exists [], [], []. rewrite app_nil_r. by repeat split.
  - apply Forall_cons in Hinh as [_ Hinh]. specialize (IH Hinh).
    rewrite for_each_cons in H.
    apply IO_bind_inv in H as [([] & w1 & Hbody & H) | (Hr & r0 & Hbody & Hr0)].
    + destruct (Hx _ _ _ Hbody) as (J & J' & HJ & HR & HJ').
      rewrite (HJ' eq_refl), app_nil_r in HR.
      destruct (IH _ _ _ H) as (K & K' & Ks & HK & HKs & HRs & HK').
      exists (J ++ K)%list, K', (J :: Ks). split; [| split; [| split]].
      * by rewrite HK, HJ, <- app_assoc.
      * simpl. by rewrite <- HKs, <- app_assoc.
      * by constructor.
      * exact HK'.
    + destruct (Hx _ _ _ Hbody) as (J & J' & HJ & HR & _).
      destruct (Forall2_exists R l Hinh) as (Ks & HKs).
      exists J, (J' ++ concat Ks)%list, ((J ++ J')%list :: Ks).
      split; [exact HJ |]. split; [by simpl; rewrite <- app_assoc |].
      split; [by constructor |]. intros ->. by destruct (Hr tt).
Qed.

Lemma Dir_write_unfold d path ow :
  Dir.write d path ow =
  (createDirectory (pathcat path (Dir.name d)) ;;
   for_each (fun var => File.write var (pathcat path (Dir.name d)) ow) (child_files d) ;;
   for_each (fun var => Dir.write var (pathcat path (Dir.name d)) ow) (child_dirs d)).
Proof. unfold child_files, child_dirs. by destruct d as [n [fs|] [ds|]]. Qed.

Lemma file_requests_exist root ow (fs : list File.t) :
  Forall (fun f => exists J, file_requests root ow f J) fs.
Proof. apply Forall_forall. intros f _. eexists. apply file_written. Qed.

Lemma dir_requests_exist d : forall path ow, exists J, dir_requests path ow d J.
Proof.
  induction d as [n fs ods IH] using Dir_ind'. intros path ow.
  destruct (Forall2_exists _ _ (file_requests_exist (pathcat path n) ow
                                  (child_files (Dir.mk n fs ods)))) as (Fs & HFs).
  destruct (Forall2_exists (dir_requests (pathcat path n) ow)
                           (child_dirs (Dir.mk n fs ods))) as (Ds & HDs).
  { eapply Forall_impl; [exact IH |]. intros c Hc. apply Hc. }
  eexists. by apply dir_requests_intro.
Qed.

Lemma Dir_write_requests d :
  forall path ow w r w',
    Dir.write d path ow w = (r, w') ->
    exists J J', FS.journal w' = (FS.journal w ++ J)%list /\
                 dir_requests path ow d (J ++ J')%list /\
                 (r = Ok tt -> J' = []).
Proof.
  induction d as [n fs ods IH] using Dir_ind'.
  intros path ow w r w' H. rewrite Dir_write_unfold in H.
  set (d := Dir.mk n fs ods) in *. change (Dir.name d) with n in H.
  set (root := pathcat path n) in *.
  assert (HFi := file_requests_exist root ow (child_files d)).
  assert (HDi : Forall (fun c => exists J, dir_requests root ow c J) (child_dirs d)).
  { apply Forall_forall. intros c _. apply dir_requests_exist. }
  assert (HF : Forall (fun x => forall v r v',
                 File.write x root ow v = (r, v') ->
                 exists J J', FS.journal v' = (FS.journal v ++ J)%list /\
                              file_requests root ow x (J ++ J')%list /\
                              (r = Ok tt -> J' = [])) (child_files d)).
  { apply Forall_forall. intros f _ v r0 v'. apply File_write_requests. }
  assert (HD : Forall (fun x => forall v r v',
                 Dir.write x root ow v = (r, v') ->
                 exists J J', FS.journal v' = (FS.journal v ++ J)%list /\
                              dir_requests root ow x (J ++ J')%list /\
                              (r = Ok tt -> J' = [])) (child_dirs d)).
  { eapply Forall_impl; [exact IH |]. intros c Hc v r0 v'. apply Hc. }
  destruct (Forall2_exists _ _ HFi) as (Fs0 & HFs0).
  destruct (Forall2_exists _ _ HDi) as (Ds0 & HDs0).
  apply IO_bind_inv in H as [(created & w1 & Hmk & H) | (Hr & r0 & Hmk & Hr0)].
  2:{ apply fs_create_directory_journal in Hmk.
      exists [FS.EvCreateDirectory root], (concat Fs0 ++ concat Ds0)%list.
      split; [exact Hmk |]. split; [by apply dir_requests_intro |].
      intros ->. by destruct (Hr tt). }
  apply fs_create_directory_journal in Hmk.
  apply IO_bind_inv in H as [([] & w2 & Hfiles & Hdirs) | (Hr & r0 & Hfiles & Hr0)].
  2:{ destruct (for_each_requests _ _ _ HFi HF _ _ _ Hfiles)
        as (J & J' & Fs & HJ & HFs & HRf & _).
      exists (FS.EvCreateDirectory root :: J), (J' ++ concat Ds0)%list.
      split; [by rewrite HJ, Hmk, <- app_assoc |].
      split; [| intros ->; by destruct (Hr tt)].
      replace ((FS.EvCreateDirectory root :: J) ++ J' ++ concat Ds0)%list
        with (FS.EvCreateDirectory root :: concat Fs ++ concat Ds0)%list
        by (by rewrite <- HFs, <- app_assoc).
      by apply dir_requests_intro. }
  destruct (for_each_requests _ _ _ HFi HF _ _ _ Hfiles)
    as (J & J' & Fs & HJ & HFs & HRf & HJ').
  rewrite (HJ' eq_refl), app_nil_r in HFs. subst J.
  destruct (for_each_requests _ _ _ HDi HD _ _ _ Hdirs)
    as (K & K' & Ds & HK & HDs & HRd & HK').
  exists (FS.EvCreateDirectory root :: concat Fs ++ K)%list, K'.
  split; [by rewrite HK, HJ, Hmk, <- !app_assoc |].
  split; [| exact HK'].
  replace ((FS.EvCreateDirectory root :: concat Fs ++ K) ++ K')%list
    with (FS.EvCreateDirectory root :: concat Fs ++ concat Ds)%list
    by (rewrite <- HDs; simpl; by rewrite <- app_assoc).
  by apply dir_requests_intro.
Qed.

(** ** Paths *)

Lemma lookup_app_dir q1 q2 D :
  FS.lookup (q1 ++ q2) D = FS.lookup q1 D ≫= FS.lookup q2.
Proof.
  revert D. induction q1 as [|c q1 IH]; intros D; [done |].
  simpl. destruct D as [|es]; [done |].
  destruct (FS.find_entry c es); [apply IH | done].
Qed.

Lemma append_cons c r b : String c r +:+ b = String c (r +:+ b).
Proof. reflexivity. Qed.

Lemma c_str_app a b : FS.c_str a = a -> FS.c_str (a +:+ b) = a +:+ FS.c_str b.
Proof.
  induction a as [|c r IH]; intros H; [done |].
  rewrite !append_cons. simpl in *.
  destruct (Ascii.eqb c FS.NUL); [discriminate |].
  injection H as H. by rewrite IH.
Qed.

Lemma c_str_pathcat path n :
  FS.c_str path = path -> FS.c_str n = n -> FS.c_str (pathcat path n) = pathcat path n.
Proof.
  intros Hp Hn. unfold pathcat. rewrite c_str_app by done. simpl. by rewrite Hn.
Qed.

Lemma split_nonempty s : FS.split s ≠ [].
Proof.
  destruct s as [|c r]; simpl; [done |].
  destruct (Ascii.eqb c PREFERRED_PATH_SEPARATOR); [done |].
  by destruct (FS.split r).
Qed.

Lemma split_pathcat a b : FS.split (pathcat a b) = (FS.split a ++ FS.split b)%list.
Proof.
  unfold pathcat. induction a as [|c r IH].
  - reflexivity.
  - rewrite append_cons. simpl.
    destruct (Ascii.eqb c PREFERRED_PATH_SEPARATOR); [by rewrite IH |].
    rewrite IH. pose proof (split_nonempty r). by destruct (FS.split r).
Qed.

Lemma split_no_separator n :
  str_mem PREFERRED_PATH_SEPARATOR n = false -> FS.split n = [n].
Proof.
  induction n as [|c r IH]; [done |]. cbn [str_mem FS.split].
  rewrite (Ascii.eqb_sym PREFERRED_PATH_SEPARATOR c).
  destruct (Ascii.eqb c PREFERRED_PATH_SEPARATOR); [discriminate |].
  intros H. by rewrite IH.
Qed.

Lemma valid_no_separator n :
  isValidFilename n = true -> str_mem PREFERRED_PATH_SEPARATOR n = false.
Proof.
  intros H. destruct (str_mem PREFERRED_PATH_SEPARATOR n) eqn:E; [| done].
  assert (isValidFilename n = false); [| congruence].
  apply isValidFilename_false. do 3 right.
  exists PREFERRED_PATH_SEPARATOR. by split.
Qed.

Lemma valid_not_special n :
  isValidFilename n = true -> n ≠ "" /\ n ≠ "." /\ n ≠ "..".
Proof.
  intros H. repeat split; intros ->; discriminate.
Qed.

Lemma portable_split n : portable n -> FS.split n = [n].
Proof. intros [H _]. by apply split_no_separator, valid_no_separator. Qed.

Lemma str_length_append (a b : string) :
  String.length (a +:+ b) = String.length a + String.length b.
Proof. induction a as [|c a IH]; [done |]. rewrite append_cons. simpl. by rewrite IH. Qed.

Lemma pathcat_length path n :
  String.length (pathcat path n) = String.length path + S (String.length n).
Proof. unfold pathcat. by rewrite str_length_append. Qed.

(** The walk along two runs of components is the walk along the second
    from where the first ends. *)
Lemma walk_app D cs1 cs2 cur :
  FS.walk D (cs1 ++ cs2) cur =
  match FS.walk D cs1 cur with
  | FS.At q => FS.walk D cs2 q
  | r => r
  end.
Proof.
  revert cur. induction cs1 as [|c cs1 IH]; intros cur; [done |].
  cbn [FS.walk app]. destruct (FS.lookup cur D) as [[]|]; [done | | done].
  destruct (String.eqb c "" || String.eqb c "."); [apply IH |].
  destruct (String.eqb c ".."); [apply IH |].
  destruct (Nat.ltb FS.NAME_MAX (String.length c)); [done | apply IH].
Qed.

Lemma walk_name D cur n es :
  FS.lookup cur D = Some (FS.Directory es) ->
  isValidFilename n = true -> String.length n <= FS.NAME_MAX ->
  FS.walk D [n] cur = FS.At (cur ++ [n]).
Proof.
  intros Hcur H Hlen. destruct (valid_not_special n H) as (H1 & H2 & H3).
  cbn [FS.walk]. rewrite Hcur.
  destruct (String.eqb_spec n ""); [done |].
  destruct (String.eqb_spec n "."); [done |].
  destruct (String.eqb_spec n ".."); [done |]. cbn [orb].
  by destruct (Nat.ltb_spec FS.NAME_MAX (String.length n)); [lia |].
Qed.

Lemma walk_name_refused D cur c :
  (forall es, FS.lookup cur D ≠ Some (FS.Directory es)) ->
  FS.walk D [c] cur = FS.NoEntry.
Proof.
  intros H. cbn [FS.walk].
  destruct (FS.lookup cur D) as [[|es]|] eqn:E; [done | by destruct (H es) | done].
Qed.

(** The place at which a walk arrives is a directory, or is to be an entry
    of one. *)
Lemma walk_At D cs cur q :
  FS.walk D cs cur = FS.At q -> q = cur \/
  exists es, FS.lookup (removelast q) D = Some (FS.Directory es) \/
             FS.lookup q D = Some (FS.Directory es).
Proof.
  revert cur. induction cs as [|c cs IH]; intros cur; cbn [FS.walk];
    [intros [= <-]; by left |].
  destruct (FS.lookup cur D) as [[|es]|] eqn:E; [done | | done].
  assert (Hcur : forall q', FS.walk D cs cur = FS.At q' -> q' = cur ->
                 exists es, FS.lookup (removelast q') D = Some (FS.Directory es) \/
                            FS.lookup q' D = Some (FS.Directory es)).
  { intros q' _ ->. exists es. by right. }
  destruct (String.eqb c "" || String.eqb c ".").
  { intros H. right. destruct (IH _ H) as [->|H']; [by eapply Hcur | done]. }
  destruct (String.eqb c "..").
  { intros H. right. destruct (IH _ H) as [->|H']; [| done].
    destruct cur as [|a cur' _] using rev_ind; [exists es; by right |].
    rewrite removelast_last. rewrite lookup_app_dir in E.
    destruct (FS.lookup cur' D) as [[|es']|] eqn:E'; [done | | done].
    exists es'. by right. }
  destruct (Nat.ltb FS.NAME_MAX (String.length c)); [done |].
  intros H. right. destruct (IH _ H) as [->|H']; [| done].
  exists es. left. by rewrite removelast_last.
Qed.

Lemma drop_trailing_empty_snoc cs n :
  n ≠ "" -> FS.drop_trailing_empty (cs ++ [n]) = (cs ++ [n])%list.
Proof.
  intros Hn. induction cs as [|c cs IH]; simpl.
  - by destruct (String.eqb_spec n "").
  - rewrite IH. by destruct cs.
Qed.

Lemma walk_cons D c cs cur :
  FS.walk D (c :: cs) cur =
  match FS.lookup cur D with
  | Some (FS.Directory _) =>
      if String.eqb c "" || String.eqb c "." then FS.walk D cs cur
      else if String.eqb c ".." then FS.walk D cs (removelast cur)
      else if Nat.ltb FS.NAME_MAX (String.length c) then FS.NameTooLong
      else FS.walk D cs (cur ++ [c])
  | _ => FS.NoEntry
  end.
Proof. reflexivity. Qed.

Lemma walk_all_empty D cs cur q :
  FS.drop_trailing_empty cs = [] -> FS.walk D cs cur = FS.At q -> q = cur.
Proof.
  induction cs as [|c cs IH]; cbn [FS.drop_trailing_empty FS.walk];
    [by intros _ [= <-] |].
  destruct (FS.drop_trailing_empty cs) as [|c' l]; [| done].
  destruct (String.eqb_spec c "") as [->|]; [| done]. intros _.
  destruct (FS.lookup cur D) as [[|es]|]; [done | | done].
  cbn [orb String.eqb]. by apply IH.
Qed.

(** Separators at the end of a path ask that what is before them be a
    directory, and change nothing else. *)
Lemma walk_drop_trailing_empty D cs cur q :
  FS.walk D cs cur = FS.At q ->
  FS.walk D (FS.drop_trailing_empty cs) cur = FS.At q.
Proof.
  revert cur. induction cs as [|c cs IH]; intros cur Hw; [done |].
  cbn [FS.drop_trailing_empty].
  destruct (FS.drop_trailing_empty cs) as [|c' l] eqn:El.
  - cbn [FS.walk] in Hw.
    destruct (FS.lookup cur D) as [[|es0]|] eqn:E; [done | | done].
    destruct (String.eqb_spec c "") as [->|Hc].
    + cbn [orb] in Hw. apply (walk_all_empty _ _ _ _ El) in Hw. by subst.
    + cbn [FS.walk]. rewrite E.
      destruct (String.eqb_spec c "") as [|_]; [done |]. cbn [orb] in *.
      destruct (String.eqb c ".");
        [apply (walk_all_empty _ _ _ _ El) in Hw; by subst |].
      destruct (String.eqb c "..");
        [apply (walk_all_empty _ _ _ _ El) in Hw; by subst |].
      destruct (Nat.ltb FS.NAME_MAX (String.length c)); [done |].
      apply (walk_all_empty _ _ _ _ El) in Hw. by subst.
  - rewrite walk_cons in Hw. rewrite walk_cons.
    destruct (FS.lookup cur D) as [[|es0]|] eqn:E; [done | | done].
    destruct (String.eqb c "" || String.eqb c "."); [by apply IH |].
    destruct (String.eqb c ".."); [by apply IH |].
    destruct (Nat.ltb FS.NAME_MAX (String.length c)); [done |].
    by apply IH.
Qed.

Lemma resolve_new_At path D q :
  FS.resolve path D = FS.At q -> FS.resolve_new path D = FS.At q.
Proof.
  unfold FS.resolve, FS.resolve_new.
  destruct (Nat.leb FS.PATH_MAX (String.length (FS.c_str path))); [done |].
  apply walk_drop_trailing_empty.
Qed.

(** The resolution of [path/n] for a path that leads to a directory and a
    name the system takes. *)
Lemma resolve_pathcat path n D Q es :
  FS.c_str path = path -> portable n ->
  String.length n <= FS.NAME_MAX ->
  String.length (pathcat path n) < FS.PATH_MAX ->
  FS.resolve path D = FS.At Q -> FS.lookup Q D = Some (FS.Directory es) ->
  FS.resolve (pathcat path n) D = FS.At (Q ++ [n]) /\
  FS.resolve_new (pathcat path n) D = FS.At (Q ++ [n]).
Proof.
  intros Hp Hn Hlen Hmax HQ Hes. unfold FS.resolve, FS.resolve_new in *.
  rewrite c_str_pathcat by (done || apply Hn).
  rewrite Hp in HQ. rewrite pathcat_length in Hmax.
  destruct (Nat.leb_spec FS.PATH_MAX (String.length path)) as [|_]; [lia |].
  rewrite pathcat_length.
  destruct (Nat.leb_spec FS.PATH_MAX (String.length path + S (String.length n)))
    as [|_]; [lia |].
  rewrite split_pathcat, (portable_split n Hn).
  rewrite drop_trailing_empty_snoc by (by destruct (valid_not_special n (proj1 Hn))).
  rewrite walk_app, HQ. split; eapply walk_name; try done; apply Hn.
Qed.

(** Under a path that leads to no directory nothing can be reached. *)
Lemma resolve_pathcat_refused path n D :
  FS.c_str path = path -> portable n ->
  (forall es, FS.reach path D ≠ Some (FS.Directory es)) ->
  (forall q, FS.resolve (pathcat path n) D ≠ FS.At q) /\
  (forall q, FS.resolve_new (pathcat path n) D ≠ FS.At q).
Proof.
  intros Hp Hn Hbad. unfold FS.reach, FS.resolve, FS.resolve_new in *.
  rewrite c_str_pathcat by (done || apply Hn).
  rewrite Hp in Hbad. rewrite pathcat_length.
  destruct (Nat.leb_spec FS.PATH_MAX (String.length path + S (String.length n)))
    as [|Hlt]; [done |].
  destruct (Nat.leb_spec FS.PATH_MAX (String.length path)) as [|_]; [lia |].
  rewrite split_pathcat, (portable_split n Hn).
  rewrite drop_trailing_empty_snoc by (by destruct (valid_not_special n (proj1 Hn))).
  rewrite walk_app.
  destruct (FS.walk D (FS.split path) []) as [Q| |]; [| done | done].
  by rewrite (walk_name_refused D Q n).
Qed.

Lemma last_split_pathcat path n :
  portable n -> last (FS.split (pathcat path n)) = Some n.
Proof.
  intros Hn. rewrite split_pathcat, (portable_split n Hn). apply last_snoc.
Qed.

Lemma filename_pathcat path n : portable n -> FS.filename (pathcat path n) = n.
Proof. intros Hn. unfold FS.filename. by rewrite last_split_pathcat. Qed.

Lemma ends_with_separator_pathcat path n :
  portable n -> FS.ends_with_separator (pathcat path n) = false.
Proof.
  intros Hn. unfold FS.ends_with_separator. rewrite last_split_pathcat by done.
  destruct n; [| done]. by destruct Hn.
Qed.

Lemma pathcat_nonempty path n : pathcat path n ≠ "".
Proof. unfold pathcat. by destruct path. Qed.

Lemma path_slash_pathcat path n c :
  portable n -> FS.path_slash (pathcat path n) c = pathcat (pathcat path n) c.
Proof.
  intros Hn. unfold FS.path_slash.
  rewrite ends_with_separator_pathcat by done.
  destruct (String.eqb_spec (pathcat path n) "") as [E|_]; [| done].
  by apply pathcat_nonempty in E.
Qed.

Lemma locate_pathcat path n D Q es :
  FS.c_str path = path -> portable n ->
  String.length n <= FS.NAME_MAX ->
  String.length (pathcat path n) < FS.PATH_MAX ->
  FS.resolve path D = FS.At Q -> FS.lookup Q D = Some (FS.Directory es) ->
  FS.locate (pathcat path n) D = FS.find_entry n es.
Proof.
  intros Hp Hn Hlen Hmax HQ Hes.
  destruct (resolve_pathcat path n D Q es Hp Hn Hlen Hmax HQ Hes) as [Hres _].
  rewrite (locate_At (pathcat path n) D (Q ++ [n])); [| | exact Hres].
  - rewrite lookup_app_dir, Hes. simpl. by destruct (FS.find_entry n es).
  - rewrite c_str_pathcat by (done || apply Hn). apply pathcat_nonempty.
Qed.

(** ** The disk *)

Lemma find_entry_set_entry c N es : FS.find_entry c (FS.set_entry c N es) = Some N.
Proof.
  induction es as [|[c' n] es IH]; simpl.
  - by rewrite String.eqb_refl.
  - destruct (String.eqb c c') eqn:E; simpl; rewrite E; [done | exact IH].
Qed.

Lemma set_entry_set_entry c N M es :
  FS.set_entry c N (FS.set_entry c M es) = FS.set_entry c N es.
Proof.
  induction es as [|[c' n] es IH]; simpl.
  - by rewrite String.eqb_refl.
  - destruct (String.eqb c c') eqn:E; simpl; rewrite E; [done | by rewrite IH].
Qed.

Lemma set_entry_fresh c N es :
  FS.find_entry c es = None -> FS.set_entry c N es = (es ++ [(c, N)])%list.
Proof.
  induction es as [|[c' n] es IH]; simpl; [done |].
  destruct (String.eqb c c'); [discriminate |]. intros H. by rewrite IH.
Qed.

Lemma find_entry_app c es es' :
  FS.find_entry c (es ++ es') =
  match FS.find_entry c es with Some N => Some N | None => FS.find_entry c es' end.
Proof.
  induction es as [|[c' n] es IH]; simpl; [done |].
  by destruct (String.eqb c c').
Qed.

Lemma find_entry_None c es : FS.find_entry c es = None <-> c ∉ map fst es.
Proof.
  induction es as [|[c' n] es IH]; simpl.
  - split; [intros _; apply not_elem_of_nil | done].
  - rewrite not_elem_of_cons. destruct (String.eqb_spec c c') as [->|Hne].
    + split; [discriminate | intros [? _]; done].
    + rewrite IH. naive_solver.
Qed.

(** With distinct names an entry is found under its name. *)
Lemma find_entry_In c N es :
  NoDup (map fst es) -> (c, N) ∈ es -> FS.find_entry c es = Some N.
Proof.
  induction es as [|[c' n] es IH]; intros Hnd Hin; [by apply elem_of_nil in Hin |].
  simpl in *. apply NoDup_cons in Hnd as [Hc' Hnd].
  apply elem_of_cons in Hin as [[= <- <-]|Hin].
  - by rewrite String.eqb_refl.
  - destruct (String.eqb_spec c c') as [->|_]; [| by apply IH].
    exfalso. apply Hc'. change c' with (fst (c', N)). by apply list_elem_of_fmap_2.
Qed.

Lemma lookup_app q1 q2 D :
  FS.lookup (q1 ++ q2) D = FS.lookup q1 D ≫= FS.lookup q2.
Proof.
  revert D. induction q1 as [|c q1 IH]; intros D; [done |].
  simpl. destruct D as [|es]; [done |].
  destruct (FS.find_entry c es); [apply IH | done].
Qed.

Lemma lookup_child Q c D es :
  FS.lookup Q D = Some (FS.Directory es) ->
  FS.lookup (Q ++ [c]) D = FS.find_entry c es.
Proof.
  intros H. rewrite lookup_app, H. simpl. by destruct (FS.find_entry c es).
Qed.

Lemma lookup_put Q N D X :
  FS.lookup Q D = Some X -> FS.lookup Q (FS.put Q N D) = Some N.
Proof.
  revert D. induction Q as [|c Q IH]; intros D H; [done |].
  simpl in *. destruct D as [|es]; [done |].
  destruct (FS.find_entry c es) as [child|] eqn:E; [| done].
  simpl. rewrite find_entry_set_entry. by apply IH.
Qed.

Lemma put_put Q N M D X :
  FS.lookup Q D = Some X -> FS.put Q N (FS.put Q M D) = FS.put Q N D.
Proof.
  revert D. induction Q as [|c Q IH]; intros D H; [done |].
  simpl in *. destruct D as [|es]; [done |].
  destruct (FS.find_entry c es) as [child|] eqn:E; [| done].
  simpl. rewrite find_entry_set_entry, set_entry_set_entry. by rewrite IH.
Qed.

Lemma put_child Q c N D es :
  FS.lookup Q D = Some (FS.Directory es) ->
  FS.put (Q ++ [c]) N D = FS.put Q (FS.Directory (FS.set_entry c N es)) D.
Proof.
  revert D. induction Q as [|a Q IH]; intros D H.
  - simpl in *. injection H as ->. simpl. by destruct (FS.find_entry c es).
  - simpl in H. destruct D as [|es0]; [done |].
    destruct (FS.find_entry a es0) as [child|] eqn:E; [| done].
    rewrite <- app_comm_cons. simpl. rewrite E.
    by rewrite (IH _ H).
Qed.

Lemma removelast_snoc {A} (l : list A) x : removelast (l ++ [x]) = l.
Proof. apply removelast_last. Qed.


Lemma set_entry_same c N es :
  FS.find_entry c es = Some N -> FS.set_entry c N es = es.
Proof.
  induction es as [|[c' n] es IH]; simpl; [done |].
  destruct (String.eqb_spec c c') as [->|]; [congruence |].
  intros H. by rewrite IH.
Qed.

Lemma put_same Q N D : FS.lookup Q D = Some N -> FS.put Q N D = D.
Proof.
  revert D. induction Q as [|c Q IH]; intros D H; simpl in *; [congruence |].
  destruct D as [|es]; [done |].
  destruct (FS.find_entry c es) as [child|] eqn:E; [| done].
  by rewrite (IH _ H), set_entry_same.
Qed.

Lemma put_snoc_twice Q c N N' D es :
  FS.lookup Q D = Some (FS.Directory es) ->
  FS.put (Q ++ [c]) N' (FS.put (Q ++ [c]) N D) =
  FS.put Q (FS.Directory (FS.set_entry c N' es)) D.
Proof.
  intros H. rewrite (put_child Q c N D es H).
  rewrite (put_child Q c N' _ (FS.set_entry c N es)) by (by eapply lookup_put).
  by rewrite (put_put _ _ _ _ _ H), set_entry_set_entry.
Qed.

Lemma lookup_put_snoc Q c N D es :
  FS.lookup Q D = Some (FS.Directory es) ->
  FS.lookup (Q ++ [c]) (FS.put (Q ++ [c]) N D) = Some N.
Proof.
  intros H. rewrite (put_child Q c N D es H).
  erewrite lookup_child by (by eapply lookup_put).
  apply find_entry_set_entry.
Qed.

Lemma find_entry_set_entry_ne c c' N es :
  c ≠ c' -> FS.find_entry c' (FS.set_entry c N es) = FS.find_entry c' es.
Proof.
  intros Hne. induction es as [|[a n] es IH]; simpl.
  - by destruct (String.eqb_spec c' c).
  - destruct (String.eqb_spec c a) as [->|Hca]; simpl.
    + by destruct (String.eqb_spec c' a).
    + destruct (String.eqb c' a); [done | exact IH].
Qed.

(** *** Directories that stay *)

Lemma keeps_directories_refl D : keeps_directories D D.
Proof. intros q es H. by exists es. Qed.

Lemma keeps_directories_trans D1 D2 D3 :
  keeps_directories D1 D2 -> keeps_directories D2 D3 -> keeps_directories D1 D3.
Proof. intros H12 H23 q es H. destruct (H12 q es H) as [es' H']. by eapply H23. Qed.

Lemma keeps_directories_file bytes N : keeps_directories (FS.RegularFile bytes) N.
Proof. intros [|c q] es H; simpl in H; discriminate. Qed.

Lemma keeps_directories_app es es' :
  keeps_directories (FS.Directory es) (FS.Directory (es ++ es')).
Proof.
  intros [|c q] es0 H; simpl in *; [by eexists |].
  rewrite find_entry_app. destruct (FS.find_entry c es); [by eexists | done].
Qed.

Lemma keeps_directories_set_entry c N es :
  (forall X, FS.find_entry c es = Some X -> keeps_directories X N) ->
  keeps_directories (FS.Directory es) (FS.Directory (FS.set_entry c N es)).
Proof.
  intros HX [|c' q] es0 H; [by eexists |]. cbn [FS.lookup] in *.
  destruct (String.eqb_spec c c') as [<-|Hne].
  - rewrite find_entry_set_entry.
    destruct (FS.find_entry c es) as [X|] eqn:E; [| done].
    by apply (HX X eq_refl q es0).
  - rewrite find_entry_set_entry_ne by done. by eexists.
Qed.

Lemma keeps_directories_put Q : forall X N D,
  FS.lookup Q D = Some X -> keeps_directories X N ->
  keeps_directories D (FS.put Q N D).
Proof.
  induction Q as [|c Q IH]; intros X N D HQ HXN.
  - simpl in *. by injection HQ as ->.
  - simpl in HQ. destruct D as [|es0]; [done |].
    destruct (FS.find_entry c es0) as [child|] eqn:E; [| done].
    cbn [FS.put]. rewrite E.
    intros [|c' q] es H; [by eexists |].
    cbn [FS.lookup] in *.
    destruct (String.eqb_spec c c') as [<-|Hne].
    + rewrite find_entry_set_entry. rewrite E in H.
      by apply (IH X N child HQ HXN q es).
    + rewrite find_entry_set_entry_ne by done. by eexists.
Qed.

Lemma walk_keeps D D' cs : forall cur q,
  keeps_directories D D' -> FS.walk D cs cur = FS.At q -> FS.walk D' cs cur = FS.At q.
Proof.
  induction cs as [|c cs IH]; intros cur q HDD; [done |].
  rewrite !walk_cons.
  destruct (FS.lookup cur D) as [[|es]|] eqn:E; [done | | done].
  destruct (HDD cur es E) as [es' ->].
  destruct (String.eqb c "" || String.eqb c "."); [by apply IH |].
  destruct (String.eqb c ".."); [by apply IH |].
  destruct (Nat.ltb FS.NAME_MAX (String.length c)); [done | by apply IH].
Qed.

Lemma resolve_keeps path D D' q :
  keeps_directories D D' -> FS.resolve path D = FS.At q -> FS.resolve path D' = FS.At q.
Proof.
  unfold FS.resolve. intros HDD.
  destruct (Nat.leb FS.PATH_MAX (String.length (FS.c_str path))); [done |].
  by apply walk_keeps.
Qed.

(** Adding entries to a directory of the disk, or replacing a regular file
    by another, leaves every path where it led. *)
Lemma resolve_put_more path D q Q acc more :
  FS.resolve path D = FS.At q ->
  FS.lookup Q D = Some (FS.Directory acc) ->
  FS.resolve path (FS.put Q (FS.Directory (acc ++ more)) D) = FS.At q.
Proof.
  intros Hq HQ. eapply resolve_keeps; [| exact Hq].
  eapply keeps_directories_put; [exact HQ | apply keeps_directories_app].
Qed.

(** ** Properties of every directory of a tree *)

Lemma every_dir_unfold P d :
  every_dir P d <-> P d /\ Forall (every_dir P) (child_dirs d).
Proof.
  unfold every_dir. rewrite Forall_cons. apply and_iff_compat_l.
  rewrite (descendants_unfold d).
  induction (child_dirs d) as [|c l IH]; simpl.
  - split; constructor.
  - rewrite (Forall_cons (fun δ => Forall P (δ :: descendants δ))).
    rewrite (Forall_cons P c), Forall_app, IH.
    rewrite (Forall_cons P c (descendants c)). tauto.
Qed.

Lemma image_unfold d :
  image d = FS.Directory (map file_entry (child_files d) ++ map dir_entry (child_dirs d)).
Proof. unfold child_files, child_dirs. by destruct d as [n fs [ds|]]. Qed.

(** ** Writing a tree to a fresh place *)

Lemma file_events_unfold root f :
  file_events root f =
  FS.EvOpenForWriting (pathcat root (File.name f)) ::
  match File.data_ f with
  | Some s => [FS.EvWrite (pathcat root (File.name f)) s]
  | None => []
  end.
Proof. reflexivity. Qed.

Lemma dir_events_unfold keep path d :
  dir_events keep path d =
  (FS.EvCreateDirectory (pathcat path (Dir.name d)) ::
   (if keep then [] else flat_map (file_events (pathcat path (Dir.name d))) (child_files d)) ++
   flat_map (dir_events keep (pathcat path (Dir.name d))) (child_dirs d))%list.
Proof. unfold child_files, child_dirs. by destruct d as [n fs [ds|]]. Qed.

(** [File::write] into a directory, at a name that is free or, with
    [isOverwrite], at a regular file. *)
Lemma File_write_stores f root ow w Qn acc :
  FS.c_str root = root -> portable (File.name f) ->
  String.length (File.name f) <= FS.NAME_MAX ->
  String.length (pathcat root (File.name f)) < FS.PATH_MAX ->
  FS.resolve root (FS.disk w) = FS.At Qn ->
  FS.lookup Qn (FS.disk w) = Some (FS.Directory acc) ->
  (FS.find_entry (File.name f) acc = None \/
   ow = true /\ exists old, FS.find_entry (File.name f) acc = Some (FS.RegularFile old)) ->
  exists w', File.write f root ow w = (Ok tt, w') /\
             FS.disk w' =
               FS.put Qn
                      (FS.Directory (FS.set_entry (File.name f)
                                                  (FS.RegularFile (File.data f)) acc))
                      (FS.disk w) /\
             FS.readdir_order w' = FS.readdir_order w /\
             FS.journal w' = (FS.journal w ++ file_events root f)%list.
Proof.
  intros Hroot Hn Hlen Hmax HQ Hacc Hthere.
  set (p := pathcat root (File.name f)).
  destruct (resolve_pathcat root (File.name f) (FS.disk w) Qn acc) as [Hres _];
    try done. fold p in Hres.
  assert (Hcstr : FS.c_str p = p) by (apply c_str_pathcat; [done | apply Hn]).
  assert (Hloc : FS.locate p (FS.disk w) = FS.find_entry (File.name f) acc)
    by (by eapply locate_pathcat).
  assert (Hkept : (if negb ow then isFile p else (mret false : IO bool)) w = (Ok false, w)).
  { destruct Hthere as [Hfresh | [-> _]]; [| done].
    destruct ow; simpl; [done |].
    rewrite isFile_run by (by eapply status_error_At). by rewrite Hloc, Hfresh. }
  set (w1 := FS.record (FS.EvOpenForWriting p) w).
  set (D1 := FS.put (Qn ++ [File.name f]) (FS.RegularFile "") (FS.disk w)).
  assert (Hopen : ofstream_open p w = (Ok true, FS.set_disk D1 w1)).
  { unfold ofstream_open. cbv zeta. fold w1.
    change (FS.disk w1) with (FS.disk w).
    rewrite Hres, Hcstr. unfold p at 1 2.
    rewrite ends_with_separator_pathcat by done.
    destruct (String.eqb_spec (pathcat root (File.name f)) "") as [E|_];
      [by apply pathcat_nonempty in E |].
    cbn [orb].
    rewrite (lookup_child _ _ _ _ Hacc).
    destruct Hthere as [Hfresh | [_ [old Hold]]].
    - rewrite Hfresh. by rewrite removelast_snoc, Hacc.
    - by rewrite Hold. }
  assert (Hres1 : FS.resolve p D1 = FS.At (Qn ++ [File.name f])).
  { eapply resolve_keeps; [| exact Hres]. unfold D1.
    destruct Hthere as [Hfresh | [_ [old Hold]]].
    - rewrite (put_child _ _ _ _ _ Hacc), set_entry_fresh by done.
      eapply keeps_directories_put; [exact Hacc | apply keeps_directories_app].
    - eapply keeps_directories_put; [| apply (keeps_directories_file old)].
      by rewrite (lookup_child _ _ _ _ Hacc). }
  unfold File.write. cbv zeta.
  change (root +:+ String PREFERRED_PATH_SEPARATOR (File.name_ f)) with p.
  rewrite (IO_bind_run _ _ _ _ _ Hkept). cbn [negb].
  rewrite (IO_bind_run _ _ _ _ _ Hopen). cbn [negb].
  unfold File.write_os, File.data. rewrite file_events_unfold. fold p.
  destruct (File.data_ f) as [s|].
  - eexists. split; [| split; [| split]].
    + unfold ofstream_write. cbv zeta.
      cbn [FS.disk FS.record FS.set_disk]. rewrite Hres1. unfold D1.
      rewrite (lookup_put_snoc _ _ _ _ _ Hacc). reflexivity.
    + cbn [FS.disk FS.record FS.set_disk]. unfold D1.
      by rewrite (put_snoc_twice _ _ _ _ _ _ Hacc).
    + reflexivity.
    + unfold w1. cbn [FS.journal FS.record FS.set_disk]. by rewrite <- app_assoc.
  - eexists. split; [reflexivity | split; [| split; reflexivity]].
    cbn [FS.disk FS.record FS.set_disk]. unfold D1.
    by rewrite (put_child _ _ _ _ _ Hacc).
Qed.

Lemma File_write_fresh f root ow w Qn acc :
  FS.c_str root = root -> portable (File.name f) ->
  String.length (File.name f) <= FS.NAME_MAX ->
  String.length (pathcat root (File.name f)) < FS.PATH_MAX ->
  FS.resolve root (FS.disk w) = FS.At Qn ->
  FS.lookup Qn (FS.disk w) = Some (FS.Directory acc) ->
  FS.find_entry (File.name f) acc = None ->
  exists w', File.write f root ow w = (Ok tt, w') /\
             FS.disk w' = FS.put Qn (FS.Directory (acc ++ [file_entry f])) (FS.disk w) /\
             FS.readdir_order w' = FS.readdir_order w /\
             FS.journal w' = (FS.journal w ++ file_events root f)%list.
Proof.
  intros Hroot Hn Hlen Hmax HQ Hacc Hfresh.
  destruct (File_write_stores f root ow w Qn acc) as (w' & H1 & H2 & H3 & H4);
    try done; [by left |].
  exists w'. split; [done |]. split; [| done].
  by rewrite H2, set_entry_fresh.
Qed.

Lemma File_write_skips f path w bytes :
  FS.locate (pathcat path (File.name f)) (FS.disk w) = Some (FS.RegularFile bytes) ->
  File.write f path false w = (Ok tt, w).
Proof.
  intros H. unfold File.write. cbv zeta.
  change (path +:+ String PREFERRED_PATH_SEPARATOR (File.name_ f))
    with (pathcat path (File.name f)).
  cbn [negb].
  assert (Hkept : isFile (pathcat path (File.name f)) w = (Ok true, w)).
  { rewrite isFile_run by (by eapply status_error_locate). by rewrite H. }
  by rewrite (IO_bind_run _ _ _ _ _ Hkept).
Qed.

(** X4.  [File::write] without overwrite does nothing, and reports no
    error, when a regular file of that name is already there. *)
Theorem File_write_keeps_an_existing_file f path w bytes :
  FS.locate (pathcat path (File.name f)) (FS.disk w) = Some (FS.RegularFile bytes) ->
  File.write f path false w = (Ok tt, w).
Proof. apply File_write_skips. Qed.

Lemma File_write_keeps_an_existing_file_witness :
  let w := FS.mkWorld (FS.Directory [("tmp", FS.Directory [("a.txt", FS.RegularFile "old")])])
                      (fun l => l) [] in
  File.write (File.mk "a.txt" (Some "new")) "/tmp" false w = (Ok tt, w).
Proof.
  intros w.
  apply (File_write_keeps_an_existing_file (File.mk "a.txt" (Some "new")) "/tmp" w "old").
  reflexivity.
Defined.

Lemma for_each_fresh {A} (body : A -> IO unit) (name : A -> string)
    (entry : A -> string * FS.Node) (events : A -> list FS.Event)
    (root : string) (Qn : list string) (l : list A) :
  (forall x, fst (entry x) = name x) ->
  Forall (fun x => forall w acc,
            FS.resolve root (FS.disk w) = FS.At Qn ->
            FS.lookup Qn (FS.disk w) = Some (FS.Directory acc) ->
            FS.find_entry (name x) acc = None ->
            exists w', body x w = (Ok tt, w') /\
                       FS.disk w' = FS.put Qn (FS.Directory (acc ++ [entry x])) (FS.disk w) /\
                       FS.readdir_order w' = FS.readdir_order w /\
                       FS.journal w' = (FS.journal w ++ events x)%list) l ->
  forall w acc,
    FS.resolve root (FS.disk w) = FS.At Qn ->
    FS.lookup Qn (FS.disk w) = Some (FS.Directory acc) ->
    NoDup (map fst acc ++ map name l) ->
    exists w', for_each body l w = (Ok tt, w') /\
               FS.disk w' = FS.put Qn (FS.Directory (acc ++ map entry l)) (FS.disk w) /\
               FS.readdir_order w' = FS.readdir_order w /\
               FS.journal w' = (FS.journal w ++ flat_map events l)%list.
Proof.
  intros Hname. induction 1 as [|x l Hx _ IH]; intros w acc Hroot Hacc Hnd.
  - exists w. simpl. rewrite !app_nil_r. by rewrite (put_same _ _ _ Hacc).
  - simpl in Hnd.
    assert (Hfresh : FS.find_entry (name x) acc = None).
    { apply find_entry_None. apply NoDup_app in Hnd as (_ & Hdis & _).
      intros Hin. apply (Hdis _ Hin). left. }
    destruct (Hx w acc Hroot Hacc Hfresh) as (w1 & Hrun & Hdisk & Hord & Hj).
    assert (Hacc1 : FS.lookup Qn (FS.disk w1) = Some (FS.Directory (acc ++ [entry x]))).
    { rewrite Hdisk. by eapply lookup_put. }
    assert (Hroot1 : FS.resolve root (FS.disk w1) = FS.At Qn).
    { rewrite Hdisk. by apply resolve_put_more. }
    destruct (IH w1 (acc ++ [entry x])%list Hroot1 Hacc1)
      as (w2 & Hrun2 & Hdisk2 & Hord2 & Hj2).
    { rewrite map_app. simpl. rewrite Hname, <- app_assoc. exact Hnd. }
    exists w2. split; [| split; [| split]].
    + rewrite for_each_cons. by rewrite (IO_bind_run _ _ _ _ _ Hrun).
    + rewrite Hdisk2, Hdisk. rewrite (put_put _ _ _ _ _ Hacc).
      by rewrite <- app_assoc.
    + congruence.
    + rewrite Hj2, Hj. simpl. by rewrite <- app_assoc.
Qed.

Lemma well_named_unfold d :
  well_named d <->
  (portable (Dir.name d) /\ Forall (fun f => portable (File.name f)) (child_files d)) /\
  Forall well_named (child_dirs d).
Proof. apply every_dir_unfold. Qed.

Lemma distinct_names_unfold d :
  distinct_names d <->
  NoDup (map File.name (child_files d) ++ map Dir.name (child_dirs d)) /\
  Forall distinct_names (child_dirs d).
Proof. apply every_dir_unfold. Qed.

Lemma short_names_unfold d :
  short_names d <->
  (String.length (Dir.name d) <= FS.NAME_MAX /\
   Forall (fun f => String.length (File.name f) <= FS.NAME_MAX) (child_files d)) /\
  Forall short_names (child_dirs d).
Proof. apply every_dir_unfold. Qed.

Lemma list_max_elem (l : list nat) x : x ∈ l -> x <= list_max l.
Proof.
  induction l as [|a l IH]; [by intros ?%elem_of_nil |].
  intros [->|H]%elem_of_cons; simpl; [lia |]. specialize (IH H). lia.
Qed.

Lemma longest_path_unfold d :
  longest_path d =
  S (String.length (Dir.name d)) +
  Nat.max (list_max (map (fun f => S (String.length (File.name f))) (child_files d)))
          (list_max (map longest_path (child_dirs d))).
Proof. unfold child_files, child_dirs. by destruct d as [n fs [ds|]]. Qed.

Lemma longest_path_file d f :
  f ∈ child_files d ->
  S (String.length (Dir.name d)) + S (String.length (File.name f)) <= longest_path d.
Proof.
  intros Hf. rewrite longest_path_unfold.
  pose proof (list_max_elem
                (map (fun f => S (String.length (File.name f))) (child_files d))
                (S (String.length (File.name f)))) as H.
  specialize (H (list_elem_of_fmap_2 _ _ _ Hf)). lia.
Qed.

Lemma longest_path_dir d c :
  c ∈ child_dirs d ->
  S (String.length (Dir.name d)) + longest_path c <= longest_path d.
Proof.
  intros Hc. rewrite (longest_path_unfold d).
  pose proof (list_max_elem (map longest_path (child_dirs d)) (longest_path c)) as H.
  specialize (H (list_elem_of_fmap_2 _ _ _ Hc)). lia.
Qed.

Lemma longest_path_root d : S (String.length (Dir.name d)) <= longest_path d.
Proof. rewrite longest_path_unfold. lia. Qed.

(** [fs::create_directory] on [path/n], where [path] leads to a directory
    that has no entry [n]. *)
Lemma createDirectory_fresh path n w Q es :
  FS.c_str path = path -> portable n ->
  String.length n <= FS.NAME_MAX ->
  String.length (pathcat path n) < FS.PATH_MAX ->
  FS.resolve path (FS.disk w) = FS.At Q ->
  FS.lookup Q (FS.disk w) = Some (FS.Directory es) ->
  FS.find_entry n es = None ->
  createDirectory (pathcat path n) w =
    (Ok true,
     FS.set_disk (FS.put Q (FS.Directory (es ++ [(n, FS.Directory [])])) (FS.disk w))
                 (FS.record (FS.EvCreateDirectory (pathcat path n)) w)).
Proof.
  intros Hpath Hn Hlen Hmax HQ Hes Hfresh.
  destruct (resolve_pathcat path n (FS.disk w) Q es) as [_ Hres]; try done.
  unfold createDirectory, fs_create_directory. cbv zeta.
  change (FS.disk (FS.record _ w)) with (FS.disk w).
  rewrite c_str_pathcat by (done || apply Hn).
  destruct (String.eqb_spec (pathcat path n) "") as [E|_]; [by apply pathcat_nonempty in E |].
  rewrite Hres, (lookup_child _ _ _ _ Hes), Hfresh, removelast_snoc, Hes.
  by rewrite (put_child _ _ _ _ _ Hes), set_entry_fresh.
Qed.

(** [fs::create_directory] on a path that names a directory. *)
Lemma createDirectory_existing path w :
  FS.is_directory path w = true ->
  createDirectory path w = (Ok false, FS.record (FS.EvCreateDirectory path) w).
Proof.
  unfold FS.is_directory. intros H.
  destruct (FS.locate path (FS.disk w)) as [[|es]|] eqn:E; [done | | done].
  apply locate_Some_At in E as (Hne & q & Hq & Hes).
  unfold createDirectory, fs_create_directory. cbv zeta.
  change (FS.disk (FS.record _ w)) with (FS.disk w).
  destruct (String.eqb_spec (FS.c_str path) ""); [done |].
  by rewrite (resolve_new_At _ _ _ Hq), Hes.
Qed.

Lemma Dir_write_fresh d :
  forall path ow w Q es,
    well_named d -> distinct_names d -> short_names d ->
    FS.c_str path = path ->
    String.length path + longest_path d < FS.PATH_MAX ->
    FS.resolve path (FS.disk w) = FS.At Q ->
    FS.lookup Q (FS.disk w) = Some (FS.Directory es) ->
    FS.find_entry (Dir.name d) es = None ->
    exists w', Dir.write d path ow w = (Ok tt, w') /\
               FS.disk w' =
                 FS.put Q (FS.Directory (es ++ [dir_entry d])) (FS.disk w) /\
               FS.readdir_order w' = FS.readdir_order w /\
               FS.journal w' = (FS.journal w ++ dir_events false path d)%list.
Proof.
  induction d as [n fs ods IH] using Dir_ind'.
  intros path ow w Q es Hwn Hdn Hsn Hpath Hmax HQ Hes Hfresh.
  set (d := Dir.mk n fs ods) in *.
  apply well_named_unfold in Hwn as [[Hn Hfn] Hwc].
  apply distinct_names_unfold in Hdn as [Hnd Hdc].
  apply short_names_unfold in Hsn as [[Hln Hlf] Hsc].
  pose proof (longest_path_root d) as Hroot_len.
  change (Dir.name d) with n in *.
  set (root := pathcat path n).
  assert (Hroot : FS.c_str root = root) by (apply c_str_pathcat; [done | apply Hn]).
  assert (Hrlen : String.length root = String.length path + S (String.length n))
    by apply pathcat_length.
  (* the directory is created *)
  set (w1 := FS.set_disk (FS.put Q (FS.Directory (es ++ [(n, FS.Directory [])])) (FS.disk w))
                         (FS.record (FS.EvCreateDirectory root) w)).
  assert (Hmk : createDirectory root w = (Ok true, w1)).
  { apply createDirectory_fresh; try done. rewrite pathcat_length. lia. }
  assert (HQ1 : FS.resolve path (FS.disk w1) = FS.At Q).
  { unfold w1. cbn [FS.disk FS.set_disk]. by apply resolve_put_more. }
  assert (Hes1 : FS.lookup Q (FS.disk w1) = Some (FS.Directory (es ++ [(n, FS.Directory [])]))).
  { unfold w1. cbn [FS.disk FS.set_disk]. by eapply lookup_put. }
  assert (Hres1 : FS.resolve root (FS.disk w1) = FS.At (Q ++ [n])).
  { eapply resolve_pathcat; try done. fold root. lia. }
  assert (H1 : FS.lookup (Q ++ [n]) (FS.disk w1) = Some (FS.Directory [])).
  { rewrite (lookup_child _ _ _ _ Hes1), find_entry_app, Hfresh. simpl.
    by rewrite String.eqb_refl. }
  (* the child files are written *)
  destruct (for_each_fresh (fun var => File.write var root ow) File.name file_entry
              (file_events root) root (Q ++ [n]) (child_files d))
    with (w := w1) (acc := @nil (string * FS.Node))
    as (w2 & Hfiles & Hdisk2 & Hord2 & Hj2).
  { done. }
  { apply Forall_forall. intros f Hf v acc Hv Hacc Hfr.
    apply File_write_fresh; try done.
    - by apply (proj1 (Forall_forall _ _) Hfn).
    - by apply (proj1 (Forall_forall _ _) Hlf).
    - rewrite pathcat_length, Hrlen.
      pose proof (longest_path_file d f Hf) as Hlp. change (Dir.name d) with n in Hlp. lia. }
  { exact Hres1. }
  { exact H1. }
  { simpl. by apply NoDup_app in Hnd as (? & _ & _). }
  assert (H2 : FS.lookup (Q ++ [n]) (FS.disk w2) =
               Some (FS.Directory (map file_entry (child_files d)))).
  { rewrite Hdisk2. by eapply lookup_put. }
  assert (Hres2 : FS.resolve root (FS.disk w2) = FS.At (Q ++ [n])).
  { rewrite Hdisk2. by apply (resolve_put_more _ _ _ _ []). }
  (* the child directories are written *)
  destruct (for_each_fresh (fun var => Dir.write var root ow) Dir.name dir_entry
              (dir_events false root) root (Q ++ [n]) (child_dirs d))
    with (w := w2) (acc := map file_entry (child_files d))
    as (w3 & Hdirs & Hdisk3 & Hord3 & Hj3).
  { done. }
  { unfold child_dirs, d. cbn [Dir.subDirs_].
    apply Forall_forall. intros c Hc v acc Hv Hacc Hfr.
    apply (proj1 (Forall_forall _ _) IH c Hc root ow v (Q ++ [n])%list acc); try done.
    - by apply (proj1 (Forall_forall _ _) Hwc).
    - by apply (proj1 (Forall_forall _ _) Hdc).
    - by apply (proj1 (Forall_forall _ _) Hsc).
    - pose proof (longest_path_dir d c Hc) as Hlp. change (Dir.name d) with n in Hlp. lia. }
  { exact Hres2. }
  { exact H2. }
  { rewrite map_map. exact Hnd. }
  exists w3. split; [| split; [| split]].
  - rewrite Dir_write_unfold. fold root.
    rewrite (IO_bind_run _ _ _ _ _ Hmk).
    by rewrite (IO_bind_run _ _ _ _ _ Hfiles).
  - rewrite Hdisk3, Hdisk2.
    rewrite (put_put _ _ _ _ _ H1).
    rewrite (put_child _ _ _ _ _ Hes1).
    unfold w1. cbn [FS.disk FS.set_disk].
    rewrite (put_put _ _ _ _ _ Hes).
    f_equal. f_equal.
    rewrite <- set_entry_fresh by done. rewrite set_entry_set_entry.
    rewrite set_entry_fresh by done.
    unfold dir_entry. by rewrite (image_unfold d).
  - by rewrite Hord3, Hord2.
  - rewrite Hj3, Hj2. unfold w1. cbn [FS.journal FS.record FS.set_disk].
    rewrite (dir_events_unfold false path d). change (Dir.name d) with n. fold root.
    by rewrite <- !app_assoc.
Qed.


(** ** Reading a stream in chunks *)

Lemma str_app_assoc a b c : (a +:+ b) +:+ c = a +:+ (b +:+ c).
Proof. induction a as [|x r IH]; [done |]. by rewrite !append_cons, IH. Qed.

Lemma str_take_drop n s : str_take n s +:+ str_drop n s = s.
Proof.
  revert s. induction n as [|n IH]; intros [|c r]; simpl; try done;
    by rewrite append_cons, IH.
Qed.

Lemma str_drop_length n s : String.length (str_drop n s) = String.length s - n.
Proof.
  revert s. induction n as [|n IH]; intros [|c r]; simpl; try done; lia.
Qed.

Lemma read_chunks_all fuel ins data :
  String.length ins <= fuel ->
  File.read_chunks fuel ins data = (data +:+ ins, "").
Proof.
  assert (Hpos : 0 < _BUFFER_SIZE) by (unfold _BUFFER_SIZE; lia).
  revert ins data. induction fuel as [|fuel IH]; intros ins data Hlen.
  - destruct ins; [| simpl in Hlen; lia].
    unfold File.read_chunks, File.istream_read.
    destruct (Nat.leb_spec _BUFFER_SIZE (String.length "")) as [H|H];
      [simpl in H; lia | done].
  - cbn [File.read_chunks]. unfold File.istream_read.
    destruct (Nat.leb_spec _BUFFER_SIZE (String.length ins)) as [H|H]; [| done].
    rewrite IH by (rewrite str_drop_length; lia).
    by rewrite str_app_assoc, str_take_drop.
Qed.

Lemma str_app_nil_r (s : string) : s +:+ "" = s.
Proof. induction s as [|a s IH]; [done |]. by rewrite append_cons, IH. Qed.

Lemma str_size_app (a b : string) : str_size (a +:+ b) = (str_size a + str_size b)%N.
Proof.
  unfold str_size. induction a as [|c a IH]; [done |].
  rewrite append_cons. cbn [String.length]. lia.
Qed.

Lemma bytes_left_start kind seq :
  kind ≠ OfDirectory -> bytes_left (mk_istream kind seq 0 false) = seq.
Proof.
  intros Hk. unfold bytes_left. cbn [is_kind is_seq is_gpos].
  destruct kind; [| | done];
    (destruct (N.leb_spec (str_size seq) 0) as [H|H]; [| done]);
    destruct seq; [done | unfold str_size in H; simpl in H; lia
                  | done | unfold str_size in H; simpl in H; lia].
Qed.

Lemma String_max_size_fits a b :
  (a + b <= String_max_size)%N -> N.ltb String_max_size (size_t_add a b) = false.
Proof.
  unfold String_max_size, size_t_add, SIZE_MAX_succ. intros H.
  apply N.ltb_ge. rewrite N.mod_small; lia.
Qed.

(** On a stream over a file or a string that has not failed the whole
    sequence is appended, from its start. *)
Lemma shl_IStream_all this seq pos :
  (File.size this + str_size seq <= String_max_size)%N ->
  File.shl_IStream this (mk_istream Positionable seq pos false) =
  (Ok tt,
   (File.mk (File.name this) (Some (File.data this +:+ seq)),
    mk_istream Positionable seq (str_size seq) true)).
Proof.
  intros Hfit. unfold File.shl_IStream, seekg, seekoff_end, seekoff_beg, tellg.
  cbn [is_fail is_kind is_seq is_gpos].
  assert (Hsize : File.size this =
                  str_size (File.data match File.data_ this with
                                      | Some _ => this
                                      | None => File.mk (File.name_ this) (Some "")
                                      end)).
  { by destruct this as [n [s|]]. }
  rewrite <- Hsize, String_max_size_fits by done.
  rewrite (bytes_left_start Positionable) by done.
  rewrite read_chunks_all by done.
  destruct this as [n [s|]]; cbn [File.data_ File.name_ File.data File.name];
    do 4 f_equal; unfold str_size; simpl; lia.
Qed.

(** On a stream that has failed, or that cannot be positioned, no byte is
    read: [reserve] throws when the payload is empty or absent, and
    otherwise the call changes neither the payload nor what the stream has
    to deliver. *)
Lemma shl_IStream_unread this stm :
  is_fail stm = true \/ is_kind stm = Sequential ->
  (File.size this <= String_max_size)%N ->
  File.shl_IStream this stm =
  (if N.eqb (File.size this) 0 then Throw length_error else Ok tt,
   (File.mk (File.name this) (Some (File.data this)),
    mk_istream (is_kind stm) (is_seq stm) (is_gpos stm) true)).
Proof.
  intros Hstm Hfit.
  assert (E1 : seekg seekoff_end stm =
               mk_istream (is_kind stm) (is_seq stm) (is_gpos stm) true).
  { unfold seekg, seekoff_end. destruct stm as [k q g [|]]; [done |].
    destruct Hstm as [H|H]; simpl in H; [done | by subst k]. }
  unfold File.shl_IStream. rewrite E1. unfold seekg, tellg. cbn [is_fail is_kind is_seq is_gpos].
  assert (Hsize : File.size this =
                  str_size (File.data match File.data_ this with
                                      | Some _ => this
                                      | None => File.mk (File.name_ this) (Some "")
                                      end)).
  { by destruct this as [n [s|]]. }
  rewrite <- Hsize.
  destruct (N.eqb_spec (File.size this) 0) as [E|E].
  - rewrite E. change (N.ltb String_max_size (size_t_add 0 (SIZE_MAX_succ - 1))) with true.
    cbv iota. by destruct this as [n [s|]].
  - assert (Hno : N.ltb String_max_size
                    (size_t_add (File.size this) (SIZE_MAX_succ - 1)) = false).
    { apply N.ltb_ge. unfold size_t_add, SIZE_MAX_succ, String_max_size in *.
      replace (File.size this + (2 ^ 64 - 1))%N
        with ((File.size this - 1) + 1 * 2 ^ 64)%N by lia.
      rewrite N.Div0.mod_add, N.mod_small; lia. }
    rewrite Hno. simpl.
    destruct this as [n [s|]]; cbn [File.data_ File.name_ File.data File.name] in *;
      [| done].
    rewrite str_app_nil_r. do 4 f_equal. lia.
Qed.

(** A directory opened as a file reports an end no string can hold. *)
Lemma shl_IStream_directory this seq pos :
  (File.size this <= String_max_size)%N ->
  fst (File.shl_IStream this (mk_istream OfDirectory seq pos false)) = Throw length_error.
Proof.
  intros Hfit. unfold File.shl_IStream, seekg, seekoff_end, seekoff_beg, tellg.
  cbn [is_fail is_kind is_seq is_gpos].
  assert (Hsize : File.size this =
                  str_size (File.data match File.data_ this with
                                      | Some _ => this
                                      | None => File.mk (File.name_ this) (Some "")
                                      end)).
  { by destruct this as [n [s|]]. }
  rewrite <- Hsize.
  assert (Hyes : N.ltb String_max_size (size_t_add (File.size this) streamoff_max) = true).
  { apply N.ltb_lt. unfold size_t_add, SIZE_MAX_succ, String_max_size, streamoff_max in *.
    rewrite N.mod_small; lia. }
  by rewrite Hyes.
Qed.

(** X3.  [operator<<(IStream&)] positions the stream at its end to learn
    its size and then at its start.  On a stream over a file or a string
    that has not failed it appends the whole sequence behind the stream to
    the payload, from the first byte on whatever the get position was,
    allocating the payload if it is absent, and leaves the stream failed at
    its end, whatever the length of the sequence against the size of the
    buffer.  On a stream that has failed, or that cannot be positioned, it
    reads nothing: it throws [std::length_error] when the payload is absent
    or empty, and otherwise leaves the payload and the bytes of the stream
    as they were.  On a directory opened as a file it throws
    [std::length_error].  The payloads are those a string can hold. *)
Theorem shl_IStream_reads_the_whole_stream (this : File.t) :
  (forall seq pos,
      (File.size this + str_size seq <= String_max_size)%N ->
      File.shl_IStream this (mk_istream Positionable seq pos false) =
      (Ok tt,
       (File.mk (File.name this) (Some (File.data this +:+ seq)),
        mk_istream Positionable seq (str_size seq) true))) /\
  (forall stm,
      is_fail stm = true \/ is_kind stm = Sequential ->
      (File.size this <= String_max_size)%N ->
      File.shl_IStream this stm =
      (if N.eqb (File.size this) 0 then Throw length_error else Ok tt,
       (File.mk (File.name this) (Some (File.data this)),
        mk_istream (is_kind stm) (is_seq stm) (is_gpos stm) true))) /\
  (forall seq pos,
      (File.size this <= String_max_size)%N ->
      fst (File.shl_IStream this (mk_istream OfDirectory seq pos false)) =
      Throw length_error).
Proof.
  split; [apply shl_IStream_all |].
  split; [apply shl_IStream_unread | apply shl_IStream_directory].
Qed.

Lemma shl_IStream_reads_the_whole_stream_witness :
  File.shl_IStream (File.mk "a" (Some "ab")) (mk_istream Positionable "xyz" 2 false) =
    (Ok tt, (File.mk "a" (Some "abxyz"), mk_istream Positionable "xyz" 3 true)) /\
  File.shl_IStream (File.mk "a" (Some "ab")) (mk_istream Sequential "xyz" 0 false) =
    (Ok tt, (File.mk "a" (Some "ab"), mk_istream Sequential "xyz" 0 true)) /\
  File.shl_IStream (File.mk "a" None) (mk_istream Sequential "xyz" 0 false) =
    (Throw length_error, (File.mk "a" (Some ""), mk_istream Sequential "xyz" 0 true)) /\
  fst (File.shl_IStream (File.mk "a" None) (mk_istream OfDirectory "" 0 false)) =
    Throw length_error.
Proof.
  destruct (shl_IStream_reads_the_whole_stream (File.mk "a" (Some "ab"))) as (H1 & H2 & _).
  destruct (shl_IStream_reads_the_whole_stream (File.mk "a" None)) as (_ & H3 & H4).
  split; [apply (H1 "xyz" 2%N); by vm_compute |].
  split; [apply (H2 (mk_istream Sequential "xyz" 0 false)); [by right | by vm_compute] |].
  split; [apply (H3 (mk_istream Sequential "xyz" 0 false)); [by right | by vm_compute] |].
  apply (H4 "" 0%N). by vm_compute.
Defined.

(** ** Reading a tree back *)

Lemma File_fromDiskPath_run path w bytes :
  FS.locate path (FS.disk w) = Some (FS.RegularFile bytes) ->
  (str_size bytes <= String_max_size)%N ->
  File.fromDiskPath path w = (Ok (File.mk (filenameEx path) (Some bytes)), w).
Proof.
  intros H Hfit. unfold File.fromDiskPath.
  assert (Hopen : ifstream_open path w =
                  (Ok (Some (mk_istream Positionable bytes 0 false)), w)).
  { unfold ifstream_open, observe. by rewrite H. }
  rewrite (IO_bind_run _ _ _ _ _ Hopen).
  by rewrite shl_IStream_all.
Qed.

Lemma filter_map_comm {A B} (f : A -> B) (P : B -> Prop) `{forall y, Decision (P y)}
    (l : list A) :
  filter P (map f l) = map f (filter (fun x => P (f x)) l).
Proof.
  induction l as [|x l IH]; [done |]. simpl.
  rewrite !filter_cons. destruct (decide (P (f x))); simpl; by rewrite IH.
Qed.

Lemma fs_directory_iterator_run path w es :
  FS.locate path (FS.disk w) = Some (FS.Directory es) ->
  fs_directory_iterator path w =
    (Ok (map (fun e => (FS.path_slash path (fst e), snd e)) (FS.readdir_order w es)), w).
Proof. intros H. unfold fs_directory_iterator. by rewrite H. Qed.

Lemma getAllDirectorys_run path w es :
  FS.locate path (FS.disk w) = Some (FS.Directory es) ->
  getAllDirectorys path w =
    (Ok (map (fun e => FS.path_slash path (fst e))
             (filter (fun e => node_is_directory (snd e)) (FS.readdir_order w es))), w).
Proof.
  intros H. unfold getAllDirectorys.
  assert (Hd : isDirectory path w = (Ok true, w)).
  { rewrite isDirectory_run by (by eapply status_error_locate). by rewrite H. }
  rewrite (IO_bind_run _ _ _ _ _ Hd). cbn [negb].
  rewrite (IO_bind_run _ _ _ _ _ (fs_directory_iterator_run _ _ _ H)).
  unfold mret, IO_ret. do 2 f_equal.
  rewrite (filter_map_comm _ (fun var => node_is_directory (snd var))).
  by rewrite map_map.
Qed.

Lemma getAllFiles_run path w es :
  FS.locate path (FS.disk w) = Some (FS.Directory es) ->
  getAllFiles path w =
    (Ok (map (fun e => FS.path_slash path (fst e))
             (filter (fun e => node_is_regular_file (snd e)) (FS.readdir_order w es))), w).
Proof.
  intros H. unfold getAllFiles.
  assert (Hd : isDirectory path w = (Ok true, w)).
  { rewrite isDirectory_run by (by eapply status_error_locate). by rewrite H. }
  rewrite (IO_bind_run _ _ _ _ _ Hd). cbn [negb].
  rewrite (IO_bind_run _ _ _ _ _ (fs_directory_iterator_run _ _ _ H)).
  unfold mret, IO_ret. do 2 f_equal.
  rewrite (filter_map_comm _ (fun var => node_is_regular_file (snd var))).
  by rewrite map_map.
Qed.

(** The entries of each kind that a directory listing holds, whatever the
    order of the listing. *)
Lemma filter_all {A} (P : A -> Prop) `{forall x, Decision (P x)} (l : list A) :
  Forall P l -> filter P l = l.
Proof.
  induction 1 as [|a l Ha _ IH]; [done |].
  by rewrite filter_cons, decide_True, IH.
Qed.

Lemma dir_entries_are_directories (ds : list Dir.t) :
  Forall (fun e => node_is_directory (snd e)) (map dir_entry ds).
Proof.
  apply Forall_fmap, Forall_forall. intros c _.
  unfold dir_entry. simpl. by rewrite image_unfold.
Qed.

Lemma dir_entries_are_not_files (ds : list Dir.t) :
  Forall (fun e => ~ node_is_regular_file (snd e)) (map dir_entry ds).
Proof.
  apply Forall_fmap, Forall_forall. intros c _.
  unfold dir_entry. simpl. rewrite image_unfold. simpl. tauto.
Qed.

Lemma file_entries_are_files (fs : list File.t) :
  Forall (fun e => node_is_regular_file (snd e)) (map file_entry fs).
Proof. apply Forall_fmap, Forall_forall. by intros f _. Qed.

Lemma file_entries_are_not_directories (fs : list File.t) :
  Forall (fun e => ~ node_is_directory (snd e)) (map file_entry fs).
Proof. apply Forall_fmap, Forall_forall. intros f _. simpl. tauto. Qed.

Lemma listed_directories (fs : list File.t) (ds : list Dir.t) σ :
  σ ≡ₚ (map file_entry fs ++ map dir_entry ds)%list ->
  exists ds', filter (fun e => node_is_directory (snd e)) σ = map dir_entry ds' /\
              ds ≡ₚ ds'.
Proof.
  intros Hσ. apply Permutation_map_inv.
  rewrite Hσ, filter_app.
  rewrite (filter_none _ _ (file_entries_are_not_directories fs)).
  by rewrite (filter_all _ _ (dir_entries_are_directories ds)).
Qed.

Lemma listed_files (fs : list File.t) (ds : list Dir.t) σ :
  σ ≡ₚ (map file_entry fs ++ map dir_entry ds)%list ->
  exists fs', filter (fun e => node_is_regular_file (snd e)) σ = map file_entry fs' /\
              fs ≡ₚ fs'.
Proof.
  intros Hσ. apply Permutation_map_inv.
  rewrite Hσ, filter_app.
  rewrite (filter_none _ _ (dir_entries_are_not_files ds)).
  rewrite (filter_all _ _ (file_entries_are_files fs)).
  by rewrite app_nil_r.
Qed.

Lemma same_tree_name d d' : same_tree d d' -> Dir.name d = Dir.name d'.
Proof. by destruct 1. Qed.


Lemma child_files_mk n fs ds : child_files (Dir.mk n (Some fs) ds) = fs.
Proof. reflexivity. Qed.

Lemma child_dirs_mk n fs ds : child_dirs (Dir.mk n fs (Some ds)) = ds.
Proof. reflexivity. Qed.

Lemma for_fold_cons {A S} (body : S -> A -> IO S) x l s :
  for_fold body (x :: l) s = (s' ← body s x; for_fold body l s').
Proof. reflexivity. Qed.

Lemma read_dirs fuel p w (ds' : list Dir.t) :
  forall root0,
    Forall (fun c => exists c',
              Dir.fromDiskPath fuel (pathcat p (Dir.name c)) w = (Ok c', w) /\
              same_tree c c') ds' ->
    NoDup (map Dir.name (child_dirs root0) ++ map Dir.name ds') ->
    exists root' cs',
      for_fold (fun root var =>
                  sub ← Dir.fromDiskPath fuel var;
                  mret (fst (Dir.shl_Dir root sub)))
               (map (fun c => pathcat p (Dir.name c)) ds') root0 w = (Ok root', w) /\
      Dir.name_ root' = Dir.name_ root0 /\
      Dir.subFiles_ root' = Dir.subFiles_ root0 /\
      child_dirs root' = (child_dirs root0 ++ cs')%list /\
      Forall2 same_tree ds' cs'.
Proof.
  induction ds' as [|c ds' IH]; intros root0 Hread Hnd.
  - exists root0, []. rewrite app_nil_r. repeat split. constructor.
  - apply Forall_cons in Hread as [(c' & Hc' & Hsame) Hread].
    pose proof (same_tree_name _ _ Hsame) as Hname.
    assert (Habsent : Dir.hasDir_ root0 (Dir.name c') = None).
    { apply hasDir__None, Forall_forall. intros x Hx Heq.
      apply NoDup_app in Hnd as (_ & Hdis & _).
      apply (Hdis (Dir.name x)); [by apply list_elem_of_fmap_2 |].
      rewrite Heq, <- Hname. simpl. left. }
    set (root1 := Dir.mk (Dir.name_ root0) (Dir.subFiles_ root0)
                         (Some (child_dirs root0 ++ [c'])%list)).
    destruct (IH root1 Hread) as (root' & cs' & Hrun & Hn & Hf & Hd & Hall).
    { unfold root1. rewrite child_dirs_mk.
      rewrite map_app. simpl. rewrite <- Hname, <- app_assoc. exact Hnd. }
    exists root', (c' :: cs'). split; [| split; [| split; [| split]]].
    + simpl map. rewrite for_fold_cons.
      assert (Hstep : (sub ← Dir.fromDiskPath fuel (pathcat p (Dir.name c));
                       mret (fst (Dir.shl_Dir root0 sub))) w = (Ok root1, w)).
      { rewrite (IO_bind_run _ _ _ _ _ Hc').
        unfold Dir.shl_Dir. by rewrite (add_Dir_absent _ _ _ Habsent). }
      by rewrite (IO_bind_run _ _ _ _ _ Hstep).
    + by rewrite Hn.
    + by rewrite Hf.
    + rewrite Hd. unfold root1. rewrite child_dirs_mk.
      by rewrite <- app_assoc.
    + by constructor.
Qed.

Lemma read_files p w (fs' : list File.t) :
  forall root0,
    Forall (fun f => File.fromDiskPath (pathcat p (File.name f)) w = (Ok f, w)) fs' ->
    NoDup (map File.name (child_files root0) ++ map File.name fs') ->
    exists root',
      for_fold (fun root var =>
                  f ← File.fromDiskPath var;
                  mret (fst (Dir.shl_File root f)))
               (map (fun f => pathcat p (File.name f)) fs') root0 w = (Ok root', w) /\
      Dir.name_ root' = Dir.name_ root0 /\
      Dir.subDirs_ root' = Dir.subDirs_ root0 /\
      child_files root' = (child_files root0 ++ fs')%list.
Proof.
  induction fs' as [|f fs' IH]; intros root0 Hread Hnd.
  - exists root0. rewrite app_nil_r. by repeat split.
  - apply Forall_cons in Hread as [Hf Hread].
    assert (Habsent : Dir.hasFile_ root0 (File.name f) = None).
    { apply hasFile__None, Forall_forall. intros x Hx Heq.
      apply NoDup_app in Hnd as (_ & Hdis & _).
      apply (Hdis (File.name x)); [by apply list_elem_of_fmap_2 |].
      rewrite Heq. simpl. left. }
    set (root1 := Dir.mk (Dir.name_ root0) (Some (child_files root0 ++ [f])%list)
                         (Dir.subDirs_ root0)).
    destruct (IH root1 Hread) as (root' & Hrun & Hn & Hd & Hfs).
    { unfold root1. rewrite child_files_mk.
      rewrite map_app. simpl. rewrite <- app_assoc. exact Hnd. }
    exists root'. split; [| split; [| split]].
    + simpl map. rewrite for_fold_cons.
      assert (Hstep : (f0 ← File.fromDiskPath (pathcat p (File.name f));
                       mret (fst (Dir.shl_File root0 f0))) w = (Ok root1, w)).
      { rewrite (IO_bind_run _ _ _ _ _ Hf).
        unfold Dir.shl_File. by rewrite (add_File_absent _ _ _ Habsent). }
      by rewrite (IO_bind_run _ _ _ _ _ Hstep).
    + by rewrite Hn.
    + by rewrite Hd.
    + rewrite Hfs. unfold root1. rewrite child_files_mk.
      by rewrite <- app_assoc.
Qed.

Lemma payloads_present_unfold d :
  payloads_present d <->
  Forall (fun f => is_Some (File.data_ f)) (child_files d) /\
  Forall payloads_present (child_dirs d).
Proof.
  unfold payloads_present at 1. rewrite files_below_unfold, Forall_app.
  apply and_iff_compat_l.
  induction (child_dirs d) as [|c l IH]; simpl.
  - split; constructor.
  - by rewrite Forall_app, Forall_cons, IH.
Qed.

Lemma depth_child d c : c ∈ child_dirs d -> depth c < depth d.
Proof.
  unfold child_dirs. destruct d as [n fs [ds|]]; simpl; [| by intros ?%elem_of_nil].
  intros Hc. apply Nat.lt_succ_r.
  assert (H : list_max (map depth ds) <= list_max (map depth ds)) by lia.
  apply list_max_le in H. rewrite List.Forall_forall in H.
  apply H, in_map. by apply list_elem_of_In.
Qed.

Lemma fromDiskPath_S fuel dirpath :
  Dir.fromDiskPath (S fuel) dirpath =
  (root ← lift (Dir.ctor (filenameEx dirpath));
   dirs ← getAllDirectorys dirpath;
   root ← for_fold (fun root var =>
                      sub ← Dir.fromDiskPath fuel var;
                      mret (fst (Dir.shl_Dir root sub)))
                   dirs root;
   files ← getAllFiles dirpath;
   root ← for_fold (fun root var =>
                      f ← File.fromDiskPath var;
                      mret (fst (Dir.shl_File root f)))
                   files root;
   mret root).
Proof. reflexivity. Qed.

Lemma payloads_fit_unfold d :
  payloads_fit d <->
  Forall (fun f => (File.size f <= String_max_size)%N) (child_files d) /\
  Forall payloads_fit (child_dirs d).
Proof.
  unfold payloads_fit at 1. rewrite files_below_unfold, Forall_app.
  apply and_iff_compat_l.
  induction (child_dirs d) as [|c l IH]; simpl.
  - split; constructor.
  - by rewrite Forall_app, Forall_cons, IH.
Qed.

Lemma lookup_snoc_Some Q c D N :
  FS.lookup (Q ++ [c]) D = Some N ->
  exists es, FS.lookup Q D = Some (FS.Directory es) /\ FS.find_entry c es = Some N.
Proof.
  rewrite lookup_app_dir. destruct (FS.lookup Q D) as [[|es]|]; simpl; [done | | done].
  destruct (FS.find_entry c es) eqn:E; [| done]. intros [= ->]. by exists es.
Qed.

(** The resolution of [parent/n] when [n] is an entry of the directory
    [parent] leads to. *)
Lemma resolve_entry parent n D Q N :
  FS.c_str parent = parent -> portable n ->
  String.length n <= FS.NAME_MAX ->
  String.length (pathcat parent n) < FS.PATH_MAX ->
  FS.resolve parent D = FS.At Q ->
  FS.lookup (Q ++ [n]) D = Some N ->
  FS.resolve (pathcat parent n) D = FS.At (Q ++ [n]) /\
  FS.locate (pathcat parent n) D = Some N.
Proof.
  intros Hp Hn Hlen Hmax HQ HN.
  destruct (lookup_snoc_Some _ _ _ _ HN) as (es & Hes & Hfind).
  split.
  - by eapply resolve_pathcat.
  - by rewrite (locate_pathcat parent n D Q es).
Qed.

(** A tree that lies on the disk as its image is read back, up to the order
    of the children. *)
Lemma fromDiskPath_image d :
  forall fuel parent w Q,
    depth d <= fuel ->
    well_named d -> distinct_names d -> payloads_present d ->
    short_names d -> payloads_fit d ->
    FS.c_str parent = parent ->
    String.length parent + longest_path d < FS.PATH_MAX ->
    FS.resolve parent (FS.disk w) = FS.At Q ->
    FS.lookup (Q ++ [Dir.name d]) (FS.disk w) = Some (image d) ->
    (forall l, FS.readdir_order w l ≡ₚ l) ->
    exists d', Dir.fromDiskPath fuel (pathcat parent (Dir.name d)) w = (Ok d', w) /\
               same_tree d d'.
Proof.
  induction d as [n fs ods IH] using Dir_ind'.
  intros fuel parent w Q Hfuel Hwn Hdn Hpp Hsn Hpf0 Hparent Hmax HQ Himg Hord.
  set (d := Dir.mk n fs ods) in *.
  apply well_named_unfold in Hwn as [[Hn Hfn] Hwc].
  apply distinct_names_unfold in Hdn as [Hnd Hdc].
  apply payloads_present_unfold in Hpp as [Hpf Hpc].
  apply short_names_unfold in Hsn as [[Hln Hlf] Hsc].
  apply payloads_fit_unfold in Hpf0 as [Hff Hfc].
  pose proof (longest_path_root d) as Hroot_len.
  change (Dir.name d) with n in *.
  set (p := pathcat parent n).
  assert (Hp : FS.c_str p = p) by (apply c_str_pathcat; [done | apply Hn]).
  assert (Hplen : String.length p = String.length parent + S (String.length n))
    by apply pathcat_length.
  rewrite image_unfold in Himg.
  set (es := (map file_entry (child_files d) ++ map dir_entry (child_dirs d))%list) in *.
  destruct (resolve_entry parent n (FS.disk w) Q (FS.Directory es)) as [Hres Hloc];
    try done; [fold p; lia |]. fold p in Hres, Hloc.
  assert (Hes : NoDup (map fst es)).
  { unfold es. rewrite map_app, !map_map. exact Hnd. }
  destruct fuel as [|fuel]; [pose proof (depth_child d); destruct ods; simpl in Hfuel; lia |].
  (* the listing *)
  destruct (listed_directories (child_files d) (child_dirs d) (FS.readdir_order w es))
    as (ds' & Hds' & Hpd); [apply Hord |].
  destruct (listed_files (child_files d) (child_dirs d) (FS.readdir_order w es))
    as (fs' & Hfs' & Hpf'); [apply Hord |].
  (* the child directories *)
  destruct (read_dirs fuel p w ds' (Dir.mk n None None))
    as (root1 & cs' & Hrun1 & Hn1 & Hf1 & Hd1 & Hsame).
  { apply Forall_forall. intros c Hc.
    assert (Hcd : c ∈ child_dirs d) by (by rewrite Hpd).
    apply (proj1 (Forall_forall _ _) IH c Hcd fuel p w (Q ++ [n])%list).
    - pose proof (depth_child d c Hcd). lia.
    - by apply (proj1 (Forall_forall _ _) Hwc).
    - by apply (proj1 (Forall_forall _ _) Hdc).
    - by apply (proj1 (Forall_forall _ _) Hpc).
    - by apply (proj1 (Forall_forall _ _) Hsc).
    - by apply (proj1 (Forall_forall _ _) Hfc).
    - exact Hp.
    - pose proof (longest_path_dir d c Hcd) as Hlp. change (Dir.name d) with n in Hlp. lia.
    - exact Hres.
    - rewrite (lookup_child _ _ _ _ Himg).
      apply find_entry_In; [exact Hes |].
      unfold es. apply elem_of_app. right. by apply (list_elem_of_fmap_2 dir_entry).
    - exact Hord. }
  { simpl. rewrite <- Hpd. by apply NoDup_app in Hnd as (_ & _ & ?). }
  (* the child files *)
  destruct (read_files p w fs' root1) as (root2 & Hrun2 & Hn2 & Hd2 & Hf2).
  { apply Forall_forall. intros f Hf.
    assert (Hfd : f ∈ child_files d) by (by rewrite Hpf').
    assert (Hfp : portable (File.name f)) by (by apply (proj1 (Forall_forall _ _) Hfn)).
    rewrite (File_fromDiskPath_run _ _ (File.data f)).
    - unfold filenameEx. rewrite filename_pathcat by done.
      destruct (proj1 (Forall_forall _ _) Hpf f Hfd) as [s Hs].
      destruct f as [fn fd]. simpl in *. by subst fd.
    - rewrite (locate_pathcat p (File.name f) (FS.disk w) (Q ++ [n]) es); try done.
      + apply find_entry_In; [exact Hes |].
        unfold es. apply elem_of_app. left. by apply (list_elem_of_fmap_2 file_entry).
      + by apply (proj1 (Forall_forall _ _) Hlf).
      + rewrite pathcat_length, Hplen.
        pose proof (longest_path_file d f Hfd) as Hlp. change (Dir.name d) with n in Hlp.
        lia.
    - pose proof (proj1 (Forall_forall _ _) Hff f Hfd) as Hsz.
      by destruct f as [fn [s|]]. }
  { unfold child_files at 1. rewrite Hf1. simpl. rewrite <- Hpf'.
    by apply NoDup_app in Hnd as (? & _ & _). }
  exists root2. split.
  - rewrite fromDiskPath_S.
    assert (Hctor : lift (Dir.ctor (filenameEx p)) w = (Ok (Dir.mk n None None), w)).
    { unfold lift, filenameEx, p. rewrite filename_pathcat by done.
      unfold Dir.ctor. rewrite Dir_setName_valid by apply Hn. done. }
    rewrite (IO_bind_run _ _ _ _ _ Hctor).
    rewrite (IO_bind_run _ _ _ _ _ (getAllDirectorys_run _ _ _ Hloc)).
    rewrite Hds', map_map.
    rewrite (map_ext _ (fun c => pathcat p (Dir.name c)))
      by (intros c; apply path_slash_pathcat, Hn).
    rewrite (IO_bind_run _ _ _ _ _ Hrun1).
    rewrite (IO_bind_run _ _ _ _ _ (getAllFiles_run _ _ _ Hloc)).
    rewrite Hfs', map_map.
    rewrite (map_ext _ (fun f => pathcat p (File.name f)))
      by (intros f; apply path_slash_pathcat, Hn).
    by rewrite (IO_bind_run _ _ _ _ _ Hrun2).
  - apply (same_tree_intro d root2 ds').
    + unfold Dir.name. by rewrite Hn2, Hn1.
    + rewrite Hf2. unfold child_files at 2. rewrite Hf1. simpl. exact Hpf'.
    + exact Hpd.
    + unfold child_dirs. rewrite Hd2. fold (child_dirs root1). by rewrite Hd1.
Qed.


(** ** Trees that differ in the order of the children *)

Lemma same_tree_ind' (P : Dir.t -> Dir.t -> Prop) :
  (forall d d' ds,
      Dir.name d = Dir.name d' ->
      child_files d ≡ₚ child_files d' ->
      child_dirs d ≡ₚ ds ->
      Forall2 same_tree ds (child_dirs d') ->
      Forall2 P ds (child_dirs d') ->
      P d d') ->
  forall d d', same_tree d d' -> P d d'.
Proof.
  intros step. fix F 3. intros d d' [d0 d0' ds Hn Hf Hp Hall].
  apply (step d0 d0' ds Hn Hf Hp Hall).
  clear Hn Hf Hp. revert Hall. generalize (child_dirs d0'). revert ds.
  fix G 3. intros ds cs [|c c' ds' cs' Hc Hrest]; constructor.
  - by apply F.
  - by apply G.
Qed.

Lemma same_tree_refl d : same_tree d d.
Proof.
  induction d as [n fs ods IH] using Dir_ind'.
  apply (same_tree_intro _ _ (child_dirs (Dir.mk n fs ods))); try done.
  unfold child_dirs. simpl. induction IH; by constructor.
Qed.

Lemma Forall2_swap {A B} (R : A -> B -> Prop) l k :
  Forall2 R l k -> Forall2 (fun y x => R x y) k l.
Proof. induction 1; by constructor. Qed.

Lemma same_tree_sym d d' : same_tree d d' -> same_tree d' d.
Proof.
  induction 1 as [d d' ds Hn Hf Hp _ IH] using same_tree_ind'.
  destruct (Permutation_Forall2 (Permutation_sym Hp) IH) as (cs & Hcs & Hall).
  apply (same_tree_intro d' d cs); [done | done | exact Hcs |].
  clear -Hall. induction Hall; by constructor.
Qed.

Lemma same_tree_files_below d d' :
  same_tree d d' -> files_below d ≡ₚ files_below d'.
Proof.
  induction 1 as [d d' ds Hn Hf Hp _ IH] using same_tree_ind'.
  rewrite (files_below_unfold d), (files_below_unfold d').
  apply Permutation_app; [exact Hf |].
  rewrite Hp. clear -IH.
  induction IH as [|c c' ds cs Hc _ IHl]; [done |].
  simpl. by apply Permutation_app.
Qed.

Lemma same_tree_trans a b c : same_tree a b -> same_tree b c -> same_tree a c.
Proof.
  intros Hab. revert c.
  induction Hab as [a b dsa Hn Hf Hp _ IH] using same_tree_ind'.
  intros c Hbc. inversion Hbc as [b0 c0 dsb Hn' Hf' Hp' Hall]; subst b0 c0.
  destruct (Permutation_Forall2 Hp' (Forall2_swap _ _ _ IH)) as (dsa' & Hpa & Hall').
  apply (same_tree_intro a c dsa'); [congruence | by rewrite Hf | by rewrite Hp |].
  apply Forall2_swap in Hall'. simpl in Hall'.
  clear -Hall Hall'. revert Hall. generalize (child_dirs c).
  induction Hall' as [|x y l k Hxy _ IHl]; intros cs Hcs; inversion Hcs; subst;
    constructor; [by apply Hxy | by apply IHl].
Qed.

(** ** Writing a tree and reading it back *)

(** The public interface builds a directory that holds a file and a
    directory of one name. *)
Lemma a_file_and_a_directory_may_share_a_name :
  Dir.dir (fst (Dir.file (Dir.mk "r" None None) "x")) "x" =
  Ok (Dir.mk "r" (Some [File.mk "x" None]) (Some [Dir.mk "x" None None]), 0).
Proof. reflexivity. Qed.

(** C2 as stated fails.  A tree in which a directory holds a file and a
    subdirectory of one name, every name valid and short and every payload
    present, cannot be written even into an empty directory: the file takes
    the name on the disk and the creation of the subdirectory throws. *)
Lemma one_name_for_a_file_and_a_directory_breaks_the_round_trip :
  ~ (forall (d : Dir.t) (path : string) (ow : bool) (w : FS.World)
            (Q : list string) (es : list (string * FS.Node)),
        well_named d -> payloads_present d ->
        short_names d -> payloads_fit d ->
        FS.c_str path = path ->
        String.length path + longest_path d < FS.PATH_MAX ->
        FS.resolve path (FS.disk w) = FS.At Q ->
        FS.lookup Q (FS.disk w) = Some (FS.Directory es) ->
        FS.find_entry (Dir.name d) es = None ->
        (forall l, FS.readdir_order w l ≡ₚ l) ->
        exists w1 fuel d',
          Dir.write d path ow w = (Ok tt, w1) /\
          Dir.fromDiskPath fuel (pathcat path (Dir.name d)) w1 = (Ok d', w1) /\
          same_tree d d').
Proof.
  intros H.
  set (d := Dir.mk "r" (Some [File.mk "x" (Some "hi")])
                   (Some [Dir.mk "x" (Some [File.mk "y" (Some "yo")]) None])).
  set (w := FS.mkWorld (FS.Directory [("tmp", FS.Directory [])]) (fun l => l) []).
  destruct (H d "/tmp" true w ["tmp"] []) as (w1 & fuel & d' & Hw & _).
  - unfold well_named, every_dir, portable. simpl.
    repeat (constructor; try done).
  - unfold payloads_present. simpl. repeat (constructor; try done).
  - unfold short_names, every_dir. simpl. repeat (constructor; try (cbv; lia)).
  - unfold payloads_fit. simpl. repeat (constructor; try done).
  - reflexivity.
  - cbv. lia.
  - reflexivity.
  - reflexivity.
  - reflexivity.
  - done.
  - vm_compute in Hw. discriminate.
Qed.

(** C2, amended.  Let every file and directory of the tree have a valid
    name without NUL byte and of at most [NAME_MAX] bytes, let no two
    children of one directory share a name, whatever their kinds, let every
    file have a payload, of a size a string can hold, and let the longest
    path of the tree, written under [path], stay below [PATH_MAX].  Written
    under a path that leads to an existing directory with no entry of the
    tree's name, the tree is written without error, and reading the written
    directory back, with fuel for its depth, gives a tree with the same
    names at every level and the same payload for every file, up to the
    order of the children: the files at or below the two roots are the same
    up to order, and the tree read back equals, up to the order of the
    children, every reordering of the tree written.  This holds for every
    order of the children in memory and every order in which the platform
    lists a directory. *)
Theorem write_then_fromDiskPath (d : Dir.t) (path : string) (ow : bool)
    (w : FS.World) (Q : list string) (es : list (string * FS.Node)) :
  well_named d -> distinct_names d -> payloads_present d ->
  short_names d -> payloads_fit d ->
  FS.c_str path = path ->
  String.length path + longest_path d < FS.PATH_MAX ->
  FS.resolve path (FS.disk w) = FS.At Q ->
  FS.lookup Q (FS.disk w) = Some (FS.Directory es) ->
  FS.find_entry (Dir.name d) es = None ->
  (forall l, FS.readdir_order w l ≡ₚ l) ->
  exists w1,
    Dir.write d path ow w = (Ok tt, w1) /\
    forall fuel, depth d <= fuel ->
      exists d', Dir.fromDiskPath fuel (pathcat path (Dir.name d)) w1 = (Ok d', w1) /\
                 same_tree d d' /\
                 files_below d ≡ₚ files_below d' /\
                 forall d0, same_tree d0 d -> same_tree d0 d'.
Proof.
  intros Hwn Hdn Hpp Hsn Hpf Hpath Hmax HQ Hes Hfresh Hord.
  destruct (Dir_write_fresh d path ow w Q es Hwn Hdn Hsn Hpath Hmax HQ Hes Hfresh)
    as (w1 & Hrun & Hdisk & Hord1 & _).
  exists w1. split; [exact Hrun |].
  intros fuel Hfuel.
  destruct (fromDiskPath_image d fuel path w1 Q) as (d' & Hread & Hsame); try done.
  - rewrite Hdisk. by apply resolve_put_more.
  - rewrite Hdisk.
    erewrite lookup_child by (by eapply lookup_put).
    rewrite find_entry_app, Hfresh. simpl. by rewrite String.eqb_refl.
  - intros l. rewrite Hord1. apply Hord.
  - exists d'. split; [exact Hread |]. split; [exact Hsame |].
    split; [by apply same_tree_files_below |].
    intros d0 H0. by eapply same_tree_trans.
Qed.

Lemma write_then_fromDiskPath_witness :
  let d := Dir.mk "proj" (Some [File.mk "a.txt" (Some "hi"); File.mk "c" (Some "")])
                  (Some [Dir.mk "src" (Some [File.mk "b.txt" (Some "bye")]) None;
                         Dir.mk "doc" None None]) in
  let w := FS.mkWorld (FS.Directory [("tmp", FS.Directory [("old", FS.RegularFile "x")])])
                      (fun l => rev l) [] in
  exists w1,
    Dir.write d "/tmp" false w = (Ok tt, w1) /\
    exists d', Dir.fromDiskPath 2 "/tmp/proj" w1 = (Ok d', w1) /\
               same_tree d d' /\ files_below d ≡ₚ files_below d'.
Proof.
  intros d w.
  destruct (write_then_fromDiskPath d "/tmp" false w ["tmp"] [("old", FS.RegularFile "x")])
    as (w1 & Hrun & Hread).
  - unfold well_named, every_dir, portable. simpl. repeat (constructor; try done).
  - unfold distinct_names, every_dir. simpl.
    repeat (constructor; try (apply (bool_decide_unpack _); vm_compute; exact I)).
  - unfold payloads_present. simpl. repeat (constructor; try done).
  - unfold short_names, every_dir. simpl. repeat (constructor; try (cbv; lia)).
  - unfold payloads_fit. simpl. repeat (constructor; try done).
  - reflexivity.
  - cbv. lia.
  - reflexivity.
  - reflexivity.
  - reflexivity.
  - intros l. symmetry. apply Permutation_rev.
  - exists w1. split; [exact Hrun |].
    destruct (Hread 2) as (d' & H1 & H2 & H3 & _); [simpl; lia |].
    exists d'. by repeat split.
Defined.

(** ** The size of a tree *)

Lemma size_unfold d :
  Dir.size d =
  ((sumN (map File.size (child_files d)) + sumN (map Dir.size (child_dirs d)))
   mod SIZE_MAX_succ)%N.
Proof.
  assert (H0 : (0 < SIZE_MAX_succ)%N) by (unfold SIZE_MAX_succ; lia).
  unfold child_files, child_dirs. destruct d as [n [fs|] [ds|]]; simpl.
  - rewrite (fold_size_t_add File.size fs 0) by exact H0.
    rewrite fold_size_t_add by (apply N.mod_lt; lia).
    rewrite N.add_0_l. apply N.Div0.add_mod_idemp_l.
  - rewrite (fold_size_t_add File.size fs 0) by exact H0.
    by rewrite N.add_0_l, N.add_0_r.
  - rewrite (fold_size_t_add Dir.size ds 0) by exact H0. done.
  - done.
Qed.

Lemma size_total d :
  Dir.size d = (sumN (map File.size (files_below d)) mod SIZE_MAX_succ)%N.
Proof.
  induction d as [n fs ods IH] using Dir_ind'.
  rewrite size_unfold, files_below_unfold.
  rewrite map_app, sumN_app.
  rewrite sumN_flat_map.
  apply sumN_mod_Forall. exact IH.
Qed.

(** X5.  [Dir::size()] is the total of the sizes of the payloads of every
    file at or below the directory, modulo [2^64]; [empty()] says that this
    total is zero, which holds in particular of a directory whose files all
    have an empty or released payload, however many children it has. *)
Theorem size_is_the_total_of_the_payloads (d : Dir.t) :
  let total := sumN (map File.size (files_below d)) in
  Dir.size d = (total mod SIZE_MAX_succ)%N /\
  (Dir.empty d = true <-> (total mod SIZE_MAX_succ)%N = 0%N) /\
  (Forall (fun f => File.size f = 0%N) (files_below d) -> Dir.empty d = true).
Proof.
  intros total. split; [apply size_total |]. split.
  - unfold Dir.empty. rewrite size_total. apply N.eqb_eq.
  - intros H. unfold Dir.empty. rewrite size_total. apply N.eqb_eq.
    replace (sumN (map File.size (files_below d))) with 0%N; [done |].
    induction H as [|f l Hf _ IH]; [done |]. simpl. by rewrite Hf, <- IH.
Qed.

(** ** Searching a tree for a name *)

Lemma hasFile_false x d :
  Dir.hasFile x false d = true <-> exists f, f ∈ child_files d /\ File.name f = x.
Proof.
  destruct d as [n fs ds]. cbn [Dir.hasFile].
  destruct (Dir.hasFile_ (Dir.mk n fs ds) x) as [pos|] eqn:E.
  - split; [intros _ | done].
    apply hasFile__Some in E as (l & c & Hl & Hc & Hx & _).
    exists c. split; [| done]. unfold child_files. rewrite Hl.
    by eapply list_elem_of_lookup_2.
  - split; [done |]. intros (f & Hf & Hx).
    apply hasFile__None in E. rewrite Forall_forall in E. by apply E in Hf.
Qed.

Lemma hasDir_false x d :
  Dir.hasDir x false d = true <-> exists c, c ∈ child_dirs d /\ Dir.name c = x.
Proof.
  destruct d as [n fs ds]. cbn [Dir.hasDir].
  destruct (Dir.hasDir_ (Dir.mk n fs ds) x) as [pos|] eqn:E.
  - split; [intros _ | done].
    apply hasDir__Some in E as (l & c & Hl & Hc & Hx & _).
    exists c. split; [| done]. unfold child_dirs. rewrite Hl.
    by eapply list_elem_of_lookup_2.
  - split; [done |]. intros (f & Hf & Hx).
    apply hasDir__None in E. rewrite Forall_forall in E. by apply E in Hf.
Qed.

Lemma hasFile_true_unfold x d :
  Dir.hasFile x true d =
  Dir.hasFile x false d || existsb (Dir.hasFile x true) (child_dirs d).
Proof.
  unfold child_dirs. destruct d as [n fs [ds|]]; cbn [Dir.hasFile Dir.subDirs_];
    by destruct (Dir.hasFile_ _ x).
Qed.

Lemma hasDir_true_unfold x d :
  Dir.hasDir x true d =
  Dir.hasDir x false d || existsb (Dir.hasDir x true) (child_dirs d).
Proof.
  unfold child_dirs. destruct d as [n fs [ds|]]; cbn [Dir.hasDir Dir.subDirs_];
    by destruct (Dir.hasDir_ _ x).
Qed.

Lemma existsb_Forall_iff {A} (f : A -> bool) (P : A -> Prop) (l : list A) :
  Forall (fun a => f a = true <-> P a) l ->
  existsb f l = true <-> exists a, a ∈ l /\ P a.
Proof.
  intros H. rewrite existsb_exists. rewrite Forall_forall in H. split.
  - intros (a & Ha & Hf). apply list_elem_of_In in Ha. exists a. split; [done |].
    by apply H.
  - intros (a & Ha & HP). exists a. split; [by apply list_elem_of_In |]. by apply H.
Qed.

Lemma hasFile_true x d :
  Dir.hasFile x true d = true <-> exists f, f ∈ files_below d /\ File.name f = x.
Proof.
  induction d as [n fs ods IH] using Dir_ind'.
  rewrite hasFile_true_unfold, files_below_unfold, orb_true_iff, hasFile_false.
  rewrite (existsb_Forall_iff _ _ _ IH).
  split.
  - intros [(f & Hf & Hx) | (c & Hc & f & Hf & Hx)]; exists f; (split; [| done]);
      apply elem_of_app; [by left | right].
    apply list_elem_of_In, in_flat_map. exists c.
    split; by apply list_elem_of_In.
  - intros (f & Hf & Hx). apply elem_of_app in Hf as [Hf|Hf]; [left; by exists f |].
    right. apply list_elem_of_In, in_flat_map in Hf as (c & Hc & Hf).
    exists c. split; [by apply list_elem_of_In |]. exists f.
    split; [by apply list_elem_of_In | done].
Qed.

Lemma hasDir_true x d :
  Dir.hasDir x true d = true <-> exists c, c ∈ descendants d /\ Dir.name c = x.
Proof.
  induction d as [n fs ods IH] using Dir_ind'.
  rewrite hasDir_true_unfold, descendants_unfold, orb_true_iff, hasDir_false.
  rewrite (existsb_Forall_iff _ _ _ IH).
  split.
  - intros [(c & Hc & Hx) | (c & Hc & e & He & Hx)].
    + exists c. split; [| done]. apply list_elem_of_In, in_flat_map. exists c.
      split; [by apply list_elem_of_In | by left].
    + exists e. split; [| done]. apply list_elem_of_In, in_flat_map. exists c.
      split; [by apply list_elem_of_In | right; by apply list_elem_of_In].
  - intros (e & He & Hx). apply list_elem_of_In, in_flat_map in He as (c & Hc & He).
    apply list_elem_of_In in Hc. destruct He as [->|He].
    + left. by exists e.
    + right. exists c. split; [done |]. exists e. split; [by apply list_elem_of_In | done].
Qed.

(** X6.  [hasFile(x, false)] holds exactly when a child file is named [x],
    and [hasFile(x, true)] exactly when a file at or below the directory is;
    [hasDir(x, false)] holds exactly when a child directory is named [x],
    and [hasDir(x, true)] exactly when a directory strictly below is: the
    name of the directory itself does not count. *)
Theorem hasFile_and_hasDir_search (d : Dir.t) (x : string) :
  (Dir.hasFile x false d = true <-> exists f, f ∈ child_files d /\ File.name f = x) /\
  (Dir.hasFile x true d = true <-> exists f, f ∈ files_below d /\ File.name f = x) /\
  (Dir.hasDir x false d = true <-> exists c, c ∈ child_dirs d /\ Dir.name c = x) /\
  (Dir.hasDir x true d = true <-> exists c, c ∈ descendants d /\ Dir.name c = x).
Proof.
  split; [apply hasFile_false |]. split; [apply hasFile_true |].
  split; [apply hasDir_false | apply hasDir_true].
Qed.

(** ** Lookup after an insertion or a removal *)

Lemma child_file_named_find d y :
  child_file_named d y =
  snd <$> list_find (fun f => File.name f = y) (child_files d).
Proof.
  unfold child_file_named, Dir.hasFile_, child_files.
  destruct (Dir.subFiles_ d) as [fs|]; [| done]. simpl.
  destruct (list_find _ fs) as [[i c]|] eqn:E; [| done]. simpl.
  by apply list_find_Some in E as (? & _).
Qed.

Lemma child_dir_named_find d y :
  child_dir_named d y =
  snd <$> list_find (fun c => Dir.name c = y) (child_dirs d).
Proof.
  unfold child_dir_named, Dir.hasDir_, child_dirs.
  destruct (Dir.subDirs_ d) as [ds|]; [| done]. simpl.
  destruct (list_find _ ds) as [[i c]|] eqn:E; [| done]. simpl.
  by apply list_find_Some in E as (? & _).
Qed.

Section named.
Context {A : Type} (name : A -> string).





Lemma find_named_delete_other (l : list A) (pos : nat) (c : A) (y : string) :
  l !! pos = Some c -> y ≠ name c ->
  snd <$> list_find (fun a => name a = y) (delete pos l) =
  snd <$> list_find (fun a => name a = y) l.
Proof.
  revert pos. induction l as [|a l IH]; intros pos Hc Hy; [done |].
  destruct pos as [|pos]; simpl in *.
  - injection Hc as ->. rewrite decide_False by congruence.
    by destruct (list_find _ l) as [[??]|].
  - specialize (IH pos Hc Hy).
    destruct (decide (name a = y)) as [Ha|Ha]; [done |].
    destruct (list_find _ (delete pos l)) as [[??]|],
             (list_find _ l) as [[??]|]; simpl in *; congruence.
Qed.

Lemma find_named_delete_same (l : list A) (pos : nat) (x : string) :
  fst <$> list_find (fun a => name a = x) l = Some pos ->
  NoDup (map name l) ->
  list_find (fun a => name a = x) (delete pos l) = None.
Proof.
  intros H Hnd. apply fmap_Some in H as ([i c] & H & ->). simpl.
  apply list_find_Some in H as (Hc & Hx & _).
  apply list_find_None, Forall_forall. intros a Ha Hax.
  apply list_elem_of_lookup in Ha as [j Hj].
  change (map name l) with (name <$> l) in Hnd.
  rewrite NoDup_alt in Hnd.
  destruct (decide (j < i)) as [Hlt|Hge].
  - rewrite list_lookup_delete_lt in Hj by done.
    assert (j = i); [| lia].
    apply (Hnd j i x); rewrite list_lookup_fmap; [by rewrite Hj; simpl; f_equal | by rewrite Hc; simpl; f_equal].
  - rewrite list_lookup_delete_ge in Hj by lia.
    assert (S j = i); [| lia].
    apply (Hnd (S j) i x); rewrite list_lookup_fmap; [by rewrite Hj; simpl; f_equal | by rewrite Hc; simpl; f_equal].
Qed.
End named.

Lemma removeFile_absent d x : Dir.hasFile_ d x = None -> Dir.removeFile d x = d.
Proof. unfold Dir.removeFile. by intros ->. Qed.

Lemma removeFile_present d x pos :
  Dir.hasFile_ d x = Some pos ->
  Dir.removeFile d x =
  Dir.mk (Dir.name_ d) (Some (delete pos (child_files d))) (Dir.subDirs_ d).
Proof. unfold Dir.removeFile. by intros ->. Qed.

Lemma removeDir_absent d x : Dir.hasDir_ d x = None -> Dir.removeDir d x = d.
Proof. unfold Dir.removeDir. by intros ->. Qed.

Lemma removeDir_present d x pos :
  Dir.hasDir_ d x = Some pos ->
  Dir.removeDir d x =
  Dir.mk (Dir.name_ d) (Dir.subFiles_ d) (Some (delete pos (child_dirs d))).
Proof. unfold Dir.removeDir. by intros ->. Qed.

Lemma hasFile__find d x :
  Dir.hasFile_ d x = fst <$> list_find (fun f => File.name f = x) (child_files d).
Proof. unfold Dir.hasFile_, child_files. by destruct (Dir.subFiles_ d). Qed.

Lemma hasDir__find d x :
  Dir.hasDir_ d x = fst <$> list_find (fun c => Dir.name c = x) (child_dirs d).
Proof. unfold Dir.hasDir_, child_dirs. by destruct (Dir.subDirs_ d). Qed.





(** X8.  [removeFile(x)] and [removeDir(x)] never fail.  With no child of
    the kind under the name [x] they change nothing; otherwise they erase
    the first such child, a directory with all it holds, and keep the others
    in their order.  What the other names denote is as before, and when the
    names of the kind were pairwise distinct no child of the kind is named
    [x] afterwards. *)
Theorem remove_erases_the_first_match :
  (forall (d : Dir.t) (x : string),
      let d' := Dir.removeFile d x in
      Dir.name d' = Dir.name d /\
      Dir.subDirs_ d' = Dir.subDirs_ d /\
      (Dir.hasFile_ d x = None -> d' = d) /\
      (forall pos, Dir.hasFile_ d x = Some pos ->
                   child_files d' = delete pos (child_files d)) /\
      (forall y, y ≠ x -> child_file_named d' y = child_file_named d y) /\
      (NoDup (map File.name (child_files d)) -> Dir.hasFile x false d' = false)) /\
  (forall (d : Dir.t) (x : string),
      let d' := Dir.removeDir d x in
      Dir.name d' = Dir.name d /\
      Dir.subFiles_ d' = Dir.subFiles_ d /\
      (Dir.hasDir_ d x = None -> d' = d) /\
      (forall pos, Dir.hasDir_ d x = Some pos ->
                   child_dirs d' = delete pos (child_dirs d)) /\
      (forall y, y ≠ x -> child_dir_named d' y = child_dir_named d y) /\
      (NoDup (map Dir.name (child_dirs d)) -> Dir.hasDir x false d' = false)).
Proof.
  split.
  - intros d x d'. unfold d'.
    destruct (Dir.hasFile_ d x) as [pos|] eqn:E.
    + rewrite (removeFile_present d x pos E).
      split; [done |]. split; [done |]. split; [done |].
      split; [by intros ? [= <-] |].
      assert (Hc : exists c, child_files d !! pos = Some c /\ File.name c = x).
      { apply hasFile__Some in E as (fs & c & Hfs & Hl & Hx & _).
        exists c. unfold child_files. by rewrite Hfs. }
      destruct Hc as (c & Hc & Hcx). split.
      * intros y Hy. rewrite !child_file_named_find.
        rewrite child_files_mk.
        apply (find_named_delete_other File.name _ _ c); congruence.
      * intros Hnd. cbn [Dir.hasFile].
        replace (Dir.hasFile_ _ x) with (@None nat); [done |].
        symmetry. rewrite hasFile__find. rewrite child_files_mk.
        rewrite (find_named_delete_same File.name _ pos x); [done | | done].
        by rewrite <- hasFile__find.
    + rewrite (removeFile_absent d x E).
      split; [done |]. split; [done |]. split; [done |].
      split; [discriminate |]. split; [done |].
      intros _. destruct d as [nm fs ds]. cbn [Dir.hasFile]. by rewrite E.
  - intros d x d'. unfold d'.
    destruct (Dir.hasDir_ d x) as [pos|] eqn:E.
    + rewrite (removeDir_present d x pos E).
      split; [done |]. split; [done |]. split; [done |].
      split; [by intros ? [= <-] |].
      assert (Hc : exists c, child_dirs d !! pos = Some c /\ Dir.name c = x).
      { apply hasDir__Some in E as (fs & c & Hfs & Hl & Hx & _).
        exists c. unfold child_dirs. by rewrite Hfs. }
      destruct Hc as (c & Hc & Hcx). split.
      * intros y Hy. rewrite !child_dir_named_find.
        rewrite child_dirs_mk.
        apply (find_named_delete_other Dir.name _ _ c); congruence.
      * intros Hnd. cbn [Dir.hasDir].
        replace (Dir.hasDir_ _ x) with (@None nat); [done |].
        symmetry. rewrite hasDir__find. rewrite child_dirs_mk.
        rewrite (find_named_delete_same Dir.name _ pos x); [done | | done].
        by rewrite <- hasDir__find.
    + rewrite (removeDir_absent d x E).
      split; [done |]. split; [done |]. split; [done |].
      split; [discriminate |]. split; [done |].
      intros _. destruct d as [nm fs ds]. cbn [Dir.hasDir]. by rewrite E.
Qed.





(** ** Assignment between two objects, and copies *)

(** X10.  [a = b] on two separate objects leaves [a] equal to [b], name
    included, whatever [a] held, and leaves [b] and every other object of
    the store alone; [copy()] returns a node equal to the original at every
    depth. *)
Theorem assignment_between_two_objects :
  (forall (σ : gmap nat File.t) (this other : nat) (a b : File.t),
      this ≠ other -> σ !! this = Some a -> σ !! other = Some b ->
      File.assign_at this other σ = <[this := b]> σ) /\
  (forall (σ : gmap nat Dir.t) (this other : nat) (a b : Dir.t),
      this ≠ other -> σ !! this = Some a -> σ !! other = Some b ->
      Dir.assign_at this other σ = <[this := b]> σ) /\
  (forall f : File.t, File.copy f = f) /\
  (forall d : Dir.t, Dir.copy d = d).
Proof.
  split; [| split; [| split]].
  - intros σ this other a b Hne Ha Hb.
    by rewrite (File_assign_at_ne σ this other a b), File_assign_eq.
  - intros σ this other a b Hne Ha Hb.
    by rewrite (Dir_assign_at_ne σ this other a b), Dir_assign_eq.
  - exact File_copy_ctor_id.
  - exact Dir_copy_ctor_id.
Qed.

Lemma assignment_between_two_objects_witness :
  File.assign_at 0 1 {[ 0 := File.mk "a" (Some "old"); 1 := File.mk "b" None ]} =
    {[ 0 := File.mk "b" None; 1 := File.mk "b" None ]} /\
  Dir.assign_at 0 1
    {[ 0 := Dir.mk "d" (Some [File.mk "a" (Some "old")]) None;
       1 := Dir.mk "e" None (Some [Dir.mk "f" None None]) ]} =
    {[ 0 := Dir.mk "e" None (Some [Dir.mk "f" None None]);
       1 := Dir.mk "e" None (Some [Dir.mk "f" None None]) ]}.
Proof.
  split.
  - rewrite (proj1 assignment_between_two_objects _ 0 1
               (File.mk "a" (Some "old")) (File.mk "b" None)); [| done | done | done].
    apply map_eq. intros [|[|i]]; done.
  - rewrite (proj1 (proj2 assignment_between_two_objects) _ 0 1
               (Dir.mk "d" (Some [File.mk "a" (Some "old")]) None)
               (Dir.mk "e" None (Some [Dir.mk "f" None None]))); [| done | done | done].
    apply map_eq. intros [|[|i]]; done.
Defined.

(** ** The payload of a file *)

Lemma push_back_all (v : list ascii) (s : string) :
  fold_left (fun s var => s +:+ String var "") v s = s +:+ string_of_list_ascii v.
Proof.
  revert s. induction v as [|c v IH]; intros s; simpl.
  - by rewrite str_app_nil_r.
  - by rewrite IH, str_app_assoc.
Qed.

(** X11.  The payload operations of a file.  [f = s] makes the payload
    [s] and [f = v] the bytes of [v]; the four [operator<<], for a string, a
    file, a vector of bytes and a stream over a file or a string that has
    not failed, append to the payload what they are given, for the stream
    the whole sequence behind it, a missing payload counting as the empty
    one and the payloads being those a string can hold; appending twice
    appends the concatenation, and the size grows by the size appended.  The
    name is never changed. *)
Theorem payload_operations (f g : File.t) (s s' : string) (v : list ascii) :
  (File.assign_String f s = File.mk (File.name f) (Some s)) /\
  (File.assign_Vec f v = File.assign_String f (string_of_list_ascii v)) /\
  (File.shl_String f s = File.mk (File.name f) (Some (File.data f +:+ s))) /\
  (File.shl_File f g = File.shl_String f (File.data g)) /\
  (File.shl_Vec f v = File.shl_String f (string_of_list_ascii v)) /\
  (forall pos,
      (File.size f + str_size s <= String_max_size)%N ->
      fst (File.shl_IStream f (mk_istream Positionable s pos false)) = Ok tt /\
      fst (snd (File.shl_IStream f (mk_istream Positionable s pos false))) =
        File.shl_String f s) /\
  (File.shl_String (File.shl_String f s) s' = File.shl_String f (s +:+ s')) /\
  (File.size (File.shl_String f s) = (File.size f + str_size s)%N).
Proof.
  assert (Hshl : forall h t, File.shl_String h t =
                             File.mk (File.name h) (Some (File.data h +:+ t))).
  { intros [n [p|]] t; reflexivity. }
  split; [by destruct f as [n [p|]] |].
  split; [destruct f as [n [p|]]; unfold File.assign_Vec; simpl;
          by rewrite push_back_all |].
  split; [apply Hshl |].
  split; [by destruct f as [n [p|]] |].
  split; [destruct f as [n [p|]]; unfold File.shl_Vec; simpl;
          by rewrite push_back_all |].
  split; [intros pos Hfit; by rewrite shl_IStream_all, Hshl |].
  split; [rewrite !Hshl; cbn [File.name File.name_ File.data File.data_];
          by rewrite str_app_assoc |].
  rewrite Hshl. destruct f as [n [p|]]; unfold File.size; simpl.
  - apply str_size_app.
  - done.
Qed.

Lemma payload_operations_witness :
  fst (snd (File.shl_IStream (File.mk "a" (Some "ab"))
                             (mk_istream Positionable "xyz" 1 false))) =
  File.shl_String (File.mk "a" (Some "ab")) "xyz".
Proof.
  destruct (payload_operations (File.mk "a" (Some "ab")) (File.mk "b" None) "xyz" "" [])
    as (_ & _ & _ & _ & _ & H & _).
  apply (H 1%N). by vm_compute.
Defined.

(** ** Joining paths *)

Lemma pathcat_assoc a b c : pathcat (pathcat a b) c = pathcat a (pathcat b c).
Proof. unfold pathcat. by rewrite str_app_assoc, append_cons. Qed.

Lemma concat_cons2 sep (x y : string) (ys : list string) :
  String.concat sep (x :: y :: ys) = x +:+ sep +:+ String.concat sep (y :: ys).
Proof. reflexivity. Qed.

Lemma pathcat_pack_concat path1 path2 paths :
  pathcat_pack path1 path2 paths = String.concat "/" (path1 :: path2 :: paths).
Proof.
  revert path1 path2. induction paths as [|p ps IH]; intros path1 path2.
  - reflexivity.
  - cbn [pathcat_pack]. rewrite IH, !concat_cons2.
    unfold pathcat. rewrite str_app_assoc. reflexivity.
Qed.

Lemma filename_pathcat_valid path n :
  isValidFilename n = true -> filenameEx (pathcat path n) = n.
Proof.
  intros Hn. unfold filenameEx, FS.filename.
  rewrite split_pathcat, (split_no_separator n) by (by apply valid_no_separator).
  by rewrite last_snoc.
Qed.

(** X12.  [pathcat] of several paths is the paths joined by one separator
    each, and grouping does not matter; [filenameEx] gives back the last
    component of a path joined with a valid file name, and the empty string
    for a path that ends with the separator. *)
Theorem pathcat_joins_and_filenameEx_splits :
  (forall path1 path2 paths,
      pathcat_pack path1 path2 paths = String.concat "/" (path1 :: path2 :: paths)) /\
  (forall a b c, pathcat (pathcat a b) c = pathcat a (pathcat b c)) /\
  (forall path n, isValidFilename n = true -> filenameEx (pathcat path n) = n) /\
  (forall path, filenameEx (pathcat path "") = "").
Proof.
  split; [exact pathcat_pack_concat |]. split; [exact pathcat_assoc |].
  split; [exact filename_pathcat_valid |].
  intros path. unfold filenameEx, FS.filename. rewrite split_pathcat.
  change (FS.split "") with [""]. by rewrite last_snoc.
Qed.

(** ** Formatting a message *)

Lemma str_length_app (a b : string) :
  String.length (a +:+ b) = String.length a + String.length b.
Proof. induction a as [|c a IH]; [done |]. rewrite append_cons. simpl. by rewrite IH. Qed.

Lemma str_at_app (pre rest : string) (k : nat) :
  str_at (pre +:+ rest) (String.length pre + k) = str_at rest k.
Proof.
  unfold str_at. induction pre as [|c pre IH]; [done |].
  rewrite append_cons. exact IH.
Qed.

Lemma str_at_app0 (pre rest : string) :
  str_at (pre +:+ rest) (String.length pre) = str_at rest 0.
Proof. by rewrite <- (Nat.add_0_r (String.length pre)), str_at_app. Qed.

Lemma str_drop_app (pre rest : string) (k : nat) :
  str_drop (String.length pre + k) (pre +:+ rest) = str_drop k rest.
Proof. induction pre as [|c pre IH]; [done |]. rewrite append_cons. exact IH. Qed.

Lemma str_take_app (pre rest : string) :
  str_take (String.length pre) (pre +:+ rest) = pre.
Proof.
  induction pre as [|c pre IH]; [by destruct rest |].
  rewrite append_cons. simpl. by rewrite IH.
Qed.

Lemma _fmt_loop_S fuel fmt arg tail i ss :
  _fmt_loop (S fuel) fmt arg tail i ss =
  if Nat.ltb i (String.length fmt) then
    let window0 := str_at fmt i in
    let window1 :=
      if Nat.ltb i (String.length fmt - 1) then str_at fmt (i + 1) else "000"%char in
    let window2 :=
      if Nat.ltb i (String.length fmt - 2) then str_at fmt (i + 2) else "000"%char in
    let window3 :=
      if Nat.ltb i (String.length fmt - 3) then str_at fmt (i + 3) else "000"%char in
    let window :=
      String window0 (String window1 (String window2 (String window3 ""))) in
    if String.eqb window "{{}}" then
      _fmt_loop fuel fmt arg tail (i + 4) (ss +:+ "{}")
    else if Ascii.eqb window0 "{" && Ascii.eqb window1 "}" then
      (ss +:+ arg) +:+ tail (str_drop (i + 2) fmt)
    else
      _fmt_loop fuel fmt arg tail (i + 1) (ss +:+ String window0 "")
  else ss.
Proof. reflexivity. Qed.

Section fmt_loop.
Context (arg : string) (tail : string -> string).

(** At the end of the format. *)
Lemma loop_end fuel fmt ss :
  _fmt_loop fuel fmt arg tail (String.length fmt) ss = ss.
Proof.
  destruct fuel; [done |]. rewrite _fmt_loop_S.
  by rewrite (proj2 (Nat.ltb_ge _ _)) by lia.
Qed.

(** At a byte that is no opening brace. *)
Lemma loop_byte fuel pre c rest ss :
  c ≠ "{"%char ->
  _fmt_loop (S fuel) (pre +:+ String c rest) arg tail (String.length pre) ss =
  _fmt_loop fuel (pre +:+ String c rest) arg tail (String.length pre + 1)
            (ss +:+ String c "").
Proof.
  intros Hc. rewrite _fmt_loop_S.
  rewrite (proj2 (Nat.ltb_lt _ _)) by (rewrite str_length_app; simpl; lia).
  cbv zeta.
  rewrite !str_at_app0. change (str_at (String c rest) 0) with c.
  cbn [String.eqb].
  rewrite (proj2 (Ascii.eqb_neq c "{"%char)) by done.
  reflexivity.
Qed.

(** At the escape. *)
Lemma loop_escape fuel pre rest ss :
  _fmt_loop (S fuel) (pre +:+ "{{}}" +:+ rest) arg tail (String.length pre) ss =
  _fmt_loop fuel (pre +:+ "{{}}" +:+ rest) arg tail (String.length pre + 4)
            (ss +:+ "{}").
Proof.
  rewrite _fmt_loop_S.
  rewrite !(proj2 (Nat.ltb_lt _ _)) by (rewrite str_length_app; simpl; lia).
  cbv zeta. rewrite !str_at_app, str_at_app0.
  reflexivity.
Qed.

(** At a placeholder. *)
Lemma loop_placeholder fuel pre rest ss :
  _fmt_loop (S fuel) (pre +:+ "{}" +:+ rest) arg tail (String.length pre) ss =
  (ss +:+ arg) +:+ tail rest.
Proof.
  rewrite _fmt_loop_S.
  rewrite 2!(proj2 (Nat.ltb_lt _ _)) by (rewrite str_length_app; simpl; lia).
  cbv zeta. rewrite !str_at_app, !str_at_app0, str_drop_app.
  reflexivity.
Qed.
End fmt_loop.

(** The bound on the iterations of the loop is never reached: any two
    bounds that are at least the length left give the same result. *)
Lemma _fmt_loop_enough_fuel fmt arg tail :
  forall fuel fuel' i ss,
    String.length fmt - i <= fuel -> String.length fmt - i <= fuel' ->
    _fmt_loop fuel fmt arg tail i ss = _fmt_loop fuel' fmt arg tail i ss.
Proof.
  assert (Hend : forall fuel i ss, String.length fmt <= i ->
                                   _fmt_loop fuel fmt arg tail i ss = ss).
  { intros [|fuel] i ss Hi; [done |]. rewrite _fmt_loop_S.
    by rewrite (proj2 (Nat.ltb_ge _ _)) by lia. }
  induction fuel as [|fuel IH]; intros fuel' i ss H H'.
  - rewrite !Hend by lia. done.
  - destruct fuel' as [|fuel']; [rewrite !Hend by lia; done |].
    rewrite !_fmt_loop_S.
    destruct (Nat.ltb_spec i (String.length fmt)) as [Hi|Hi]; [| done].
    cbv zeta.
    destruct (String.eqb _ "{{}}"); [apply IH; lia |].
    destruct (Ascii.eqb _ "{" && Ascii.eqb _ "}"); [done |].
    apply IH; lia.
Qed.

Lemma str_snoc_app (pre : string) (c : ascii) (x : string) :
  pre +:+ String c x = (pre +:+ String c "") +:+ x.
Proof. by rewrite str_app_assoc. Qed.

Lemma brace_free_cons c l :
  brace_free (String c l) <-> c ≠ "{"%char /\ brace_free l.
Proof.
  unfold brace_free. cbn [str_mem].
  destruct (Ascii.eqb_spec "{"%char c) as [<-|Hc]; [split; [done | tauto] |].
  split; [intros H; split; [congruence | done] | tauto].
Qed.

Section fmt_pieces.
Context (arg : string) (tail : string -> string).

(** Across a literal text. *)
Lemma loop_literal l :
  brace_free l ->
  forall pre rest ss result,
    (forall fuel', String.length rest <= fuel' ->
        _fmt_loop fuel' (pre +:+ l +:+ rest) arg tail
                  (String.length pre + String.length l) (ss +:+ l) = result) ->
    forall fuel, String.length l + String.length rest <= fuel ->
      _fmt_loop fuel (pre +:+ l +:+ rest) arg tail (String.length pre) ss = result.
Proof.
  induction l as [|c l IH]; intros Hl pre rest ss result K fuel Hfuel.
  - specialize (K fuel). simpl in K. rewrite Nat.add_0_r, str_app_nil_r in K.
    apply K. simpl in Hfuel. lia.
  - apply brace_free_cons in Hl as [Hc Hl].
    destruct fuel as [|fuel]; [simpl in Hfuel; lia |].
    rewrite append_cons, loop_byte by done.
    rewrite str_snoc_app.
    replace (String.length pre + 1) with (String.length (pre +:+ String c ""))
      by (rewrite str_length_app; simpl; lia).
    apply IH; [done | | simpl in Hfuel; lia].
    intros fuel' Hfuel'. rewrite <- (K fuel' Hfuel').
    rewrite <- str_snoc_app, <- append_cons.
    rewrite str_length_app. cbn [String.length].
    rewrite str_app_assoc. cbn [append].
    f_equal. lia.
Qed.

(** Across a piece that holds no placeholder. *)
Lemma loop_escaped ls :
  Forall brace_free ls ->
  forall l, brace_free l ->
  forall pre rest ss result,
    (forall fuel', String.length rest <= fuel' ->
        _fmt_loop fuel' (pre +:+ escaped (l :: ls) +:+ rest) arg tail
                  (String.length pre + String.length (escaped (l :: ls)))
                  (ss +:+ unescaped (l :: ls)) = result) ->
    forall fuel, String.length (escaped (l :: ls)) + String.length rest <= fuel ->
      _fmt_loop fuel (pre +:+ escaped (l :: ls) +:+ rest) arg tail
                (String.length pre) ss = result.
Proof.
  induction 1 as [|l2 ls Hl2 Hls IH]; intros l Hl pre rest ss result K fuel Hfuel.
  - by apply loop_literal.
  - unfold escaped, unescaped in *. rewrite concat_cons2 in *.
    rewrite !str_length_app in Hfuel.
    rewrite !str_app_assoc.
    apply loop_literal; [done | | rewrite !str_length_app; lia].
    intros [|fuel'] Hfuel';
      [rewrite !str_length_app in Hfuel';
       change (String.length "{{}}") with 4 in Hfuel'; lia |].
    rewrite <- (str_app_assoc pre l).
    replace (String.length pre + String.length l) with (String.length (pre +:+ l))
      by (by rewrite str_length_app).
    rewrite loop_escape.
    rewrite <- (str_app_assoc (pre +:+ l) "{{}}").
    replace (String.length (pre +:+ l) + 4)
      with (String.length ((pre +:+ l) +:+ "{{}}"))
      by (rewrite !str_length_app; change (String.length "{{}}") with 4; lia).
    apply IH; [done | |].
    + intros fuel'' Hfuel''. rewrite <- (K fuel'' Hfuel'').
      rewrite !str_length_app, !str_app_assoc. f_equal.
      change (String.length "{{}}") with 4. lia.
    + rewrite !str_length_app in Hfuel'.
      change (String.length "{{}}") with 4 in Hfuel'. lia.
Qed.

(** Across a piece and the placeholder after it. *)
Lemma loop_piece ls pre rest ss fuel :
  Forall brace_free ls ->
  String.length (escaped ls +:+ "{}" +:+ rest) <= fuel ->
  _fmt_loop fuel (pre +:+ escaped ls +:+ "{}" +:+ rest) arg tail
            (String.length pre) ss =
  ((ss +:+ unescaped ls) +:+ arg) +:+ tail rest.
Proof.
  intros Hls Hfuel. rewrite !str_length_app in Hfuel.
  destruct Hls as [|l ls Hl Hls].
  - change (escaped []) with "" in *. change (unescaped []) with "".
    rewrite str_app_nil_r. cbn [append] in *.
    destruct fuel as [|fuel]; [simpl in Hfuel; lia |].
    apply (loop_placeholder arg tail fuel pre rest ss).
  - apply loop_escaped; [done | done | | rewrite str_length_app; lia].
    intros [|fuel'] Hfuel'; [simpl in Hfuel'; lia |].
    rewrite <- (str_app_assoc pre).
    rewrite <- str_length_app.
    apply (loop_placeholder arg tail).
Qed.

(** Across a piece that ends the format. *)
Lemma loop_last_piece ls pre ss fuel :
  Forall brace_free ls ->
  String.length (escaped ls) <= fuel ->
  _fmt_loop fuel (pre +:+ escaped ls) arg tail (String.length pre) ss =
  ss +:+ unescaped ls.
Proof.
  intros Hls Hfuel.
  destruct Hls as [|l ls Hl Hls].
  - change (escaped []) with "". change (unescaped []) with "".
    rewrite !str_app_nil_r. apply loop_end.
  - rewrite <- (str_app_nil_r (escaped (l :: ls))) at 1.
    apply loop_escaped; [done | done | | simpl; lia].
    intros fuel' _. rewrite str_app_nil_r, <- str_length_app. apply loop_end.
Qed.
End fmt_pieces.

Lemma index_placeholder pre rest :
  brace_free pre -> String.index 0 "{}" (pre +:+ "{}" +:+ rest) = Some (String.length pre).
Proof.
  induction pre as [|c pre IH]; intros Hpre.
  - by destruct rest.
  - apply brace_free_cons in Hpre as [Hc Hpre].
    rewrite append_cons. cbn [String.index String.prefix].
    destruct (ascii_dec "{" c) as [<-|_]; [done |].
    by rewrite (IH Hpre).
Qed.

Lemma index_no_placeholder l : brace_free l -> String.index 0 "{}" l = None.
Proof.
  induction l as [|c l IH]; intros Hl; [done |].
  apply brace_free_cons in Hl as [Hc Hl].
  cbn [String.index String.prefix].
  destruct (ascii_dec "{" c) as [<-|_]; [done |].
  by rewrite (IH Hl).
Qed.

Lemma short_piece ls :
  Forall brace_free ls -> String.length (escaped ls) < 4 ->
  brace_free (escaped ls) /\ unescaped ls = escaped ls.
Proof.
  intros Hls Hlen. destruct Hls as [|l ls Hl [|l2 ls' Hl2 Hls]].
  - done.
  - done.
  - unfold escaped in Hlen. rewrite concat_cons2, !str_length_app in Hlen.
    simpl in Hlen. lia.
Qed.

Lemma filled_nil lss post : filled lss [] post = format_of lss post.
Proof. by destruct lss. Qed.

Lemma _fmt_unfold fmt arg args :
  _fmt fmt arg args =
  if Nat.ltb (String.length fmt) 4 then
    match String.index 0 "{}" fmt with
    | None => fmt
    | Some pos => (str_take pos fmt +:+ arg) +:+ str_drop (pos + 2) fmt
    end
  else _fmt_loop (String.length fmt) fmt arg
         (fun rest => match args with
                      | [] => rest
                      | arg' :: args' => _fmt rest arg' args'
                      end) 0 "".
Proof. by destruct args. Qed.

Lemma format_of_length lss post :
  2 * length lss <= String.length (format_of lss post).
Proof.
  induction lss as [|ls lss IH]; [simpl; lia |].
  cbn [format_of length]. rewrite !str_length_app. simpl. lia.
Qed.

Lemma fmt_piece ls rest arg args :
  Forall brace_free ls ->
  (4 <= String.length (escaped ls +:+ "{}" +:+ rest) \/ args = []) ->
  _fmt (escaped ls +:+ "{}" +:+ rest) arg args =
  unescaped ls +:+ arg +:+
  match args with
  | [] => rest
  | arg' :: args' => _fmt rest arg' args'
  end.
Proof.
  intros Hls Hlen. rewrite _fmt_unfold.
  destruct (Nat.ltb_spec (String.length (escaped ls +:+ "{}" +:+ rest)) 4) as [Hlt|Hge].
  - destruct Hlen as [Hlen| ->]; [lia |].
    destruct (short_piece ls Hls) as [Hfree ->].
    { rewrite str_length_app in Hlt. lia. }
    rewrite index_placeholder by done.
    rewrite str_take_app, str_drop_app. by rewrite str_app_assoc.
  - rewrite (loop_piece arg _ ls "" rest "" _ Hls) by done.
    by rewrite str_app_assoc.
Qed.

(** X13.  [_fmt] on a format with at least as many placeholders as
    arguments: the arguments replace the first placeholders in order, each
    escape before the last replaced placeholder becomes a pair of braces,
    braces inside an argument are left alone, and what follows that
    placeholder is copied as written, escapes and further placeholders
    included. *)
Theorem fmt_fills_the_placeholders (lss : list (list string))
    (arg : string) (args : list string) (post : string) :
  Forall (Forall brace_free) lss ->
  length args < length lss ->
  _fmt (format_of lss post) arg args = filled lss (arg :: args) post.
Proof.
  intros Hlss. revert arg args.
  induction Hlss as [|ls lss Hls Hlss IH]; intros arg args Hlen;
    [simpl in Hlen; lia |].
  cbn [format_of filled].
  rewrite fmt_piece; [| done |].
  - destruct args as [|arg' args']; [by rewrite filled_nil |].
    rewrite IH; [done | simpl in Hlen; lia].
  - destruct args as [|arg' args']; [by right | left].
    rewrite !str_length_app.
    pose proof (format_of_length lss post). simpl in *. lia.
Qed.

Lemma fmt_fills_the_placeholders_witness :
  _fmt ("Invalid file name: " +:+ String dquote ("{}" +:+ String dquote "")) "a{}b" [] =
    "Invalid file name: " +:+ String dquote ("a{}b" +:+ String dquote "") /\
  _fmt "{{}} stands for {}, then {}; {{}} {}" "a" ["b"] = "{} stands for a, then b; {{}} {}".
Proof.
  split.
  - apply (fmt_fills_the_placeholders
             [["Invalid file name: " +:+ String dquote ""]] "a{}b" [] (String dquote "")).
    + by repeat constructor.
    + simpl. lia.
  - apply (fmt_fills_the_placeholders
             [[""; " stands for "]; [", then "]] "a" ["b"] "; {{}} {}").
    + by repeat constructor.
    + simpl. lia.
Defined.

Lemma fmt_last_piece ls arg args :
  Forall brace_free ls -> _fmt (escaped ls) arg args = unescaped ls.
Proof.
  intros Hls. rewrite _fmt_unfold.
  destruct (Nat.ltb_spec (String.length (escaped ls)) 4) as [Hlt|Hge].
  - destruct (short_piece ls Hls Hlt) as [Hfree ->].
    by rewrite index_no_placeholder.
  - by rewrite (loop_last_piece arg _ ls "" "" _ Hls).
Qed.

(** X14.  [_fmt] on a format with fewer placeholders than arguments: the
    placeholders are replaced in order, every escape of the format becomes
    a pair of braces, and the arguments left over are dropped without an
    error; with no placeholder at all the result is the unescaped format. *)
Theorem fmt_drops_the_spare_arguments (lss : list (list string)) (ls' : list string)
    (arg : string) (args : list string) :
  Forall (Forall brace_free) lss -> Forall brace_free ls' ->
  length lss <= length args ->
  _fmt (format_of lss (escaped ls')) arg args = filled lss (arg :: args) (unescaped ls').
Proof.
  intros Hlss Hls'. revert arg args.
  induction Hlss as [|ls lss Hls Hlss IH]; intros arg args Hlen.
  - cbn [format_of filled]. by apply fmt_last_piece.
  - destruct args as [|arg' args']; [simpl in Hlen; lia |].
    cbn [format_of filled].
    rewrite _fmt_unfold.
    destruct (Nat.ltb_spec
                (String.length (escaped ls +:+ "{}" +:+ format_of lss (escaped ls'))) 4)
      as [Hlt|Hge].
    + rewrite !str_length_app in Hlt. change (String.length "{}") with 2 in Hlt.
      pose proof (format_of_length lss (escaped ls')) as Hf.
      destruct lss as [|ls2 lss]; [| cbn [length] in Hf; lia].
      cbn [format_of filled] in *.
      destruct (short_piece ls Hls) as [Hfree ->]; [lia |].
      destruct (short_piece ls' Hls') as [_ ->]; [lia |].
      rewrite index_placeholder by done.
      rewrite str_take_app, str_drop_app. by rewrite str_app_assoc.
    + rewrite (loop_piece arg _ ls "" (format_of lss (escaped ls')) "" _ Hls) by done.
      rewrite IH by (simpl in Hlen; lia).
      by rewrite str_app_assoc.
Qed.

Lemma fmt_drops_the_spare_arguments_witness :
  _fmt "no placeholder, {{}}" "a" ["b"] = "no placeholder, {}" /\
  _fmt "{}" "a" ["b"; "c"] = "a".
Proof.
  split.
  - apply (fmt_drops_the_spare_arguments [] ["no placeholder, "; ""] "a" ["b"]).
    + constructor.
    + by repeat constructor.
    + simpl. lia.
  - apply (fmt_drops_the_spare_arguments [[]] [] "a" ["b"; "c"]).
    + by repeat constructor.
    + constructor.
    + simpl. lia.
Defined.

(** ** Writing one file *)

(** X15.  [File::write] into an existing directory, at a name that is free
    or, with [isOverwrite], at a regular file, the name being one the system
    takes and the path short enough: the call succeeds, the entry of that
    name holds exactly the payload afterwards (nothing of the old content is
    left, a missing payload gives an empty file) and no other entry of the
    directory changes; [File::fromDiskPath] on the written path returns a
    file with the same name and payload. *)
Theorem File_write_then_fromDiskPath (f : File.t) (path : string) (ow : bool)
    (w : FS.World) (Q : list string) (es : list (string * FS.Node)) :
  FS.c_str path = path -> portable (File.name f) ->
  String.length (File.name f) <= FS.NAME_MAX ->
  String.length (pathcat path (File.name f)) < FS.PATH_MAX ->
  (File.size f <= String_max_size)%N ->
  FS.resolve path (FS.disk w) = FS.At Q ->
  FS.lookup Q (FS.disk w) = Some (FS.Directory es) ->
  (FS.find_entry (File.name f) es = None \/
   ow = true /\ exists old, FS.find_entry (File.name f) es = Some (FS.RegularFile old)) ->
  exists w1,
    File.write f path ow w = (Ok tt, w1) /\
    FS.disk w1 =
      FS.put Q
             (FS.Directory (FS.set_entry (File.name f) (FS.RegularFile (File.data f)) es))
             (FS.disk w) /\
    File.fromDiskPath (pathcat path (File.name f)) w1 =
      (Ok (File.mk (File.name f) (Some (File.data f))), w1).
Proof.
  intros Hpath Hn Hlen Hmax Hfit HQ Hes Hthere.
  destruct (File_write_stores f path ow w Q es Hpath Hn Hlen Hmax HQ Hes Hthere)
    as (w1 & Hrun & Hdisk & _).
  exists w1. split; [exact Hrun |]. split; [exact Hdisk |].
  rewrite (File_fromDiskPath_run _ _ (File.data f)).
  - unfold filenameEx. by rewrite filename_pathcat.
  - rewrite (locate_pathcat path (File.name f) (FS.disk w1) Q
               (FS.set_entry (File.name f) (FS.RegularFile (File.data f)) es)); try done.
    + apply find_entry_set_entry.
    + rewrite Hdisk. eapply resolve_keeps; [| exact HQ].
      eapply keeps_directories_put; [exact Hes |].
      apply keeps_directories_set_entry. intros X HX.
      destruct Hthere as [Hfresh | [_ [old Hold]]]; [congruence |].
      rewrite Hold in HX. injection HX as <-. apply keeps_directories_file.
    + rewrite Hdisk. by eapply lookup_put.
  - by destruct f as [n [s|]].
Qed.

Lemma File_write_then_fromDiskPath_witness :
  let w := FS.mkWorld (FS.Directory [("tmp", FS.Directory [("a.txt", FS.RegularFile "older")])])
                      (fun l => l) [] in
  exists w1,
    File.write (File.mk "a.txt" (Some "new")) "/tmp" true w = (Ok tt, w1) /\
    FS.disk w1 = FS.Directory [("tmp", FS.Directory [("a.txt", FS.RegularFile "new")])] /\
    File.fromDiskPath "/tmp/a.txt" w1 = (Ok (File.mk "a.txt" (Some "new")), w1).
Proof.
  intros w.
  destruct (File_write_then_fromDiskPath (File.mk "a.txt" (Some "new")) "/tmp" true w
              ["tmp"] [("a.txt", FS.RegularFile "older")]) as (w1 & H1 & H2 & H3).
  - reflexivity.
  - split; reflexivity.
  - cbv. lia.
  - cbv. lia.
  - by vm_compute.
  - reflexivity.
  - reflexivity.
  - right. split; [reflexivity |]. by exists "older".
  - exists w1. split; [exact H1 |]. split; [exact H2 | exact H3].
Defined.

(** X16.  [File::write] throws, whatever [isOverwrite], and leaves the
    disk as it was, when the directory to write into does not exist or when
    a directory already has the path of the file.  It throws the
    failed-to-open exception, unless it is called without [isOverwrite] on a
    path the system refuses as too long: then [isFile] throws the error of
    the file system first. *)
Theorem File_write_fails_to_open (f : File.t) (path : string) (ow : bool) (w : FS.World) :
  FS.c_str path = path -> portable (File.name f) ->
  ((forall es, FS.reach path (FS.disk w) ≠ Some (FS.Directory es)) \/
   (exists sub, FS.locate (pathcat path (File.name f)) (FS.disk w) =
                Some (FS.Directory sub))) ->
  exists w',
    File.write f path ow w =
      (Throw (if negb ow && FS.status_error (pathcat path (File.name f)) w
              then filesystem_error (pathcat path (File.name f))
              else Failed_to_open_the_file (pathcat path (File.name f))), w') /\
    FS.disk w' = FS.disk w.
Proof.
  intros Hpath Hn Hbad.
  set (p := pathcat path (File.name f)) in *.
  assert (Hcstr : FS.c_str p = p) by (apply c_str_pathcat; [done | apply Hn]).
  unfold File.write. cbv zeta.
  change (path +:+ String PREFERRED_PATH_SEPARATOR (File.name_ f)) with p.
  destruct (negb ow && FS.status_error p w) eqn:Hrefused.
  { apply andb_prop in Hrefused as [How Herr]. destruct ow; [done |]. cbn [negb].
    exists w. split; [| done].
    unfold mbind, IO_bind. by rewrite isFile_refused. }
  assert (Hnofile : forall bytes, FS.locate p (FS.disk w) ≠ Some (FS.RegularFile bytes)).
  { intros bytes Hb. destruct Hbad as [Hbad | [sub Hsub]]; [| congruence].
    apply locate_Some_At in Hb as (_ & q & Hq & _).
    by destruct (resolve_pathcat_refused path (File.name f) (FS.disk w) Hpath Hn Hbad)
      as [Hno _]; apply (Hno q). }
  assert (Hkept : (if negb ow then isFile p else (mret false : IO bool)) w = (Ok false, w)).
  { destruct ow; simpl in *; [done |]. rewrite isFile_run by done.
    destruct (FS.locate _ _) as [[bytes|?]|] eqn:E; [| done | done].
    by destruct (Hnofile bytes). }
  set (w1 := FS.record (FS.EvOpenForWriting p) w).
  assert (Hopen : ofstream_open p w = (Ok false, w1)).
  { unfold ofstream_open. cbv zeta. fold w1.
    change (FS.disk w1) with (FS.disk w).
    rewrite Hcstr. unfold p at 1 2.
    rewrite ends_with_separator_pathcat by done.
    destruct (String.eqb_spec (pathcat path (File.name f)) "") as [E|_];
      [by apply pathcat_nonempty in E |].
    cbn [orb]. fold p.
    destruct Hbad as [Hbad | [sub Hsub]].
    - destruct (resolve_pathcat_refused path (File.name f) (FS.disk w) Hpath Hn Hbad)
        as [Hno _]. fold p in Hno.
      destruct (FS.resolve p (FS.disk w)) as [q| |]; [by destruct (Hno q) | done | done].
    - apply locate_Some_At in Hsub as (_ & q & Hq & Hsub). by rewrite Hq, Hsub. }
  exists w1. split; [| done].
  rewrite (IO_bind_run _ _ _ _ _ Hkept). cbn [negb].
  by rewrite (IO_bind_run _ _ _ _ _ Hopen).
Qed.

Lemma File_write_fails_to_open_witness :
  let w := FS.mkWorld (FS.Directory [("tmp", FS.Directory [("a", FS.Directory [])])])
                      (fun l => l) [] in
  (exists w', File.write (File.mk "a" (Some "new")) "/tmp" true w =
                (Throw (Failed_to_open_the_file "/tmp/a"), w') /\
              FS.disk w' = FS.disk w) /\
  (exists w', File.write (File.mk "a" (Some "new")) "/none" false w =
                (Throw (Failed_to_open_the_file "/none/a"), w') /\
              FS.disk w' = FS.disk w) /\
  (let long := "/" +:+ string_of_list_ascii (repeat "a"%char 256) in
   exists w', File.write (File.mk "a" (Some "new")) long false w =
                (Throw (filesystem_error (pathcat long "a")), w') /\
              FS.disk w' = FS.disk w).
Proof.
  intros w. split; [| split].
  - apply (File_write_fails_to_open (File.mk "a" (Some "new")) "/tmp" true w).
    + reflexivity.
    + split; reflexivity.
    + right. by exists [].
  - apply (File_write_fails_to_open (File.mk "a" (Some "new")) "/none" false w).
    + reflexivity.
    + split; reflexivity.
    + left. intros es. vm_compute. discriminate.
  - intros long.
    apply (File_write_fails_to_open (File.mk "a" (Some "new")) long false w).
    + by vm_compute.
    + split; reflexivity.
    + left. intros es. vm_compute. discriminate.
Defined.

(** ** Writing a tree where it already is *)

Lemma for_each_disk_kept {A} (body : A -> IO unit) (events : A -> list FS.Event)
    (P : FS.Node -> Prop) (l : list A) :
  Forall (fun x => forall w, P (FS.disk w) ->
            exists w', body x w = (Ok tt, w') /\ FS.disk w' = FS.disk w /\
                       FS.readdir_order w' = FS.readdir_order w /\
                       FS.journal w' = (FS.journal w ++ events x)%list) l ->
  forall w, P (FS.disk w) ->
    exists w', for_each body l w = (Ok tt, w') /\ FS.disk w' = FS.disk w /\
               FS.readdir_order w' = FS.readdir_order w /\
               FS.journal w' = (FS.journal w ++ flat_map events l)%list.
Proof.
  induction 1 as [|x l Hx _ IH]; intros w HP.
  - exists w. simpl. by rewrite app_nil_r.
  - destruct (Hx w HP) as (w1 & Hrun & Hdisk & Hord & Hj).
    destruct (IH w1) as (w2 & Hrun2 & Hdisk2 & Hord2 & Hj2); [by rewrite Hdisk |].
    exists w2. split; [| split; [| split]]; [| congruence | congruence |].
    + rewrite for_each_cons. by rewrite (IO_bind_run _ _ _ _ _ Hrun).
    + rewrite Hj2, Hj. simpl. by rewrite <- app_assoc.
Qed.

Lemma flat_map_nil {A B} (l : list A) : flat_map (fun _ : A => @nil B) l = [].
Proof. by induction l. Qed.

Lemma image_entries_distinct d :
  NoDup (map File.name (child_files d) ++ map Dir.name (child_dirs d)) ->
  NoDup (map fst (map file_entry (child_files d) ++ map dir_entry (child_dirs d))).
Proof. intros H. by rewrite map_app, !map_map. Qed.

Lemma Dir_write_again d :
  forall path ow w Q,
    well_named d -> distinct_names d -> short_names d ->
    FS.c_str path = path ->
    String.length path + longest_path d < FS.PATH_MAX ->
    FS.resolve path (FS.disk w) = FS.At Q ->
    FS.lookup (Q ++ [Dir.name d]) (FS.disk w) = Some (image d) ->
    exists w', Dir.write d path ow w = (Ok tt, w') /\
               FS.disk w' = FS.disk w /\
               FS.readdir_order w' = FS.readdir_order w /\
               FS.journal w' = (FS.journal w ++ dir_events (negb ow) path d)%list.
Proof.
  induction d as [n fs ods IH] using Dir_ind'.
  intros path ow w Q Hwn Hdn Hsn Hpath Hmax HQ Himg.
  set (d := Dir.mk n fs ods) in *.
  apply well_named_unfold in Hwn as [[Hn Hfn] Hwc].
  apply distinct_names_unfold in Hdn as [Hnd Hdc].
  apply short_names_unfold in Hsn as [[Hln Hlf] Hsc].
  pose proof (longest_path_root d) as Hroot_len.
  change (Dir.name d) with n in *.
  set (root := pathcat path n).
  assert (Hroot : FS.c_str root = root) by (apply c_str_pathcat; [done | apply Hn]).
  assert (Hrlen : String.length root = String.length path + S (String.length n))
    by apply pathcat_length.
  rewrite image_unfold in Himg.
  set (es := (map file_entry (child_files d) ++ map dir_entry (child_dirs d))%list) in *.
  assert (Hes : NoDup (map fst es)) by (by apply image_entries_distinct).
  destruct (resolve_entry path n (FS.disk w) Q (FS.Directory es)) as [Hres Hloc];
    try done; [fold root; lia |]. fold root in Hres, Hloc.
  set (w1 := FS.record (FS.EvCreateDirectory root) w).
  assert (Hmk : createDirectory root w = (Ok false, w1)).
  { apply createDirectory_existing. unfold FS.is_directory. by rewrite Hloc. }
  set (P := fun D => FS.resolve root D = FS.At (Q ++ [n]) /\
                     FS.lookup (Q ++ [n]) D = Some (FS.Directory es)).
  assert (HP1 : P (FS.disk w1)) by done.
  destruct (for_each_disk_kept (fun var => File.write var root ow)
              (fun f => if negb ow then [] else file_events root f) P
              (child_files d)) with (w := w1) as (w2 & Hfiles & Hdisk2 & Hord2 & Hj2).
  { apply Forall_forall. intros f Hf v [Hv1 Hv2].
    assert (Hpf : portable (File.name f))
      by (by apply (proj1 (Forall_forall _ _) Hfn)).
    assert (Hsf : String.length (File.name f) <= FS.NAME_MAX)
      by (by apply (proj1 (Forall_forall _ _) Hlf)).
    assert (Hmf : String.length (pathcat root (File.name f)) < FS.PATH_MAX).
    { rewrite pathcat_length, Hrlen.
      pose proof (longest_path_file d f Hf) as Hlp. change (Dir.name d) with n in Hlp.
      lia. }
    assert (Hthere : FS.find_entry (File.name f) es =
                     Some (FS.RegularFile (File.data f))).
    { apply find_entry_In; [done |]. unfold es. apply elem_of_app. left.
      by apply (list_elem_of_fmap_2 file_entry). }
    destruct ow; cbn [negb].
    - destruct (File_write_stores f root true v (Q ++ [n]) es)
        as (v' & Hrun & Hdisk & Hord & Hj); try done.
      + right. split; [done |]. by eexists.
      + exists v'. split; [done |]. split; [| done].
        rewrite Hdisk. rewrite set_entry_same by done. by apply put_same.
    - exists v. split; [| by rewrite app_nil_r].
      apply (File_write_skips f root v (File.data f)).
      by rewrite (locate_pathcat root (File.name f) (FS.disk v) (Q ++ [n]) es). }
  { exact HP1. }
  assert (HP2 : P (FS.disk w2)) by (by rewrite Hdisk2).
  destruct (for_each_disk_kept (fun var => Dir.write var root ow)
              (dir_events (negb ow) root) P
              (child_dirs d)) with (w := w2) as (w3 & Hdirs & Hdisk3 & Hord3 & Hj3).
  { unfold child_dirs, d. cbn [Dir.subDirs_].
    apply Forall_forall. intros c Hc v [Hv1 Hv2].
    apply (proj1 (Forall_forall _ _) IH c Hc root ow v (Q ++ [n])%list); try done.
    - by apply (proj1 (Forall_forall _ _) Hwc).
    - by apply (proj1 (Forall_forall _ _) Hdc).
    - by apply (proj1 (Forall_forall _ _) Hsc).
    - pose proof (longest_path_dir d c Hc) as Hlp. change (Dir.name d) with n in Hlp. lia.
    - rewrite (lookup_child _ _ _ _ Hv2).
      apply find_entry_In; [done |]. unfold es. apply elem_of_app. right.
      by apply (list_elem_of_fmap_2 dir_entry). }
  { exact HP2. }
  exists w3. split; [| split; [| split]].
  - rewrite Dir_write_unfold. fold root.
    rewrite (IO_bind_run _ _ _ _ _ Hmk).
    by rewrite (IO_bind_run _ _ _ _ _ Hfiles).
  - by rewrite Hdisk3, Hdisk2.
  - by rewrite Hord3, Hord2.
  - rewrite Hj3, Hj2. unfold w1. cbn [FS.journal FS.record].
    rewrite (dir_events_unfold (negb ow) path d). change (Dir.name d) with n. fold root.
    destruct ow; cbn [negb]; [| rewrite flat_map_nil]; by rewrite <- !app_assoc.
Qed.

(** ** The requests of a write, exactly *)

(** [File::write] decides once, before it opens anything: without
    overwrite the existence test may throw, and a regular file that is there
    is kept; in every other case the file is opened, and the payload follows
    when the opening succeeded. *)
Lemma File_write_rule f root ow w :
  let p := pathcat root (File.name f) in
  let r := File.write f root ow w in
  if negb ow && FS.status_error p w then r = (Throw (filesystem_error p), w)
  else if negb ow && FS.is_regular_file p w then r = (Ok tt, w)
  else exists J,
      FS.journal (snd r) = (FS.journal w ++ FS.EvOpenForWriting p :: J)%list /\
      (fst r = Ok tt /\ FS.EvOpenForWriting p :: J = file_events root f \/
       fst r = Throw (Failed_to_open_the_file p) /\ J = []).
Proof.
  intros p r. unfold r, File.write. cbv zeta.
  change (root +:+ String PREFERRED_PATH_SEPARATOR (File.name_ f)) with p.
  assert (Hopened : forall w0, w0 = w ->
            exists J,
              FS.journal (snd ((is_open ← ofstream_open p;
                                if negb is_open then throw (Failed_to_open_the_file p)
                                else File.write_os (ofstream_write p) f) w0)) =
                (FS.journal w ++ FS.EvOpenForWriting p :: J)%list /\
              (fst ((is_open ← ofstream_open p;
                     if negb is_open then throw (Failed_to_open_the_file p)
                     else File.write_os (ofstream_write p) f) w0) = Ok tt /\
               FS.EvOpenForWriting p :: J = file_events root f \/
               fst ((is_open ← ofstream_open p;
                     if negb is_open then throw (Failed_to_open_the_file p)
                     else File.write_os (ofstream_write p) f) w0) =
                 Throw (Failed_to_open_the_file p) /\ J = [])).
  { intros w0 ->.
    destruct (ofstream_open p w) as [ro w1] eqn:Hopen.
    assert (Hro : exists b, ro = Ok b).
    { unfold ofstream_open in Hopen. cbv zeta in Hopen.
      repeat match type of Hopen with
             | context [match ?x with _ => _ end] => destruct x
             | context [if ?x then _ else _] => destruct x
             end; inversion Hopen; by eexists. }
    destruct Hro as [is_open ->].
    pose proof (ofstream_open_journal _ _ _ _ Hopen) as Hj.
    rewrite (IO_bind_run _ _ _ _ _ Hopen).
    destruct is_open; cbn [negb].
    - unfold File.write_os, file_events. fold p.
      destruct (File.data_ f) as [bytes|].
      + destruct (ofstream_write p bytes w1) as [rw w2] eqn:Hwrite.
        pose proof (ofstream_write_journal _ _ _ _ _ Hwrite) as Hj2.
        exists [FS.EvWrite p bytes]. cbn [fst snd]. split.
        * by rewrite Hj2, Hj, <- app_assoc.
        * left. split; [| done].
          unfold ofstream_write in Hwrite. cbv zeta in Hwrite.
          repeat match type of Hwrite with
                 | context [match ?x with _ => _ end] => destruct x
                 end; by inversion Hwrite.
      + exists []. cbn [fst snd]. split; [exact Hj | by left].
    - exists []. cbn [fst snd]. split; [exact Hj | by right]. }
  destruct ow; cbn [negb andb].
  - apply (Hopened w eq_refl).
  - destruct (FS.status_error p w) eqn:Herr.
    + unfold mbind, IO_bind. by rewrite (isFile_refused _ _ Herr).
    + pose proof (isFile_run p w Herr) as Hk.
      rewrite (IO_bind_run _ _ _ _ _ Hk).
      unfold FS.is_regular_file.
      destruct (FS.locate p (FS.disk w)) as [[bytes|es]|]; cbn [negb];
        [done | apply (Hopened w eq_refl) ..].
Qed.

(** Creating a directory that is already there is no error: the [write] of
    any tree goes on with the children. *)
Lemma Dir_write_into_a_directory d path ow w :
  FS.is_directory (pathcat path (Dir.name d)) w = true ->
  Dir.write d path ow w =
    (for_each (fun var => File.write var (pathcat path (Dir.name d)) ow) (child_files d) ;;
     for_each (fun var => Dir.write var (pathcat path (Dir.name d)) ow) (child_dirs d))
      (FS.record (FS.EvCreateDirectory (pathcat path (Dir.name d))) w).
Proof.
  intros H. rewrite Dir_write_unfold.
  by rewrite (IO_bind_run _ _ _ _ _ (createDirectory_existing _ _ H)).
Qed.

(** C8.  The requests a [write] makes to the file system are, in order:
    first the creation of the directory [path/name]; then, for the child
    files in the order of their vector, the writing of each under
    [path/name]; and only then, for the child directories in the order of
    theirs, the requests of each one's own [write] under [path/name], with
    the same overwrite flag in all of them.
    - Whatever the disk holds, a [write] that returns has made all of these
      requests, and one that throws has made an initial part of them.
    - A file is left unopened in exactly two cases, both without overwrite:
      the existence test throws, or a regular file of that name is there; in
      every other case the file is opened, and the payload, if there is one,
      is sent when the opening succeeded.
    - Written to a fresh place, a tree whose names the system takes makes
      every request, each file opened and sent its payload, and the [write]
      returns with the image of the tree on the disk.
    - Written where its image already is, the tree makes the creations
      alone without overwrite, every request with overwrite, and the [write]
      returns with the disk as it was.
    - Creating a directory that already exists raises no error: the [write]
      of any tree goes on with the children. *)
Theorem write_requests_in_order :
  (forall d path ow w r w',
      Dir.write d path ow w = (r, w') ->
      exists J J', FS.journal w' = (FS.journal w ++ J)%list /\
                   dir_requests path ow d (J ++ J')%list /\
                   (r = Ok tt -> J' = [])) /\
  (forall f root ow w,
      let p := pathcat root (File.name f) in
      let r := File.write f root ow w in
      if negb ow && FS.status_error p w then r = (Throw (filesystem_error p), w)
      else if negb ow && FS.is_regular_file p w then r = (Ok tt, w)
      else exists J,
          FS.journal (snd r) = (FS.journal w ++ FS.EvOpenForWriting p :: J)%list /\
          (fst r = Ok tt /\ FS.EvOpenForWriting p :: J = file_events root f \/
           fst r = Throw (Failed_to_open_the_file p) /\ J = [])) /\
  (forall d path ow w Q es,
      well_named d -> distinct_names d -> short_names d ->
      FS.c_str path = path ->
      String.length path + longest_path d < FS.PATH_MAX ->
      FS.resolve path (FS.disk w) = FS.At Q ->
      FS.lookup Q (FS.disk w) = Some (FS.Directory es) ->
      FS.find_entry (Dir.name d) es = None ->
      exists w', Dir.write d path ow w = (Ok tt, w') /\
                 FS.journal w' = (FS.journal w ++ dir_events false path d)%list /\
                 dir_requests path ow d (dir_events false path d) /\
                 FS.disk w' =
                   FS.put Q (FS.Directory (es ++ [dir_entry d])) (FS.disk w)) /\
  (forall d path ow w Q,
      well_named d -> distinct_names d -> short_names d ->
      FS.c_str path = path ->
      String.length path + longest_path d < FS.PATH_MAX ->
      FS.resolve path (FS.disk w) = FS.At Q ->
      FS.lookup (Q ++ [Dir.name d]) (FS.disk w) = Some (image d) ->
      exists w', Dir.write d path ow w = (Ok tt, w') /\
                 FS.journal w' = (FS.journal w ++ dir_events (negb ow) path d)%list /\
                 dir_requests path ow d (dir_events (negb ow) path d) /\
                 FS.disk w' = FS.disk w) /\
  (forall d path ow w,
      FS.is_directory (pathcat path (Dir.name d)) w = true ->
      Dir.write d path ow w =
        (for_each (fun var => File.write var (pathcat path (Dir.name d)) ow)
                  (child_files d) ;;
         for_each (fun var => Dir.write var (pathcat path (Dir.name d)) ow)
                  (child_dirs d))
          (FS.record (FS.EvCreateDirectory (pathcat path (Dir.name d))) w)) /\
  (forall n path ow w,
      FS.is_directory (pathcat path n) w = true ->
      Dir.write (Dir.mk n None None) path ow w =
        (Ok tt, FS.record (FS.EvCreateDirectory (pathcat path n)) w)).
Proof.
  split; [exact Dir_write_requests |].
  split; [exact File_write_rule |].
  split; [| split; [| split]].
  - intros d path ow w Q es Hwn Hdn Hsn Hpath Hmax HQ Hes Hfresh.
    destruct (Dir_write_fresh d path ow w Q es) as (w' & Hrun & Hdisk & _ & Hj);
      try done.
    exists w'. split; [done |]. split; [done |]. split; [| done].
    destruct (Dir_write_requests d path ow w _ _ Hrun) as (J & J' & HJ & HR & HJ').
    rewrite (HJ' eq_refl), app_nil_r in HR. rewrite Hj in HJ.
    by apply app_inv_head in HJ as <-.
  - intros d path ow w Q Hwn Hdn Hsn Hpath Hmax HQ Himg.
    destruct (Dir_write_again d path ow w Q) as (w' & Hrun & Hdisk & _ & Hj);
      try done.
    exists w'. split; [done |]. split; [done |]. split; [| done].
    destruct (Dir_write_requests d path ow w _ _ Hrun) as (J & J' & HJ & HR & HJ').
    rewrite (HJ' eq_refl), app_nil_r in HR. rewrite Hj in HJ.
    by apply app_inv_head in HJ as <-.
  - exact Dir_write_into_a_directory.
  - intros n path ow w H.
    by rewrite (Dir_write_into_a_directory (Dir.mk n None None) path ow w H).
Qed.

Lemma write_requests_in_order_witness :
  let w0 := FS.mkWorld (FS.Directory [("tmp", FS.Directory [("old", FS.Directory [])])])
                       (fun l => l) [] in
  let d := Dir.mk "proj" (Some [File.mk "a.txt" (Some "hi"); File.mk "c" None])
                  (Some [Dir.mk "src" (Some [File.mk "b.txt" (Some "bye")]) None]) in
  let J := [FS.EvCreateDirectory "/tmp/proj";
            FS.EvOpenForWriting "/tmp/proj/a.txt"; FS.EvWrite "/tmp/proj/a.txt" "hi";
            FS.EvOpenForWriting "/tmp/proj/c";
            FS.EvCreateDirectory "/tmp/proj/src";
            FS.EvOpenForWriting "/tmp/proj/src/b.txt";
            FS.EvWrite "/tmp/proj/src/b.txt" "bye"] in
  dir_requests "/tmp" true d J /\
  (exists w1, Dir.write d "/tmp" false w0 = (Ok tt, w1) /\ FS.journal w1 = J /\
              exists w2, Dir.write d "/tmp" false w1 = (Ok tt, w2) /\
                         FS.journal w2 =
                           (J ++ [FS.EvCreateDirectory "/tmp/proj";
                                  FS.EvCreateDirectory "/tmp/proj/src"])%list /\
                         FS.disk w2 = FS.disk w1) /\
  File.write (File.mk "old" (Some "x")) "/tmp" true w0 =
    (Throw (Failed_to_open_the_file "/tmp/old"),
     FS.record (FS.EvOpenForWriting "/tmp/old") w0) /\
  Dir.write (Dir.mk "old" None None) "/tmp" false w0 =
    (Ok tt, FS.record (FS.EvCreateDirectory "/tmp/old") w0).
Proof.
  intros w0 d J.
  destruct write_requests_in_order as (H1 & H2 & H3 & H4 & H5 & H6).
  assert (Hwn : well_named d).
  { unfold well_named, every_dir. simpl.
    repeat (constructor; try (repeat split; vm_compute; done)). }
  assert (Hdn : distinct_names d).
  { unfold distinct_names, every_dir. simpl.
    repeat (constructor; try (apply (bool_decide_unpack _); vm_compute; exact I)). }
  assert (Hsn : short_names d).
  { unfold short_names, every_dir. simpl. repeat (constructor; try (cbv; lia)). }
  split; [| split; [| split]].
  - destruct (H1 d "/tmp" true w0 (Ok tt) (snd (Dir.write d "/tmp" true w0)) eq_refl)
      as (K & K' & HK & HR & HK').
    rewrite (HK' eq_refl), app_nil_r in HR.
    vm_compute in HK. subst K. exact HR.
  - destruct (H3 d "/tmp" false w0 ["tmp"] [("old", FS.Directory [])])
      as (w1 & Hrun & Hj & _ & Hdisk); try done; [cbv; lia |].
    exists w1. split; [done |]. split; [by rewrite Hj |].
    destruct (H4 d "/tmp" false w1 ["tmp"]) as (w2 & Hrun2 & Hj2 & _ & Hdisk2);
      try done; [cbv; lia | by rewrite Hdisk | by rewrite Hdisk |].
    exists w2. split; [done |]. split; [| done]. by rewrite Hj2, Hj.
  - pose proof (H2 (File.mk "old" (Some "x")) "/tmp" true w0) as H.
    cbv zeta in H. cbn [negb andb] in H. destruct H as (K & HK & HK').
    destruct (File.write (File.mk "old" (Some "x")) "/tmp" true w0) as [r w'] eqn:E.
    by vm_compute in E; inversion E.
  - apply (H6 "old" "/tmp" false w0). reflexivity.
Defined.

(** X17.  Writing a tree to a fresh place puts its image there; writing
    the same tree to the same place again, with or without [isOverwrite],
    succeeds and leaves the disk exactly as the first write left it.  The
    names are those the system takes and the paths short enough. *)
Theorem write_twice (d : Dir.t) (path : string) (ow ow' : bool)
    (w : FS.World) (Q : list string) (es : list (string * FS.Node)) :
  well_named d -> distinct_names d -> short_names d ->
  FS.c_str path = path ->
  String.length path + longest_path d < FS.PATH_MAX ->
  FS.resolve path (FS.disk w) = FS.At Q ->
  FS.lookup Q (FS.disk w) = Some (FS.Directory es) ->
  FS.find_entry (Dir.name d) es = None ->
  exists w1 w2,
    Dir.write d path ow w = (Ok tt, w1) /\
    FS.disk w1 = FS.put Q (FS.Directory (es ++ [(Dir.name d, image d)])) (FS.disk w) /\
    Dir.write d path ow' w1 = (Ok tt, w2) /\
    FS.disk w2 = FS.disk w1.
Proof.
  intros Hwn Hdn Hsn Hpath Hmax HQ Hes Hfresh.
  destruct (Dir_write_fresh d path ow w Q es Hwn Hdn Hsn Hpath Hmax HQ Hes Hfresh)
    as (w1 & Hrun & Hdisk & _).
  destruct (Dir_write_again d path ow' w1 Q Hwn Hdn Hsn Hpath Hmax)
    as (w2 & Hrun2 & Hdisk2 & _).
  - rewrite Hdisk. by apply resolve_put_more.
  - rewrite Hdisk.
    erewrite lookup_child by (by eapply lookup_put).
    rewrite find_entry_app, Hfresh. simpl. by rewrite String.eqb_refl.
  - by exists w1, w2.
Qed.

Lemma write_twice_witness :
  let d := Dir.mk "proj" (Some [File.mk "a.txt" (Some "hi"); File.mk "c" None])
                  (Some [Dir.mk "src" (Some [File.mk "b.txt" (Some "bye")]) None]) in
  let w := FS.mkWorld (FS.Directory [("tmp", FS.Directory [("old", FS.RegularFile "x")])])
                      (fun l => l) [] in
  exists w1 w2,
    Dir.write d "/tmp" false w = (Ok tt, w1) /\
    Dir.write d "/tmp" true w1 = (Ok tt, w2) /\
    FS.disk w2 = FS.disk w1.
Proof.
  intros d w.
  destruct (write_twice d "/tmp" false true w ["tmp"] [("old", FS.RegularFile "x")])
    as (w1 & w2 & H1 & _ & H2 & H3).
  - unfold well_named, every_dir, portable. simpl. repeat (constructor; try done).
  - unfold distinct_names, every_dir. simpl.
    repeat (constructor; try (apply (bool_decide_unpack _); vm_compute; exact I)).
  - unfold short_names, every_dir. simpl. repeat (constructor; try (cbv; lia)).
  - reflexivity.
  - cbv. lia.
  - reflexivity.
  - reflexivity.
  - reflexivity.
  - by exists w1, w2.
Defined.

(** ** Writing a tree under a missing directory *)

(** X18.  [Dir::write] under a path that leads to no directory throws the
    error of [fs::create_directory] at its first step: nothing is written,
    and the only request made to the file system is the creation of
    [path/name]. *)
Theorem Dir_write_needs_the_parent (d : Dir.t) (path : string) (ow : bool)
    (w : FS.World) :
  FS.c_str path = path -> portable (Dir.name d) ->
  (forall es, FS.reach path (FS.disk w) ≠ Some (FS.Directory es)) ->
  Dir.write d path ow w =
    (Throw (filesystem_error (pathcat path (Dir.name d))),
     FS.record (FS.EvCreateDirectory (pathcat path (Dir.name d))) w).
Proof.
  intros Hpath Hn Hbad.
  set (root := pathcat path (Dir.name d)).
  assert (Hroot : FS.c_str root = root) by (apply c_str_pathcat; [done | apply Hn]).
  destruct (resolve_pathcat_refused path (Dir.name d) (FS.disk w) Hpath Hn Hbad)
    as [_ Hno]. fold root in Hno.
  assert (Hmk : createDirectory root w =
                (Throw (filesystem_error root), FS.record (FS.EvCreateDirectory root) w)).
  { unfold createDirectory, fs_create_directory. cbv zeta.
    change (FS.disk (FS.record _ w)) with (FS.disk w).
    rewrite Hroot.
    destruct (String.eqb_spec root "") as [E|_]; [by apply pathcat_nonempty in E |].
    destruct (FS.resolve_new root (FS.disk w)) as [q| |]; [by destruct (Hno q) | done | done]. }
  rewrite Dir_write_unfold. fold root.
  unfold mbind, IO_bind. by rewrite Hmk.
Qed.

Lemma Dir_write_needs_the_parent_witness :
  let d := Dir.mk "proj" (Some [File.mk "a.txt" (Some "hi")]) None in
  let w := FS.mkWorld (FS.Directory [("tmp", FS.Directory [])]) (fun l => l) [] in
  Dir.write d "/none" true w =
    (Throw (filesystem_error "/none/proj"), FS.record (FS.EvCreateDirectory "/none/proj") w).
Proof.
  intros d w. apply (Dir_write_needs_the_parent d "/none" true w).
  - reflexivity.
  - split; reflexivity.
  - intros es. vm_compute. discriminate.
Defined.

(** ** Reading what is not there *)

(** X19.  [Dir::fromDiskPath] validates the last component of the path
    before it looks at the disk: a path whose last component is no valid
    file name, in particular any path that ends with the separator, throws
    the invalid-name exception even when it names a directory; with a valid
    last component, a path that is no directory throws the not-a-directory
    exception, or the error of the file system when the system refuses the
    path as too long.  [File::fromDiskPath] throws the failed-to-open
    exception on a path that names nothing, and [std::length_error] on a
    path that names a directory.  None of them changes the world. *)
Theorem fromDiskPath_refuses :
  (forall fuel dirpath w,
      isValidFilename (filenameEx dirpath) = false ->
      Dir.fromDiskPath (S fuel) dirpath w =
        (Throw (Invalid_file_name (filenameEx dirpath)), w)) /\
  (forall fuel path w,
      Dir.fromDiskPath (S fuel) (pathcat path "") w = (Throw (Invalid_file_name ""), w)) /\
  (forall fuel dirpath w,
      isValidFilename (filenameEx dirpath) = true ->
      FS.is_directory dirpath w = false ->
      Dir.fromDiskPath (S fuel) dirpath w =
        (Throw (if FS.status_error dirpath w then filesystem_error dirpath
                else Not_directory_or_not_exists dirpath), w)) /\
  (forall filename w,
      FS.locate filename (FS.disk w) = None ->
      File.fromDiskPath filename w = (Throw (Failed_to_open_the_file filename), w)) /\
  (forall filename w sub,
      FS.locate filename (FS.disk w) = Some (FS.Directory sub) ->
      File.fromDiskPath filename w = (Throw length_error, w)).
Proof.
  assert (H1 : forall fuel dirpath w,
             isValidFilename (filenameEx dirpath) = false ->
             Dir.fromDiskPath (S fuel) dirpath w =
               (Throw (Invalid_file_name (filenameEx dirpath)), w)).
  { intros fuel dirpath w Hinv. rewrite fromDiskPath_S.
    unfold Dir.ctor. rewrite Dir_setName_invalid by done. reflexivity. }
  split; [exact H1 |]. split; [| split; [| split]].
  - intros fuel path w.
    assert (E : filenameEx (pathcat path "") = "").
    { unfold filenameEx, FS.filename. rewrite split_pathcat.
      change (FS.split "") with [""]. by rewrite last_snoc. }
    rewrite H1; rewrite E; done.
  - intros fuel dirpath w Hval Hnot. rewrite fromDiskPath_S.
    unfold Dir.ctor. rewrite Dir_setName_valid by done.
    unfold lift, mbind, IO_bind at 1.
    unfold getAllDirectorys at 1.
    destruct (FS.status_error dirpath w) eqn:Herr.
    + unfold mbind at 1, IO_bind at 1.
      unfold mbind at 1, IO_bind at 1. by rewrite isDirectory_refused.
    + assert (Hd : isDirectory dirpath w = (Ok false, w)).
      { rewrite isDirectory_run by done. unfold FS.is_directory in Hnot.
        by destruct (FS.locate dirpath (FS.disk w)) as [[]|]. }
      unfold mbind at 1, IO_bind at 1.
      unfold mbind at 1, IO_bind at 1. by rewrite Hd.
  - intros filename w Hnone. unfold File.fromDiskPath, ifstream_open, observe.
    unfold mbind, IO_bind. by rewrite Hnone.
  - intros filename w sub Hdir. unfold File.fromDiskPath, ifstream_open, observe.
    unfold mbind at 1, IO_bind at 1. rewrite Hdir. cbv beta iota.
    pose proof (shl_IStream_directory (File.ctor (filenameEx filename)) "" 0) as Hthrow.
    destruct (File.shl_IStream _ _) as [r [file stm]]. simpl in Hthrow.
    rewrite Hthrow by (by vm_compute). reflexivity.
Qed.

Lemma fromDiskPath_refuses_witness :
  let w := FS.mkWorld (FS.Directory [("tmp", FS.Directory [("a", FS.RegularFile "x")])])
                      (fun l => l) [] in
  Dir.fromDiskPath 1 "/tmp/" w = (Throw (Invalid_file_name ""), w) /\
  Dir.fromDiskPath 1 "/tmp/.." w = (Throw (Invalid_file_name ".."), w) /\
  Dir.fromDiskPath 1 "/tmp/a" w = (Throw (Not_directory_or_not_exists "/tmp/a"), w) /\
  File.fromDiskPath "/tmp/b" w = (Throw (Failed_to_open_the_file "/tmp/b"), w) /\
  File.fromDiskPath "/tmp" w = (Throw length_error, w) /\
  (let long := "/tmp/" +:+ string_of_list_ascii (repeat "a"%char 256) in
   Dir.fromDiskPath 1 long w = (Throw (filesystem_error long), w)).
Proof.
  intros w. destruct fromDiskPath_refuses as (H1 & H2 & H3 & H4 & H5).
  split; [exact (H2 0 "/tmp" w) |].
  split; [by apply (H1 0 "/tmp/.." w) |].
  split; [by apply (H3 0 "/tmp/a" w) |].
  split; [by apply (H4 "/tmp/b" w) |].
  split; [by apply (H5 "/tmp" w [("a", FS.RegularFile "x")]) |].
  intros long. apply (H3 0 long w); by vm_compute.
Defined.

(** ** Listing a directory *)

Lemma fold_push {A} (p : A -> bool) (g : A -> string) (l : list A) (acc : list string) :
  fold_left (fun files var => if p var then (files ++ [g var])%list else files) l acc =
  (acc ++ map g (filter (fun var => p var) l))%list.
Proof.
  revert acc. induction l as [|x l IH]; intros acc; simpl.
  - by rewrite app_nil_r.
  - rewrite IH, filter_cons. destruct (p x); simpl; [by rewrite <- app_assoc | done].
Qed.

Lemma fold_push_both {A} (p q : A -> bool) (g : A -> string) (l : list A)
    (acc acc' : list string) :
  fold_left (fun '(files, dirs) var =>
               let _path := g var in
               let files := if p var then (files ++ [_path])%list else files in
               let dirs := if q var then (dirs ++ [_path])%list else dirs in
               (files, dirs)) l (acc, acc') =
  (fold_left (fun files var => if p var then (files ++ [g var])%list else files) l acc,
   fold_left (fun dirs var => if q var then (dirs ++ [g var])%list else dirs) l acc').
Proof.
  revert acc acc'. induction l as [|x l IH]; intros acc acc'; [done |].
  simpl. by rewrite IH.
Qed.

Lemma iterate_world fuel path r w : snd (Listing.iterate fuel path r w) = w.
Proof.
  unfold Listing.iterate, fs_recursive_directory_iterator, fs_directory_iterator.
  by destruct r, (FS.locate path (FS.disk w)) as [[]|].
Qed.

Lemma isDirectory_is_directory path w :
  isDirectory path w =
  if FS.status_error path w then (Throw (filesystem_error path), w)
  else (Ok (FS.is_directory path w), w).
Proof.
  destruct (FS.status_error path w) eqn:E; [by apply isDirectory_refused |].
  rewrite isDirectory_run by done. unfold FS.is_directory.
  by destruct (FS.locate path (FS.disk w)) as [[]|].
Qed.

Lemma is_directory_status path w :
  FS.is_directory path w = true -> FS.status_error path w = false.
Proof.
  unfold FS.is_directory.
  destruct (FS.locate path (FS.disk w)) eqn:E; [| done].
  intros _. by eapply status_error_locate.
Qed.

Lemma getAllFiles_listed fuel path r flt w :
  Listing.getAllFiles fuel path r flt w =
  if FS.is_directory path w then
    listed w (fun entries =>
                map fst (filter (fun var => node_is_regular_file (snd var) &&
                                            Listing.passes flt (fst var)) entries))
           (Listing.iterate fuel path r w)
  else (Throw (if FS.status_error path w then filesystem_error path
               else Not_directory_or_not_exists path), w).
Proof.
  unfold Listing.getAllFiles, mbind, IO_bind.
  rewrite isDirectory_is_directory.
  destruct (FS.is_directory path w) eqn:Hd.
  2:{ by destruct (FS.status_error path w). }
  rewrite (is_directory_status _ _ Hd). cbn [negb].
  pose proof (iterate_world fuel path r w) as Hw. unfold listed.
  destruct (Listing.iterate fuel path r w) as [[entries|e|] w'];
    simpl in Hw; subst w'; [| done | done].
  cbn [fst]. unfold mret, IO_ret. by rewrite fold_push.
Qed.

Lemma getAllDirectorys_listed fuel path r flt w :
  Listing.getAllDirectorys fuel path r flt w =
  if FS.is_directory path w then
    listed w (fun entries =>
                map fst (filter (fun var => node_is_directory (snd var) &&
                                            Listing.passes flt (fst var)) entries))
           (Listing.iterate fuel path r w)
  else (Throw (if FS.status_error path w then filesystem_error path
               else Not_directory_or_not_exists path), w).
Proof.
  unfold Listing.getAllDirectorys, mbind, IO_bind.
  rewrite isDirectory_is_directory.
  destruct (FS.is_directory path w) eqn:Hd.
  2:{ by destruct (FS.status_error path w). }
  rewrite (is_directory_status _ _ Hd). cbn [negb].
  pose proof (iterate_world fuel path r w) as Hw. unfold listed.
  destruct (Listing.iterate fuel path r w) as [[entries|e|] w'];
    simpl in Hw; subst w'; [| done | done].
  cbn [fst]. unfold mret, IO_ret. by rewrite fold_push.
Qed.

Lemma getAlls_listed fuel path r flt w :
  Listing.getAlls fuel path r flt w =
  if FS.is_directory path w then
    listed w (fun entries =>
                (map fst (filter (fun var => node_is_regular_file (snd var) &&
                                             Listing.passes flt (fst var)) entries),
                 map fst (filter (fun var => node_is_directory (snd var) &&
                                             Listing.passes flt (fst var)) entries)))
           (Listing.iterate fuel path r w)
  else (Throw (if FS.status_error path w then filesystem_error path
               else Not_directory_or_not_exists path), w).
Proof.
  unfold Listing.getAlls, mbind, IO_bind.
  rewrite isDirectory_is_directory.
  destruct (FS.is_directory path w) eqn:Hd.
  2:{ by destruct (FS.status_error path w). }
  rewrite (is_directory_status _ _ Hd). cbn [negb].
  pose proof (iterate_world fuel path r w) as Hw. unfold listed.
  destruct (Listing.iterate fuel path r w) as [[entries|e|] w'];
    simpl in Hw; subst w'; [| done | done].
  cbn [fst]. unfold mret, IO_ret.
  rewrite (fold_push_both
             (fun var => node_is_regular_file (snd var) && Listing.passes flt (fst var))
             (fun var => node_is_directory (snd var) && Listing.passes flt (fst var))
             fst).
  by rewrite !fold_push.
Qed.

(** X20.  [getAlls] returns the pair of what [getAllFiles] and
    [getAllDirectorys] return on the same arguments, and fails as they do;
    all three throw the not-a-directory exception when the path is no
    directory, or the error of the file system when the system refuses the
    path as too long.  Without recursion and without filter the last two
    are the listings used by [Dir::fromDiskPath]. *)
Theorem getAlls_is_both_listings (fuel : nat) (path : string) (isRecursive : bool)
    (filter : option (string -> bool)) (w : FS.World) :
  Listing.getAlls fuel path isRecursive filter w =
    (files ← Listing.getAllFiles fuel path isRecursive filter;
     dirs ← Listing.getAllDirectorys fuel path isRecursive filter;
     mret (files, dirs)) w /\
  (FS.is_directory path w = false ->
   Listing.getAlls fuel path isRecursive filter w =
     (Throw (if FS.status_error path w then filesystem_error path
             else Not_directory_or_not_exists path), w)) /\
  Listing.getAllFiles fuel path false None w = getAllFiles path w /\
  Listing.getAllDirectorys fuel path false None w = getAllDirectorys path w.
Proof.
  split; [| split; [| split]].
  - unfold mbind at 1, IO_bind at 1.
    rewrite getAlls_listed, getAllFiles_listed.
    destruct (FS.is_directory path w) eqn:Hd; [| done].
    unfold listed at 1 2.
    destruct (fst (Listing.iterate fuel path isRecursive w)) as [entries|e|] eqn:E;
      [| done | done].
    unfold mbind at 1, IO_bind at 1.
    rewrite getAllDirectorys_listed, Hd. unfold listed. by rewrite E.
  - intros Hd. by rewrite getAlls_listed, Hd.
  - rewrite getAllFiles_listed. unfold getAllFiles, mbind, IO_bind.
    rewrite isDirectory_is_directory.
    destruct (FS.is_directory path w) eqn:Hd.
    2:{ by destruct (FS.status_error path w). }
    rewrite (is_directory_status _ _ Hd). cbn [negb].
    unfold listed, Listing.iterate.
    pose proof (iterate_world fuel path false w) as Hw. unfold Listing.iterate in Hw.
    destruct (fs_directory_iterator path w) as [[entries|e|] w'];
      simpl in Hw; subst w'; [| done | done].
    cbn [fst]. unfold mret, IO_ret. do 3 f_equal.
    apply list_filter_iff. intros [p n]. simpl. by rewrite andb_true_r.
  - rewrite getAllDirectorys_listed. unfold getAllDirectorys, mbind, IO_bind.
    rewrite isDirectory_is_directory.
    destruct (FS.is_directory path w) eqn:Hd.
    2:{ by destruct (FS.status_error path w). }
    rewrite (is_directory_status _ _ Hd). cbn [negb].
    unfold listed, Listing.iterate.
    pose proof (iterate_world fuel path false w) as Hw. unfold Listing.iterate in Hw.
    destruct (fs_directory_iterator path w) as [[entries|e|] w'];
      simpl in Hw; subst w'; [| done | done].
    cbn [fst]. unfold mret, IO_ret. do 3 f_equal.
    apply list_filter_iff. intros [p n]. simpl. by rewrite andb_true_r.
Qed.

Lemma getAlls_is_both_listings_witness :
  let w := FS.mkWorld (FS.Directory [("tmp", FS.Directory [("a", FS.RegularFile "x")])])
                      (fun l => l) [] in
  Listing.getAlls 1 "/tmp/a" true None w =
    (Throw (Not_directory_or_not_exists "/tmp/a"), w) /\
  (let long := "/tmp/" +:+ string_of_list_ascii (repeat "a"%char 256) in
   Listing.getAlls 1 long true None w = (Throw (filesystem_error long), w)).
Proof.
  intros w. split.
  - destruct (getAlls_is_both_listings 1 "/tmp/a" true None w) as (_ & H & _).
    by apply H.
  - intros long.
    destruct (getAlls_is_both_listings 1 long true None w) as (_ & H & _).
    apply H. by vm_compute.
Defined.

(** ** Listing a directory and all below it *)

Lemma fs_recursive_entries_S fuel order path es :
  fs_recursive_entries (S fuel) order path es =
  (fix go (l : list (string * FS.Node)) : Result (list (string * FS.Node)) :=
     match l with
     | [] => Ok []
     | e :: l' =>
         let p := FS.path_slash path (fst e) in
         below ← match snd e with
                 | FS.Directory sub => fs_recursive_entries fuel order p sub
                 | FS.RegularFile _ => Ok []
                 end;
         rest ← go l';
         Ok ((p, snd e) :: below ++ rest)%list
     end) (order es).
Proof. reflexivity. Qed.

Lemma node_height_entry e es :
  e ∈ es -> node_height (snd e) < node_height (FS.Directory es).
Proof.
  intros He. cbn [node_height]. apply Nat.lt_succ_r.
  induction es as [|a es IH]; [by apply elem_of_nil in He |].
  apply elem_of_cons in He as [->|He]; simpl; [lia |].
  specialize (IH He). lia.
Qed.

Lemma recursive_entries_below fuel :
  forall order path es,
    (forall l, order l ≡ₚ l) ->
    node_height (FS.Directory es) <= fuel ->
    exists L, fs_recursive_entries fuel order path es = Ok L /\
              L ≡ₚ entries_below path (FS.Directory es).
Proof.
  induction fuel as [|fuel IH]; intros order path es Hord Hh;
    [cbn [node_height] in Hh; lia |].
  rewrite fs_recursive_entries_S.
  set (go := fix go (l : list (string * FS.Node)) := _ ).
  set (g := fun e : string * FS.Node =>
              (FS.path_slash path (fst e), snd e) ::
              entries_below (FS.path_slash path (fst e)) (snd e)).
  assert (Hgo : forall l, Forall (fun e => node_height (snd e) <= fuel) l ->
                          exists L, go l = Ok L /\ L ≡ₚ flat_map g l).
  { induction 1 as [|e l He _ IHl]; [by exists [] |].
    destruct IHl as (R & HR & HRp).
    assert (Hbelow : exists B,
               match snd e with
               | FS.Directory sub =>
                   fs_recursive_entries fuel order (FS.path_slash path (fst e)) sub
               | FS.RegularFile _ => Ok []
               end = Ok B /\
               B ≡ₚ entries_below (FS.path_slash path (fst e)) (snd e)).
    { destruct (snd e) as [bytes|sub]; [by exists [] |]. by apply IH. }
    destruct Hbelow as (B & HB & HBp).
    exists ((FS.path_slash path (fst e), snd e) :: B ++ R)%list. split.
    - cbn [go]. fold go. cbv zeta. rewrite HB. unfold mbind, Result_bind.
      by rewrite HR.
    - cbn [flat_map]. unfold g at 1. cbn [app].
      constructor. by apply Permutation_app. }
  destruct (Hgo (order es)) as (L & HL & HLp).
  { apply Forall_forall. intros e He. rewrite Hord in He.
    apply node_height_entry in He. lia. }
  exists L. split; [done |]. rewrite HLp.
  change (entries_below path (FS.Directory es)) with (flat_map g es).
  apply Permutation_flat_map, Hord.
Qed.

(** ** Listing a tree that was written *)

Lemma list_max_zero {A} (f : A -> nat) (l : list A) :
  Forall (fun x => f x = 0) l -> list_max (map f l) = 0.
Proof. induction 1 as [|x l Hx _ IH]; [done |]. simpl. by rewrite Hx, IH. Qed.

Lemma height_image d : node_height (image d) = depth d.
Proof.
  induction d as [n fs ods IH] using Dir_ind'.
  rewrite image_unfold. cbn [node_height]. rewrite map_app, !map_map.
  rewrite list_max_app.
  rewrite list_max_zero by (apply Forall_forall; by intros f _).
  destruct ods as [ds|]; cbn [depth Dir.subDirs_ child_dirs default Nat.max map list_max];
    [| done].
  f_equal. f_equal. simpl in IH. apply map_ext_Forall.
  eapply Forall_impl; [exact IH |]. by intros c Hc.
Qed.

Lemma file_paths_unfold root d :
  file_paths root d =
  (map (fun f => pathcat root (File.name f)) (child_files d) ++
   flat_map (fun c => file_paths (pathcat root (Dir.name c)) c) (child_dirs d))%list.
Proof. unfold child_files, child_dirs. by destruct d as [n fs [ds|]]. Qed.

Lemma dir_paths_unfold root d :
  dir_paths root d =
  flat_map (fun c => pathcat root (Dir.name c) ::
                     dir_paths (pathcat root (Dir.name c)) c) (child_dirs d).
Proof. unfold child_dirs. by destruct d as [n fs [ds|]]. Qed.

Lemma entries_below_image parent n d :
  portable n ->
  let root := pathcat parent n in
  entries_below root (image d) =
  (map (fun f => (pathcat root (File.name f), FS.RegularFile (File.data f)))
       (child_files d) ++
   flat_map (fun c => (pathcat root (Dir.name c), image c) ::
                      entries_below (pathcat root (Dir.name c)) (image c))
            (child_dirs d))%list.
Proof.
  intros Hn root. rewrite image_unfold. cbn [entries_below].
  rewrite flat_map_app. f_equal.
  - induction (child_files d) as [|f l IH]; [done |].
    cbn [map flat_map file_entry fst snd app entries_below].
    unfold root at 1. rewrite path_slash_pathcat by done. by rewrite IH.
  - induction (child_dirs d) as [|c l IH]; [done |].
    cbn [map flat_map dir_entry fst snd app].
    unfold root at 1 2. rewrite !path_slash_pathcat by done. by rewrite IH.
Qed.

Lemma filter_flat_map {A B} (P : B -> Prop) `{forall y, Decision (P y)}
    (f : A -> list B) (l : list A) :
  filter P (flat_map f l) = flat_map (fun x => filter P (f x)) l.
Proof.
  induction l as [|x l IH]; [done |]. simpl. by rewrite filter_app, IH.
Qed.

Lemma map_flat_map {A B C} (g : B -> C) (f : A -> list B) (l : list A) :
  map g (flat_map f l) = flat_map (fun x => map g (f x)) l.
Proof.
  induction l as [|x l IH]; [done |]. simpl. by rewrite map_app, IH.
Qed.

Lemma flat_map_ext_Forall {A B} (f g : A -> list B) (l : list A) :
  Forall (fun x => f x = g x) l -> flat_map f l = flat_map g l.
Proof. induction 1 as [|x l Hx _ IH]; [done |]. simpl. by rewrite Hx, IH. Qed.

Lemma well_named_child d c : well_named d -> c ∈ child_dirs d -> well_named c.
Proof.
  intros Hd Hc. apply well_named_unfold in Hd as [_ Hd].
  by apply (proj1 (Forall_forall _ _) Hd).
Qed.

Lemma well_named_root d : well_named d -> portable (Dir.name d).
Proof. intros Hd. by apply well_named_unfold in Hd as [[? _] _]. Qed.

Lemma files_of_image d :
  forall parent, well_named d ->
    let root := pathcat parent (Dir.name d) in
    map fst (filter (fun var => node_is_regular_file (snd var))
                    (entries_below root (image d))) = file_paths root d.
Proof.
  induction d as [n fs ods IH] using Dir_ind'. intros parent Hwn root.
  set (d := Dir.mk n fs ods) in *.
  unfold root. rewrite entries_below_image by (by apply well_named_root).
  fold root. rewrite file_paths_unfold, filter_app, map_app. f_equal.
  - rewrite filter_all by (apply Forall_fmap, Forall_forall; by intros f _).
    by rewrite map_map.
  - rewrite filter_flat_map, map_flat_map. apply flat_map_ext_Forall.
    apply Forall_forall. intros c Hc.
    rewrite filter_cons. cbn [snd]. rewrite image_unfold.
    cbn [node_is_regular_file]. rewrite decide_False by (by intros []).
    rewrite <- image_unfold.
    apply (proj1 (Forall_forall _ _) IH c Hc root). by eapply well_named_child.
Qed.

Lemma dirs_of_image d :
  forall parent, well_named d ->
    let root := pathcat parent (Dir.name d) in
    map fst (filter (fun var => node_is_directory (snd var))
                    (entries_below root (image d))) = dir_paths root d.
Proof.
  induction d as [n fs ods IH] using Dir_ind'. intros parent Hwn root.
  set (d := Dir.mk n fs ods) in *.
  unfold root. rewrite entries_below_image by (by apply well_named_root).
  fold root. rewrite dir_paths_unfold, filter_app, map_app.
  rewrite filter_none by (apply Forall_fmap, Forall_forall; by intros f _ []).
  cbn [map app].
  rewrite filter_flat_map, map_flat_map. apply flat_map_ext_Forall.
  apply Forall_forall. intros c Hc.
  rewrite filter_cons. cbn [snd]. rewrite image_unfold.
  cbn [node_is_directory]. rewrite decide_True by done.
  rewrite <- image_unfold. cbn [map fst]. f_equal.
  apply (proj1 (Forall_forall _ _) IH c Hc root). by eapply well_named_child.
Qed.

Lemma sizes_of_image d :
  forall parent, well_named d ->
    let root := pathcat parent (Dir.name d) in
    sumN (map entry_file_size (entries_below root (image d))) =
    sumN (map File.size (files_below d)).
Proof.
  induction d as [n fs ods IH] using Dir_ind'. intros parent Hwn root.
  set (d := Dir.mk n fs ods) in *.
  unfold root. rewrite entries_below_image by (by apply well_named_root).
  fold root. rewrite files_below_unfold, !map_app, !sumN_app. f_equal.
  - rewrite map_map. f_equal. apply map_ext. intros [m [s|]]; reflexivity.
  - rewrite !sumN_flat_map. apply sumN_map_ext_Forall.
    apply Forall_forall. intros c Hc.
    cbn [map sumN fold_right]. rewrite image_unfold at 1.
    unfold entry_file_size at 1. cbn [snd]. rewrite N.add_0_l.
    apply (proj1 (Forall_forall _ _) IH c Hc root). by eapply well_named_child.
Qed.

Lemma filter_passes flt (p : string * FS.Node -> bool) (E : list (string * FS.Node)) :
  map fst (filter (fun var => p var && Listing.passes flt (fst var)) E) =
  filter (fun path => Listing.passes flt path) (map fst (filter (fun var => p var) E)).
Proof.
  induction E as [|e E IH]; [done |].
  rewrite !filter_cons. destruct (p e), (Listing.passes flt (fst e)) eqn:Hf; simpl.
  - rewrite filter_cons, decide_True by (by rewrite Hf). by rewrite <- IH.
  - rewrite filter_cons, decide_False by (rewrite Hf; by intros []). by rewrite <- IH.
  - exact IH.
  - exact IH.
Qed.

Lemma file_paths_length root d : length (file_paths root d) = length (files_below d).
Proof.
  revert root. induction d as [n fs ods IH] using Dir_ind'. intros root.
  rewrite file_paths_unfold, files_below_unfold, !length_app, length_map. f_equal.
  unfold child_dirs. cbn [Dir.subDirs_].
  induction IH as [|c l Hc _ IHl]; [done |].
  cbn [flat_map]. by rewrite !length_app, Hc, IHl.
Qed.

Lemma dir_paths_length root d : length (dir_paths root d) = length (descendants d).
Proof.
  revert root. induction d as [n fs ods IH] using Dir_ind'. intros root.
  rewrite dir_paths_unfold, descendants_unfold.
  unfold child_dirs. cbn [Dir.subDirs_].
  induction IH as [|c l Hc _ IHl]; [done |].
  cbn [flat_map]. rewrite !length_app. cbn [length]. by rewrite Hc, IHl.
Qed.

Lemma written_tree_on_disk d path ow w Q es :
  well_named d -> distinct_names d -> short_names d ->
  FS.c_str path = path ->
  String.length path + longest_path d < FS.PATH_MAX ->
  FS.resolve path (FS.disk w) = FS.At Q ->
  FS.lookup Q (FS.disk w) = Some (FS.Directory es) ->
  FS.find_entry (Dir.name d) es = None ->
  exists w1, Dir.write d path ow w = (Ok tt, w1) /\
             FS.resolve (pathcat path (Dir.name d)) (FS.disk w1) =
               FS.At (Q ++ [Dir.name d]) /\
             FS.locate (pathcat path (Dir.name d)) (FS.disk w1) = Some (image d) /\
             FS.readdir_order w1 = FS.readdir_order w.
Proof.
  intros Hwn Hdn Hsn Hpath Hmax HQ Hes Hfresh.
  destruct (Dir_write_fresh d path ow w Q es Hwn Hdn Hsn Hpath Hmax HQ Hes Hfresh)
    as (w1 & Hrun & Hdisk & Hord & _).
  exists w1. split; [done |].
  pose proof (longest_path_root d) as Hlp.
  apply short_names_unfold in Hsn as [[Hln _] _].
  destruct (resolve_entry path (Dir.name d) (FS.disk w1) Q (image d)) as [H1 H2];
    try done.
  - by apply well_named_root.
  - rewrite pathcat_length. lia.
  - rewrite Hdisk. by apply resolve_put_more.
  - rewrite Hdisk.
    erewrite lookup_child by (by eapply lookup_put).
    rewrite find_entry_app, Hfresh. simpl. by rewrite String.eqb_refl.
Qed.

Lemma recursive_listing_of_image fuel root d w :
  FS.locate root (FS.disk w) = Some (image d) ->
  (forall l, FS.readdir_order w l ≡ₚ l) ->
  depth d <= fuel ->
  exists L, fs_recursive_directory_iterator fuel root w = (Ok L, w) /\
            L ≡ₚ entries_below root (image d).
Proof.
  intros Hloc Hord Hfuel. unfold fs_recursive_directory_iterator.
  rewrite Hloc. rewrite <- height_image in Hfuel.
  rewrite image_unfold in *.
  destruct (recursive_entries_below fuel (FS.readdir_order w) root _ Hord Hfuel)
    as (L & HL & HLp).
  exists L. by rewrite HL.
Qed.

(** X21.  After a tree is written to a fresh place, the recursive listing
    of the written directory reports, in some order, exactly the paths of
    the files of the tree that pass the filter and exactly the paths of its
    directories that pass it; there are as many such paths as [fileCount]
    and [dirCount] count nodes.  The names are those the system takes and
    the paths short enough. *)
Theorem listing_of_a_written_tree (d : Dir.t) (path : string) (ow : bool)
    (w : FS.World) (Q : list string) (es : list (string * FS.Node)) (fuel : nat)
    (flt : option (string -> bool)) :
  well_named d -> distinct_names d -> short_names d ->
  FS.c_str path = path ->
  String.length path + longest_path d < FS.PATH_MAX ->
  FS.resolve path (FS.disk w) = FS.At Q ->
  FS.lookup Q (FS.disk w) = Some (FS.Directory es) ->
  FS.find_entry (Dir.name d) es = None ->
  (forall l, FS.readdir_order w l ≡ₚ l) ->
  depth d <= fuel ->
  let root := pathcat path (Dir.name d) in
  exists w1 files dirs,
    Dir.write d path ow w = (Ok tt, w1) /\
    Listing.getAlls fuel root true flt w1 = (Ok (files, dirs), w1) /\
    files ≡ₚ filter (fun p => Listing.passes flt p) (file_paths root d) /\
    dirs ≡ₚ filter (fun p => Listing.passes flt p) (dir_paths root d) /\
    length (file_paths root d) = length (files_below d) /\
    length (dir_paths root d) = length (descendants d).
Proof.
  intros Hwn Hdn Hsn Hpath Hmax HQ Hes Hfresh Hord Hfuel root.
  destruct (written_tree_on_disk d path ow w Q es Hwn Hdn Hsn Hpath Hmax HQ Hes Hfresh)
    as (w1 & Hrun & _ & Hloc & Hord1).
  destruct (recursive_listing_of_image fuel root d w1 Hloc) as (L & HL & HLp);
    [intros l; rewrite Hord1; apply Hord | done |].
  exists w1.
  eexists. eexists. split; [exact Hrun |]. split; [| split; [| split; [| split]]].
  - rewrite getAlls_listed. unfold FS.is_directory. fold root in Hloc.
    rewrite Hloc, image_unfold. unfold listed, Listing.iterate. rewrite HL.
    cbn [fst]. reflexivity.
  - rewrite HLp, filter_passes. unfold root. by rewrite files_of_image.
  - rewrite HLp, filter_passes. unfold root. by rewrite dirs_of_image.
  - apply file_paths_length.
  - apply dir_paths_length.
Qed.

Lemma listing_of_a_written_tree_witness :
  let d := Dir.mk "proj" (Some [File.mk "a.txt" (Some "hi"); File.mk "c" None])
                  (Some [Dir.mk "src" (Some [File.mk "b.txt" (Some "bye")]) None;
                         Dir.mk "doc" None None]) in
  let w := FS.mkWorld (FS.Directory [("tmp", FS.Directory [("old", FS.RegularFile "x")])])
                      (fun l => rev l) [] in
  exists w1 files dirs,
    Dir.write d "/tmp" false w = (Ok tt, w1) /\
    Listing.getAlls 2 "/tmp/proj" true None w1 = (Ok (files, dirs), w1) /\
    files ≡ₚ ["/tmp/proj/a.txt"; "/tmp/proj/c"; "/tmp/proj/src/b.txt"] /\
    dirs ≡ₚ ["/tmp/proj/src"; "/tmp/proj/doc"].
Proof.
  intros d w.
  destruct (listing_of_a_written_tree d "/tmp" false w ["tmp"]
              [("old", FS.RegularFile "x")] 2 None)
    as (w1 & files & dirs & H1 & H2 & H3 & H4 & _).
  - unfold well_named, every_dir, portable. simpl. repeat (constructor; try done).
  - unfold distinct_names, every_dir. simpl.
    repeat (constructor; try (apply (bool_decide_unpack _); vm_compute; exact I)).
  - unfold short_names, every_dir. simpl. repeat (constructor; try (cbv; lia)).
  - reflexivity.
  - cbv. lia.
  - reflexivity.
  - reflexivity.
  - reflexivity.
  - intros l. symmetry. apply Permutation_rev.
  - simpl. lia.
  - exists w1, files, dirs. split; [exact H1 |]. split; [exact H2 |].
    split; [exact H3 | exact H4].
Defined.

(** ** The size on the disk *)

Lemma sumN_Permutation (l k : list N) : l ≡ₚ k -> sumN l = sumN k.
Proof.
  induction 1 as [|x l k _ IH|x y l|l k m _ IH1 _ IH2];
    unfold sumN in *; simpl; lia.
Qed.

Lemma not_exists_message path :
  what (The_specified_path_not_exists path) =
  Some ("The specified path not exists. " +:+ String dquote (path +:+ String dquote "")).
Proof. reflexivity. Qed.

(** X22.  After a tree is written to a fresh place, [sizes] of the written
    directory is [Dir::size()] of the tree and [sizes] of a written child
    file is [File::size()] of that file; on a path that names nothing, and
    that the system does not refuse, [sizes] throws its own exception, whose
    message quotes the path.  The names are those the system takes and the
    paths short enough. *)
Theorem sizes_of_a_written_tree (d : Dir.t) (path : string) (ow : bool)
    (w : FS.World) (Q : list string) (es : list (string * FS.Node)) (fuel : nat) :
  well_named d -> distinct_names d -> short_names d ->
  FS.c_str path = path ->
  String.length path + longest_path d < FS.PATH_MAX ->
  FS.resolve path (FS.disk w) = FS.At Q ->
  FS.lookup Q (FS.disk w) = Some (FS.Directory es) ->
  FS.find_entry (Dir.name d) es = None ->
  (forall l, FS.readdir_order w l ≡ₚ l) ->
  depth d <= fuel ->
  let root := pathcat path (Dir.name d) in
  exists w1,
    Dir.write d path ow w = (Ok tt, w1) /\
    sizes fuel root w1 = (Ok (Dir.size d), w1) /\
    (forall f, f ∈ child_files d ->
       sizes fuel (pathcat root (File.name f)) w1 = (Ok (File.size f), w1)) /\
    (forall p, FS.locate p (FS.disk w1) = None -> FS.status_error p w1 = false ->
       sizes fuel p w1 = (Throw (The_specified_path_not_exists p), w1) /\
       what (The_specified_path_not_exists p) =
         Some ("The specified path not exists. " +:+
               String dquote (p +:+ String dquote ""))).
Proof.
  intros Hwn Hdn Hsn Hpath Hmax HQ Hes Hfresh Hord Hfuel root.
  destruct (written_tree_on_disk d path ow w Q es Hwn Hdn Hsn Hpath Hmax HQ Hes Hfresh)
    as (w1 & Hrun & Hres & Hloc & Hord1).
  fold root in Hloc, Hres.
  assert (Hok : FS.status_error root w1 = false) by (by eapply status_error_locate).
  exists w1. split; [exact Hrun |]. split; [| split].
  - destruct (recursive_listing_of_image fuel root d w1 Hloc) as (L & HL & HLp);
      [intros l; rewrite Hord1; apply Hord | done |].
    unfold sizes, mbind, IO_bind.
    rewrite isFile_run, Hloc, (image_unfold d) by done. cbv beta iota.
    rewrite isDirectory_run, Hloc, (image_unfold d) by done. cbv beta iota.
    rewrite HL.
    unfold mret, IO_ret. do 2 f_equal.
    rewrite fold_size_t_add by (unfold SIZE_MAX_succ; lia).
    rewrite N.add_0_l, size_total. f_equal.
    rewrite (sumN_Permutation _ (map entry_file_size (entries_below root (image d))))
      by (by rewrite HLp).
    unfold root. by apply sizes_of_image.
  - intros f Hf.
    assert (Hfile : FS.locate (pathcat root (File.name f)) (FS.disk w1) =
                    Some (FS.RegularFile (File.data f))).
    { pose proof (longest_path_file d f Hf) as Hlp.
      apply well_named_unfold in Hwn as [[Hn Hfn] _].
      apply distinct_names_unfold in Hdn as [Hnd _].
      apply short_names_unfold in Hsn as [[Hln Hlf] _].
      assert (Hroot : FS.c_str root = root) by (by apply c_str_pathcat; [| apply Hn]).
      apply locate_Some_At in Hloc as (_ & q & Hq & Himg).
      rewrite Hres in Hq. injection Hq as <-. rewrite image_unfold in Himg.
      rewrite (locate_pathcat root (File.name f) (FS.disk w1) (Q ++ [Dir.name d])
                 (map file_entry (child_files d) ++ map dir_entry (child_dirs d))
                 Hroot); try done.
      - apply find_entry_In; [by apply image_entries_distinct |].
        apply elem_of_app. left. by apply (list_elem_of_fmap_2 file_entry).
      - by apply (proj1 (Forall_forall _ _) Hfn).
      - by apply (proj1 (Forall_forall _ _) Hlf).
      - unfold root. rewrite !pathcat_length. lia. }
    unfold sizes, mbind, IO_bind.
    rewrite isFile_run, Hfile by (by eapply status_error_locate).
    unfold fs_file_size. rewrite Hfile. by destruct f as [m [s|]].
  - intros p Hp Herr. split; [| apply not_exists_message].
    unfold sizes, mbind, IO_bind.
    rewrite isFile_run, Hp by done. cbv beta iota.
    by rewrite isDirectory_run, Hp by done.
Qed.

Lemma sizes_of_a_written_tree_witness :
  let d := Dir.mk "proj" (Some [File.mk "a.txt" (Some "hi"); File.mk "c" None])
                  (Some [Dir.mk "src" (Some [File.mk "b.txt" (Some "bye")]) None]) in
  let w := FS.mkWorld (FS.Directory [("tmp", FS.Directory [("old", FS.RegularFile "x")])])
                      (fun l => rev l) [] in
  exists w1,
    Dir.write d "/tmp" false w = (Ok tt, w1) /\
    sizes 2 "/tmp/proj" w1 = (Ok 5%N, w1).
Proof.
  intros d w.
  destruct (sizes_of_a_written_tree d "/tmp" false w ["tmp"] [("old", FS.RegularFile "x")] 2)
    as (w1 & H1 & H2 & _).
  - unfold well_named, every_dir, portable. simpl. repeat (constructor; try done).
  - unfold distinct_names, every_dir. simpl.
    repeat (constructor; try (apply (bool_decide_unpack _); vm_compute; exact I)).
  - unfold short_names, every_dir. simpl. repeat (constructor; try (cbv; lia)).
  - reflexivity.
  - cbv. lia.
  - reflexivity.
  - reflexivity.
  - reflexivity.
  - intros l. symmetry. apply Permutation_rev.
  - simpl. lia.
  - exists w1. split; [exact H1 | exact H2].
Defined.

(** ** Reading an empty directory *)

(** X23.  [Dir::fromDiskPath] on an empty directory returns a node whose
    two child vectors were never allocated, so that [files()] and [dirs()]
    on the result dereference a null pointer. *)
Theorem fromDiskPath_of_an_empty_directory (fuel : nat) (dirpath : string)
    (w : FS.World) :
  isValidFilename (filenameEx dirpath) = true ->
  FS.locate dirpath (FS.disk w) = Some (FS.Directory []) ->
  (forall l, FS.readdir_order w l ≡ₚ l) ->
  Dir.fromDiskPath (S fuel) dirpath w =
    (Ok (Dir.mk (filenameEx dirpath) None None), w) /\
  Dir.files (Dir.mk (filenameEx dirpath) None None) = Dir.UndefinedBehaviour /\
  Dir.dirs (Dir.mk (filenameEx dirpath) None None) = Dir.UndefinedBehaviour.
Proof.
  intros Hval Hloc Hord. split; [| done].
  assert (Hnil : FS.readdir_order w [] = []).
  { apply Permutation_nil. symmetry. apply Hord. }
  rewrite fromDiskPath_S. unfold Dir.ctor. rewrite Dir_setName_valid by done.
  unfold lift. unfold mbind at 1, IO_bind at 1.
  rewrite (IO_bind_run _ _ _ _ _ (getAllDirectorys_run _ _ _ Hloc)).
  rewrite Hnil. cbn [filter map for_fold list_filter].
  rewrite (IO_bind_run (mret _) _ w _ w) by reflexivity.
  rewrite (IO_bind_run _ _ _ _ _ (getAllFiles_run _ _ _ Hloc)).
  rewrite Hnil. reflexivity.
Qed.

Lemma fromDiskPath_of_an_empty_directory_witness :
  let w := FS.mkWorld (FS.Directory [("tmp", FS.Directory [("new", FS.Directory [])])])
                      (fun l => rev l) [] in
  Dir.fromDiskPath 1 "/tmp/new" w = (Ok (Dir.mk "new" None None), w) /\
  Dir.files (Dir.mk "new" None None) = Dir.UndefinedBehaviour.
Proof.
  intros w.
  destruct (fromDiskPath_of_an_empty_directory 0 "/tmp/new" w) as (H1 & H2 & _).
  - reflexivity.
  - reflexivity.
  - intros l. symmetry. apply Permutation_rev.
  - split; [exact H1 | exact H2].
Defined.

(** ** Reading any directory of the disk *)

Lemma wf_node_entry e es :
  wf_node (FS.Directory es) -> e ∈ es ->
  (portable (fst e) /\ String.length (fst e) <= FS.NAME_MAX) /\ wf_node (snd e).
Proof.
  intros [_ H] He. induction es as [|a es IH]; [by apply elem_of_nil in He |].
  destruct H as (Hp & Hw & H).
  apply elem_of_cons in He as [->|He]; [done | by apply IH].
Qed.

Lemma list_max_Permutation (l k : list nat) : l ≡ₚ k -> list_max l = list_max k.
Proof.
  induction 1 as [|x l k _ IH|x y l|l k m _ IH1 _ IH2]; simpl; lia.
Qed.

Lemma node_longest_path_entry e es :
  e ∈ es ->
  S (String.length (fst e)) + node_longest_path (snd e) <=
  node_longest_path (FS.Directory es).
Proof.
  intros He. cbn [node_longest_path].
  apply (list_max_elem
           (map (fun e => S (String.length (fst e)) + node_longest_path (snd e)) es)).
  by apply (list_elem_of_fmap_2
              (fun e => S (String.length (fst e)) + node_longest_path (snd e))).
Qed.

Lemma read_dirs_exact fuel p w (ds' : list Dir.t) :
  forall root0,
    Forall (fun c => Dir.fromDiskPath fuel (pathcat p (Dir.name c)) w = (Ok c, w)) ds' ->
    NoDup (map Dir.name (child_dirs root0) ++ map Dir.name ds') ->
    exists root',
      for_fold (fun root var =>
                  sub ← Dir.fromDiskPath fuel var;
                  mret (fst (Dir.shl_Dir root sub)))
               (map (fun c => pathcat p (Dir.name c)) ds') root0 w = (Ok root', w) /\
      Dir.name_ root' = Dir.name_ root0 /\
      Dir.subFiles_ root' = Dir.subFiles_ root0 /\
      child_dirs root' = (child_dirs root0 ++ ds')%list.
Proof.
  induction ds' as [|c ds' IH]; intros root0 Hread Hnd.
  - exists root0. rewrite app_nil_r. by repeat split.
  - apply Forall_cons in Hread as [Hc Hread].
    assert (Habsent : Dir.hasDir_ root0 (Dir.name c) = None).
    { apply hasDir__None, Forall_forall. intros x Hx Heq.
      apply NoDup_app in Hnd as (_ & Hdis & _).
      apply (Hdis (Dir.name x)); [by apply list_elem_of_fmap_2 |].
      rewrite Heq. simpl. left. }
    set (root1 := Dir.mk (Dir.name_ root0) (Dir.subFiles_ root0)
                         (Some (child_dirs root0 ++ [c])%list)).
    destruct (IH root1 Hread) as (root' & Hrun & Hn & Hf & Hd).
    { unfold root1. rewrite child_dirs_mk.
      rewrite map_app. simpl. rewrite <- app_assoc. exact Hnd. }
    exists root'. split; [| split; [| split]].
    + simpl map. rewrite for_fold_cons.
      assert (Hstep : (sub ← Dir.fromDiskPath fuel (pathcat p (Dir.name c));
                       mret (fst (Dir.shl_Dir root0 sub))) w = (Ok root1, w)).
      { rewrite (IO_bind_run _ _ _ _ _ Hc).
        unfold Dir.shl_Dir. by rewrite (add_Dir_absent _ _ _ Habsent). }
      by rewrite (IO_bind_run _ _ _ _ _ Hstep).
    + by rewrite Hn.
    + by rewrite Hf.
    + rewrite Hd. unfold root1. rewrite child_dirs_mk.
      by rewrite <- app_assoc.
Qed.

Lemma filter_partition (σ : list (string * FS.Node)) :
  σ ≡ₚ (filter (fun e => node_is_regular_file (snd e)) σ ++
        filter (fun e => node_is_directory (snd e)) σ)%list.
Proof.
  induction σ as [|[c [b|sub]] σ IH]; [done | |].
  - rewrite !filter_cons. simpl. by constructor.
  - rewrite !filter_cons. simpl. rewrite <- Permutation_middle. by constructor.
Qed.

Lemma NoDup_fst_filter (P : string * FS.Node -> Prop) `{forall e, Decision (P e)}
    (σ : list (string * FS.Node)) :
  NoDup (map fst σ) -> NoDup (map fst (filter P σ)).
Proof.
  induction σ as [|e σ IH]; [done |].
  rewrite filter_cons. simpl. intros [Hn Hnd]%NoDup_cons.
  destruct (decide (P e)); [| by apply IH].
  simpl. apply NoDup_cons. split; [| by apply IH].
  intros Hin. apply Hn.
  apply list_elem_of_fmap in Hin as (x & -> & Hx).
  apply list_elem_of_filter in Hx as [_ Hx]. by apply list_elem_of_fmap_2.
Qed.

Lemma fromDiskPath_node fuel :
  forall parent n es w Q,
    node_height (FS.Directory es) <= fuel ->
    wf_node (FS.Directory es) -> portable n ->
    String.length n <= FS.NAME_MAX ->
    FS.c_str parent = parent ->
    String.length (pathcat parent n) + node_longest_path (FS.Directory es) < FS.PATH_MAX ->
    FS.resolve parent (FS.disk w) = FS.At Q ->
    FS.lookup (Q ++ [n]) (FS.disk w) = Some (FS.Directory es) ->
    (forall l, FS.readdir_order w l ≡ₚ l) ->
    exists d, Dir.fromDiskPath fuel (pathcat parent n) w = (Ok d, w) /\
              Dir.name d = n /\
              same_node (image d) (FS.Directory es) /\
              well_named d /\ distinct_names d /\ payloads_present d /\
              short_names d /\ payloads_fit d /\
              longest_path d =
                S (String.length n) + node_longest_path (FS.Directory es).
Proof.
  induction fuel as [|fuel IH];
    intros parent n es w Q Hh Hwf Hn Hln Hparent Hmax HQ Hdir Hord;
    [cbn [node_height] in Hh; lia |].
  set (p := pathcat parent n).
  assert (Hp : FS.c_str p = p) by (apply c_str_pathcat; [done | apply Hn]).
  destruct (resolve_entry parent n (FS.disk w) Q (FS.Directory es)) as [Hres Hloc];
    try done; [fold p in Hmax |- *; lia |]. fold p in Hres, Hloc, Hmax.
  assert (Hes : NoDup (map fst es)) by apply Hwf.
  set (σ := FS.readdir_order w es).
  assert (Hσ : σ ≡ₚ es) by apply Hord.
  assert (Hσnd : NoDup (map fst σ)) by (by rewrite Hσ).
  set (D := filter (fun e => node_is_directory (snd e)) σ).
  set (F := filter (fun e => node_is_regular_file (snd e)) σ).
  (* the child directories *)
  assert (HD : Forall (fun e => exists c,
                  Dir.fromDiskPath fuel (pathcat p (fst e)) w = (Ok c, w) /\
                  Dir.name c = fst e /\ same_node (image c) (snd e) /\
                  well_named c /\ distinct_names c /\ payloads_present c /\
                  short_names c /\ payloads_fit c /\
                  longest_path c =
                    S (String.length (fst e)) + node_longest_path (snd e)) D).
  { apply Forall_forall. intros e He.
    apply list_elem_of_filter in He as [Hd He]. rewrite Hσ in He.
    destruct (wf_node_entry e es Hwf He) as [[Hpe Hle] Hwe].
    pose proof (node_height_entry e es He) as Hhe.
    pose proof (node_longest_path_entry e es He) as Hlpe.
    destruct e as [c [b|sub]]; [done |]. cbn [fst snd] in *.
    apply (IH p c sub w (Q ++ [n])%list); try done.
    - lia.
    - rewrite pathcat_length. lia.
    - rewrite (lookup_child _ _ _ _ Hdir). by apply find_entry_In. }
  apply Forall2_exists in HD as [ds' HD].
  assert (Hnames : map Dir.name ds' = map fst D).
  { clear -HD. induction HD as [|e c D ds' (_ & Hc & _) _ IHD]; [done |].
    simpl. by rewrite Hc, IHD. }
  destruct (read_dirs_exact fuel p w ds' (Dir.mk n None None))
    as (root1 & Hrun1 & Hn1 & Hf1 & Hd1).
  { clear -HD. induction HD as [|e c D ds' (Hrun & Hc & _) _ IHD]; [done |].
    constructor; [by rewrite Hc | done]. }
  { simpl. rewrite Hnames. by apply NoDup_fst_filter. }
  (* the child files *)
  set (fs' := map entry_file F).
  assert (Hfnames : map File.name fs' = map fst F) by (unfold fs'; by rewrite map_map).
  destruct (read_files p w fs' root1) as (root2 & Hrun2 & Hn2 & Hd2 & Hf2).
  { unfold fs'. apply Forall_fmap, Forall_forall. intros e He.
    apply list_elem_of_filter in He as [Hf He]. rewrite Hσ in He.
    destruct (wf_node_entry e es Hwf He) as [[Hpe Hle] Hwe].
    pose proof (node_longest_path_entry e es He) as Hlpe.
    destruct e as [c [b|sub]]; [| done].
    unfold compose. cbn [entry_file File.name File.name_ fst snd] in *.
    rewrite (File_fromDiskPath_run _ _ b).
    - unfold filenameEx. by rewrite filename_pathcat.
    - rewrite (locate_pathcat p c (FS.disk w) (Q ++ [n]) es); try done.
      + by apply find_entry_In.
      + rewrite pathcat_length. lia.
    - exact Hwe. }
  { unfold child_files at 1. rewrite Hf1. simpl. rewrite Hfnames.
    by apply NoDup_fst_filter. }
  simpl in Hd1. unfold child_files at 2 in Hf2. rewrite Hf1 in Hf2. simpl in Hf2.
  assert (Hcd2 : child_dirs root2 = ds').
  { unfold child_dirs. rewrite Hd2. exact Hd1. }
  assert (Hname2 : Dir.name root2 = n) by (unfold Dir.name; by rewrite Hn2, Hn1).
  exists root2. split; [| split; [| split; [| split; [| split; [| split; [| split; [| split]]]]]]].
  - rewrite fromDiskPath_S.
    assert (Hctor : lift (Dir.ctor (filenameEx p)) w = (Ok (Dir.mk n None None), w)).
    { unfold lift, filenameEx, p. rewrite filename_pathcat by done.
      unfold Dir.ctor. rewrite Dir_setName_valid by apply Hn. done. }
    rewrite (IO_bind_run _ _ _ _ _ Hctor).
    rewrite (IO_bind_run _ _ _ _ _ (getAllDirectorys_run _ _ _ Hloc)).
    fold σ. fold D.
    rewrite (map_ext _ (fun e => pathcat p (fst e)))
      by (intros e; apply path_slash_pathcat, Hn).
    replace (map (fun e => pathcat p (fst e)) D)
      with (map (fun c => pathcat p (Dir.name c)) ds')
      by (by rewrite <- (map_map Dir.name), Hnames, map_map).
    rewrite (IO_bind_run _ _ _ _ _ Hrun1).
    rewrite (IO_bind_run _ _ _ _ _ (getAllFiles_run _ _ _ Hloc)).
    fold σ. fold F.
    rewrite (map_ext _ (fun e => pathcat p (fst e)))
      by (intros e; apply path_slash_pathcat, Hn).
    replace (map (fun e => pathcat p (fst e)) F)
      with (map (fun f => pathcat p (File.name f)) fs')
      by (by rewrite <- (map_map File.name), Hfnames, map_map).
    by rewrite (IO_bind_run _ _ _ _ _ Hrun2).
  - exact Hname2.
  - rewrite image_unfold, Hf2, Hcd2.
    apply (same_dir _ _ (F ++ D)%list).
    + rewrite <- Hσ. apply filter_partition.
    + apply Forall2_app.
      * unfold fs'. rewrite map_map. apply Forall2_fmap_l, Forall_Forall2_diag.
        apply Forall_forall. intros e He.
        apply list_elem_of_filter in He as [Hf _].
        destruct e as [c [b|sub]]; [| by simpl in Hf].
        unfold compose. simpl. split; [done | constructor].
      * apply Forall2_fmap_l. apply Forall2_flip.
        eapply Forall2_impl; [exact HD |].
        intros e c (_ & Hc & Hsame & _). by split.
  - apply well_named_unfold. split; [split |].
    + by rewrite Hname2.
    + rewrite Hf2. unfold fs'. apply Forall_fmap, Forall_forall. intros e He.
      apply list_elem_of_filter in He as [_ He]. rewrite Hσ in He.
      by destruct (wf_node_entry e es Hwf He) as [[? _] _].
    + rewrite Hcd2. clear -HD.
      induction HD as [|e c D ds' (_ & _ & _ & Hw & _) _ IHD]; by constructor.
  - apply distinct_names_unfold. split.
    + rewrite Hf2, Hcd2, Hfnames, Hnames, <- map_app.
      unfold F, D. rewrite <- filter_partition. exact Hσnd.
    + rewrite Hcd2. clear -HD.
      induction HD as [|e c D ds' (_ & _ & _ & _ & Hw & _) _ IHD]; by constructor.
  - apply payloads_present_unfold. split.
    + rewrite Hf2. unfold fs'. apply Forall_fmap, Forall_forall.
      intros e _. unfold compose, entry_file. by eexists.
    + rewrite Hcd2. clear -HD.
      induction HD as [|e c D ds' (_ & _ & _ & _ & _ & Hw & _) _ IHD]; by constructor.
  - apply short_names_unfold. split; [split |].
    + by rewrite Hname2.
    + rewrite Hf2. unfold fs'. apply Forall_fmap, Forall_forall. intros e He.
      apply list_elem_of_filter in He as [_ He]. rewrite Hσ in He.
      by destruct (wf_node_entry e es Hwf He) as [[_ ?] _].
    + rewrite Hcd2. clear -HD.
      induction HD as [|e c D ds' (_ & _ & _ & _ & _ & _ & Hw & _) _ IHD]; by constructor.
  - apply payloads_fit_unfold. split.
    + rewrite Hf2. unfold fs'. apply Forall_fmap, Forall_forall. intros e He.
      apply list_elem_of_filter in He as [Hf He]. rewrite Hσ in He.
      destruct (wf_node_entry e es Hwf He) as [_ Hwe].
      destruct e as [c [b|sub]]; [| done]. exact Hwe.
    + rewrite Hcd2. clear -HD.
      induction HD as [|e c D ds' (_ & _ & _ & _ & _ & _ & _ & Hw & _) _ IHD];
        by constructor.
  - rewrite longest_path_unfold, Hname2, Hf2, Hcd2. f_equal.
    cbn [node_longest_path].
    rewrite (list_max_Permutation
               (map (fun e => S (String.length (fst e)) + node_longest_path (snd e)) es)
               (map (fun e => S (String.length (fst e)) + node_longest_path (snd e))
                    (F ++ D)))
      by (apply Permutation_map; rewrite <- Hσ; apply filter_partition).
    rewrite map_app, list_max_app. f_equal.
    + unfold fs'. rewrite !map_map. f_equal. apply map_ext_Forall.
      apply Forall_forall. intros e He.
      apply list_elem_of_filter in He as [Hf _].
      destruct e as [c [b|sub]]; [| done]. unfold compose. simpl. lia.
    + clear -HD. induction HD as [|e c D ds' (_ & _ & _ & _ & _ & _ & _ & _ & Hl) _ IHD];
        [done |]. simpl. by rewrite Hl, IHD.
Qed.

(** X24.  [Dir::fromDiskPath] reads any directory of the disk whose
    entries, at every level, have portable names of at most [NAME_MAX]
    bytes that are pairwise distinct within their directory, whose files a
    string can hold and whose paths stay below [PATH_MAX]: it returns a tree
    with the name of the directory whose image on the disk is the directory
    that was read, up to the order of the entries: the same names at every
    level and the same bytes in every file.  Every file of the tree has a
    payload, and the tree can be written. *)
Theorem fromDiskPath_reads_a_directory (parent n : string) (Q : list string)
    (es : list (string * FS.Node)) (w : FS.World) (fuel : nat) :
  FS.c_str parent = parent -> portable n ->
  String.length n <= FS.NAME_MAX ->
  String.length (pathcat parent n) + node_longest_path (FS.Directory es) < FS.PATH_MAX ->
  FS.resolve parent (FS.disk w) = FS.At Q ->
  FS.lookup (Q ++ [n]) (FS.disk w) = Some (FS.Directory es) ->
  wf_node (FS.Directory es) ->
  (forall l, FS.readdir_order w l ≡ₚ l) ->
  node_height (FS.Directory es) <= fuel ->
  exists d, Dir.fromDiskPath fuel (pathcat parent n) w = (Ok d, w) /\
            Dir.name d = n /\
            same_node (image d) (FS.Directory es) /\
            well_named d /\ distinct_names d /\ payloads_present d /\
            short_names d /\ payloads_fit d.
Proof.
  intros Hparent Hn Hln Hmax HQ Hdir Hwf Hord Hfuel.
  destruct (fromDiskPath_node fuel parent n es w Q)
    as (d & H1 & H2 & H3 & H4 & H5 & H6 & H7 & H8 & _); try done.
  by exists d.
Qed.

Lemma fromDiskPath_reads_a_directory_witness :
  let N := [("b.txt", FS.RegularFile "bye"); ("src", FS.Directory [("a", FS.RegularFile "")])] in
  let w := FS.mkWorld (FS.Directory [("tmp", FS.Directory [("proj", FS.Directory N)])])
                      (fun l => rev l) [] in
  exists d, Dir.fromDiskPath 2 "/tmp/proj" w = (Ok d, w) /\
            Dir.name d = "proj" /\
            same_node (image d) (FS.Directory N).
Proof.
  intros N w.
  destruct (fromDiskPath_reads_a_directory "/tmp" "proj" ["tmp"] N w 2)
    as (d & H1 & H2 & H3 & _).
  - reflexivity.
  - split; reflexivity.
  - cbv. lia.
  - cbv. lia.
  - reflexivity.
  - reflexivity.
  - unfold N, portable. simpl.
    repeat (split; try done; try (cbv; lia);
            try (repeat constructor; apply (bool_decide_unpack _); vm_compute; exact I)).
  - intros l. symmetry. apply Permutation_rev.
  - simpl. lia.
  - by exists d.
Defined.

(** X25.  Reading such a directory with [Dir::fromDiskPath] and writing
    the result with [Dir::write] under another directory, where its name is
    free and its paths stay below [PATH_MAX], leaves there a copy of the
    directory that was read, up to the order of the entries. *)
Theorem read_then_write_copies (parent n dst : string) (Q Q2 : list string)
    (es es2 : list (string * FS.Node)) (ow : bool) (w : FS.World) (fuel : nat) :
  FS.c_str parent = parent -> portable n ->
  String.length n <= FS.NAME_MAX ->
  String.length (pathcat parent n) + node_longest_path (FS.Directory es) < FS.PATH_MAX ->
  FS.resolve parent (FS.disk w) = FS.At Q ->
  FS.lookup (Q ++ [n]) (FS.disk w) = Some (FS.Directory es) ->
  wf_node (FS.Directory es) ->
  (forall l, FS.readdir_order w l ≡ₚ l) ->
  node_height (FS.Directory es) <= fuel ->
  FS.c_str dst = dst ->
  String.length (pathcat dst n) + node_longest_path (FS.Directory es) < FS.PATH_MAX ->
  FS.resolve dst (FS.disk w) = FS.At Q2 ->
  FS.lookup Q2 (FS.disk w) = Some (FS.Directory es2) ->
  FS.find_entry n es2 = None ->
  exists d w2 N',
    Dir.fromDiskPath fuel (pathcat parent n) w = (Ok d, w) /\
    Dir.write d dst ow w = (Ok tt, w2) /\
    FS.locate (pathcat dst n) (FS.disk w2) = Some N' /\
    same_node N' (FS.Directory es).
Proof.
  intros Hparent Hn Hln Hmax HQ Hdir Hwf Hord Hfuel Hdst Hmax2 HQ2 Hes2 Hfresh.
  destruct (fromDiskPath_node fuel parent n es w Q)
    as (d & Hread & Hname & Hsame & Hwn & Hdn & _ & Hsn & _ & Hlp); try done.
  destruct (written_tree_on_disk d dst ow w Q2 es2) as (w2 & Hrun & _ & Hloc & _);
    try done.
  - rewrite Hlp. rewrite pathcat_length in Hmax2. lia.
  - by rewrite Hname.
  - exists d, w2, (image d). rewrite Hname in Hloc. by repeat split.
Qed.

Lemma read_then_write_copies_witness :
  let N := [("b.txt", FS.RegularFile "bye"); ("src", FS.Directory [("a", FS.RegularFile "")])] in
  let w := FS.mkWorld (FS.Directory [("tmp", FS.Directory [("proj", FS.Directory N)]);
                                     ("bak", FS.Directory [])])
                      (fun l => rev l) [] in
  exists d w2 N',
    Dir.fromDiskPath 2 "/tmp/proj" w = (Ok d, w) /\
    Dir.write d "/bak" false w = (Ok tt, w2) /\
    FS.locate "/bak/proj" (FS.disk w2) = Some N' /\
    same_node N' (FS.Directory N).
Proof.
  intros N w.
  apply (read_then_write_copies "/tmp" "proj" "/bak" ["tmp"] ["bak"] N [] false w 2).
  - reflexivity.
  - split; reflexivity.
  - cbv. lia.
  - cbv. lia.
  - reflexivity.
  - reflexivity.
  - unfold N, portable. simpl.
    repeat (split; try done; try (cbv; lia);
            try (repeat constructor; apply (bool_decide_unpack _); vm_compute; exact I)).
  - intros l. symmetry. apply Permutation_rev.
  - simpl. lia.
  - reflexivity.
  - cbv. lia.
  - reflexivity.
  - reflexivity.
  - reflexivity.
Defined.

(** ** Counting after an insertion or a removal *)

Lemma fileCount_unfold r d :
  Dir.fileCount r d =
  ((vec_size (child_files d) +
    (if r then sumN (map (Dir.fileCount true) (child_dirs d)) else 0))
   mod SIZE_MAX_succ)%N.
Proof.
  destruct r; [apply fileCount_true_unfold |].
  by rewrite fileCount_false, N.add_0_r.
Qed.

Lemma dirCount_same_dirs r d d' :
  Dir.subDirs_ d' = Dir.subDirs_ d -> Dir.dirCount r d' = Dir.dirCount r d.
Proof. destruct d as [n fs ds], d' as [n' fs' ds']. simpl. by intros ->. Qed.

Lemma size_t_add_mod a b :
  size_t_add (a mod SIZE_MAX_succ) b = ((a + b) mod SIZE_MAX_succ)%N.
Proof. unfold size_t_add. apply N.Div0.add_mod_idemp_l. Qed.

(** X26.  Inserting a file under a name no child file has raises
    [fileCount], recursive or not, by one modulo [2^64]; inserting over an
    existing name, with or without [isOverwrite], leaves it unchanged.
    Removing a name a child file has lowers [fileCount] by one, removing a
    name none has leaves it unchanged.  [dirCount] is the same after each
    of these calls. *)
Theorem counts_after_add_and_remove (d : Dir.t) (n : File.t) (x : string)
    (ow r : bool) :
  let added := fst (Dir.add_File d n ow) in
  let removed := Dir.removeFile d x in
  (Dir.hasFile (File.name n) false d = false ->
   Dir.fileCount r added = size_t_add (Dir.fileCount r d) 1) /\
  (Dir.hasFile (File.name n) false d = true ->
   Dir.fileCount r added = Dir.fileCount r d) /\
  (Dir.hasFile x false d = true ->
   size_t_add (Dir.fileCount r removed) 1 = Dir.fileCount r d) /\
  (Dir.hasFile x false d = false -> Dir.fileCount r removed = Dir.fileCount r d) /\
  Dir.dirCount r added = Dir.dirCount r d /\
  Dir.dirCount r removed = Dir.dirCount r d.
Proof.
  intros added removed.
  assert (Hfind : forall y, Dir.hasFile y false d = true <-> is_Some (Dir.hasFile_ d y)).
  { intros y. destruct d as [nm fs ds]. cbn [Dir.hasFile].
    destruct (Dir.hasFile_ _ y) as [pos|]; split; intros H;
      try done; try (by eexists); by destruct H. }
  assert (Hadded : Dir.subDirs_ added = Dir.subDirs_ d).
  { unfold added. destruct (Dir.hasFile_ d (File.name n)) as [pos|] eqn:E.
    - destruct ow.
      + by rewrite (add_File_present_overwrite d n pos E).
      + by rewrite (add_File_present_keep d n pos E).
    - by rewrite (add_File_absent d n ow E). }
  assert (Hremoved : Dir.subDirs_ removed = Dir.subDirs_ d).
  { unfold removed, Dir.removeFile. by destruct (Dir.hasFile_ d x). }
  assert (Hcd : forall d1 d2, Dir.subDirs_ d1 = Dir.subDirs_ d2 ->
                              child_dirs d1 = child_dirs d2).
  { intros d1 d2 H. unfold child_dirs. by rewrite H. }
  split; [| split; [| split; [| split; [| split]]]].
  - intros Habs.
    assert (E : Dir.hasFile_ d (File.name n) = None).
    { destruct (Dir.hasFile_ d (File.name n)) eqn:E; [| done].
      assert (Dir.hasFile (File.name n) false d = true) by (apply Hfind; by rewrite E).
      congruence. }
    rewrite !fileCount_unfold, size_t_add_mod, (Hcd _ _ Hadded).
    unfold added. rewrite (add_File_absent d n ow E). cbn [fst]. rewrite child_files_mk.
    rewrite vec_size_app. f_equal. unfold vec_size. simpl. lia.
  - intros Hpres. apply Hfind in Hpres as [pos E].
    rewrite !fileCount_unfold, (Hcd _ _ Hadded). do 2 f_equal.
    unfold added. destruct ow.
    + rewrite (add_File_present_overwrite d n pos E). cbn [fst]. rewrite child_files_mk.
      unfold vec_size. by rewrite length_insert.
    + by rewrite (add_File_present_keep d n pos E).
  - intros Hpres. apply Hfind in Hpres as [pos E].
    rewrite !fileCount_unfold, size_t_add_mod, (Hcd _ _ Hremoved).
    unfold removed. rewrite (removeFile_present d x pos E). rewrite child_files_mk.
    assert (Hlt : pos < length (child_files d)).
    { apply hasFile__Some in E as (fs & c & Hfs & Hl & _).
      unfold child_files. rewrite Hfs. by eapply lookup_lt_Some. }
    f_equal. unfold vec_size. rewrite length_delete by (by apply lookup_lt_is_Some).
    lia.
  - intros Habs.
    assert (E : Dir.hasFile_ d x = None).
    { destruct (Dir.hasFile_ d x) eqn:E; [| done].
      assert (Dir.hasFile x false d = true) by (apply Hfind; by rewrite E).
      congruence. }
    unfold removed. by rewrite (removeFile_absent d x E).
  - by apply dirCount_same_dirs.
  - by apply dirCount_same_dirs.
Qed.

Lemma counts_after_add_and_remove_witness :
  let d := Dir.mk "d" (Some [File.mk "a.txt" (Some "old")])
                  (Some [Dir.mk "sub" (Some [File.mk "x" None]) None]) in
  Dir.fileCount true (fst (Dir.add_File d (File.mk "b" None) false)) = 3%N /\
  Dir.fileCount true (fst (Dir.add_File d (File.mk "a.txt" None) true)) = 2%N /\
  size_t_add (Dir.fileCount true (Dir.removeFile d "a.txt")) 1 = 2%N.
Proof.
  intros d.
  destruct (counts_after_add_and_remove d (File.mk "b" None) "a.txt" false true)
    as (H1 & _ & H3 & _).
  destruct (counts_after_add_and_remove d (File.mk "a.txt" None) "a.txt" true true)
    as (_ & H2 & _).
  split; [by rewrite H1 |]. split; [by rewrite H2 |].
  by rewrite H3.
Defined.
